(** * yap-cc: streaming turn engine, tag parser and CLI translator

    A shallow embedding of the Python backend
    ([core/interaction_parser.py], [tools/interaction.py],
    [core/session.py], [providers/claude_cli.py],
    [api/websocket/handlers.py]) and the properties its specification
    states about it.

    Conventions of the embedding.
    - A Python [str] is a list of characters; characters are code points
      below 256 ([ascii]).  Slices [s[:n]] and [s[n:]] are [take n s] and
      [drop n s].
    - [uuid.uuid4()] is a supply of fresh identifiers: a counter.
    - Generators are consumed one event at a time; a generator that is
      abandoned by its consumer makes no further step.
    - A raised exception is an explicit [Raise] outcome. *)

From Stdlib Require Import Ascii String DecimalString.
From stdpp Require Import base option list strings gmap.

Local Open Scope nat_scope.
Set Warnings "-register-all".

(* ===================================================================== *)
(** ** Text: the [str] operations the code uses                           *)
(* ===================================================================== *)

Module Text.

Definition str := list ascii.

(** A string literal as a [str]. *)
Definition lit (s : string) : str := list_ascii_of_string s.

Definition dquote : ascii := Eval cbv in ascii_of_nat 34.

Definition chr_eqb (a b : ascii) : bool := Ascii.eqb a b.

Fixpoint str_eqb (a b : str) : bool :=
  match a, b with
  | [], [] => true
  | x :: a', y :: b' => chr_eqb x y && str_eqb a' b'
  | _, _ => false
  end.

(** [s.startswith(p)]; on success the rest of [s] after [p]. *)
Fixpoint strip_prefix (p s : str) : option str :=
  match p with
  | [] => Some s
  | x :: p' =>
      match s with
      | [] => None
      | y :: s' => if chr_eqb x y then strip_prefix p' s' else None
      end
  end.

Definition startswith (p s : str) : bool :=
  match strip_prefix p s with Some _ => true | None => false end.

(** [s.endswith(p)]. *)
Definition endswith (p s : str) : bool :=
  (length p <=? length s) && str_eqb (drop (length s - length p) s) p.

(** Leftmost position [i] (end of string included) at which the rest of
    the string satisfies [P]: what [pattern.search] and [str.find] compute
    for patterns that only look forward. *)
Fixpoint search (P : str -> bool) (s : str) : option nat :=
  if P s then Some 0
  else match s with
       | [] => None
       | _ :: t => S <$> search P t
       end.

(** [s.find(sub, start)], with [None] for [-1]. *)
Definition find (sub s : str) (start : nat) : option nat :=
  (fun i => start + i) <$> search (startswith sub) (drop start s).

(** Unicode white space below code point 256, as [str.isspace] and the
    regular-expression class [\s] have it: U+0009..U+000D, U+001C..U+0020,
    U+0085, U+00A0. *)
Definition is_space (c : ascii) : bool :=
  let n := nat_of_ascii c in
  ((9 <=? n) && (n <=? 13)) || ((28 <=? n) && (n <=? 32))
  || (n =? 133) || (n =? 160).

Fixpoint lstrip (s : str) : str :=
  match s with
  | c :: t => if is_space c then lstrip t else s
  | [] => []
  end.

(** [s.strip()]. *)
Definition strip (s : str) : str := rev (lstrip (rev (lstrip s))).

(** [s.split(sep)] for a one-character separator. *)
Fixpoint split (sep : ascii) (s : str) : list str :=
  match s with
  | [] => [[]]
  | c :: t =>
      if chr_eqb c sep then [] :: split sep t
      else match split sep t with
           | w :: ws => (c :: w) :: ws
           | [] => [[c]]
           end
  end.

(** Lower case of an ASCII letter, identity elsewhere. *)
Definition lower (c : ascii) : ascii :=
  let n := nat_of_ascii c in
  if (65 <=? n) && (n <=? 90) then ascii_of_nat (n + 32) else c.

(** Python truthiness of a string. *)
Definition nonempty (s : str) : bool :=
  match s with [] => false | _ => true end.

(** [str(n)] for a natural number. *)
Definition of_nat (n : nat) : str :=
  lit (NilZero.string_of_uint (Nat.to_uint n)).

End Text.
Import Text.

(* ===================================================================== *)
(** ** Regex: the fragment of [re] the patterns of the parser use         *)
(* ===================================================================== *)

Module Regex.

(** Pattern syntax. *)
Inductive re :=
| Lit (l : str)                           (* literal text *)
| NotAhead (l : str)                      (* (?!l) *)
| Star (p : ascii -> bool)                (* [class]*  greedy *)
| Plus (p : ascii -> bool)                (* [class]+  greedy *)
| Lazy (p : ascii -> bool)                (* [class]*? lazy *)
| Opt (r : re)                            (* (?:r)?    greedy *)
| Cap (name : string) (r : re)            (* (?P<name>r) *)
| Seq (r1 r2 : re).

Definition captures := list (string * str).

Section Matcher.
Context {R : Type}.

Definition continuation := str -> captures -> option R.

(** Greedy repetition of a character class: take as many as possible,
    give back one at a time when the continuation fails. *)
Fixpoint star_greedy (p : ascii -> bool) (s : str) (cs : captures)
    (k : continuation) : option R :=
  match s with
  | c :: t =>
      if p c then
        match star_greedy p t cs k with
        | Some r => Some r
        | None => k s cs
        end
      else k s cs
  | [] => k s cs
  end.

(** Lazy repetition: try the continuation first, take one more
    character when it fails. *)
Fixpoint star_lazy (p : ascii -> bool) (s : str) (cs : captures)
    (k : continuation) : option R :=
  match k s cs with
  | Some r => Some r
  | None =>
      match s with
      | c :: t => if p c then star_lazy p t cs k else None
      | [] => None
      end
  end.

(** Backtracking matcher in continuation-passing style, anchored at the
    start of [s].  The captures of an alternative that is given up are
    dropped with it. *)
Fixpoint run (r : re) (s : str) (cs : captures) (k : continuation)
    : option R :=
  match r with
  | Lit l =>
      match strip_prefix l s with
      | Some s' => k s' cs
      | None => None
      end
  | NotAhead l => if startswith l s then None else k s cs
  | Star p => star_greedy p s cs k
  | Plus p =>
      match s with
      | c :: t => if p c then star_greedy p t cs k else None
      | [] => None
      end
  | Lazy p => star_lazy p s cs k
  | Opt r1 =>
      match run r1 s cs k with
      | Some x => Some x
      | None => k s cs
      end
  | Cap name r1 =>
      run r1 s cs
        (fun s' cs' => k s' ((name, take (length s - length s') s) :: cs'))
  | Seq r1 r2 => run r1 s cs (fun s' cs' => run r2 s' cs' k)
  end.
End Matcher.

(** [pattern.match(s)]: the captures and the text after the match. *)
Definition rmatch (r : re) (s : str) : option (captures * str) :=
  run r s [] (fun s' cs => Some (cs, s')).

(** [m.group(name)]. *)
Fixpoint group (name : string) (cs : captures) : option str :=
  match cs with
  | [] => None
  | (n, v) :: cs' => if String.eqb n name then Some v else group name cs'
  end.

(** [pattern.finditer(s)]: the matches from left to right, each search
    resuming where the previous match ended (one character further after
    an empty match). *)
Fixpoint finditer_fuel (fuel : nat) (r : re) (s : str) : list captures :=
  match fuel with
  | 0 => []
  | S fuel' =>
      match rmatch r s with
      | Some (cs, s') =>
          cs :: (if length s' <? length s then finditer_fuel fuel' r s'
                 else match s with
                      | [] => []
                      | _ :: t => finditer_fuel fuel' r t
                      end)
      | None =>
          match s with
          | [] => []
          | _ :: t => finditer_fuel fuel' r t
          end
      end
  end.

Definition finditer (r : re) (s : str) : list captures :=
  finditer_fuel (S (length s)) r s.

End Regex.

(* ===================================================================== *)
(** ** Events: [core/events.py]                                           *)
(* ===================================================================== *)

Module Events.

(** A decoded JSON value ([json.loads]); numbers are integers here. *)
Inductive json :=
| JNull
| JBool (b : bool)
| JNum (n : Z)
| JStr (s : str)
| JArr (l : list json)
| JObj (fields : list (string * json)).

(** The empty [dict], default of [ToolDoneEvent.input]. *)
Definition empty_dict : json := JObj [].

Inductive input_type := IText | ISingleChoice | IMultiChoice | IConfirmation.

Record FormQuestion := {
  fq_name : str;
  fq_question : str;
  fq_input_type : input_type;
  fq_options : list str
}.

(** Identifiers made by [uuid.uuid4()]. *)
Definition uuid := nat.

Inductive Event :=
| TextChunkEvent (content : str)
| ToolStartEvent (tool_call_id : uuid) (tool : str) (input : json)
| ToolDoneEvent (tool_call_id : uuid) (tool : str) (output : str)
    (error : option str) (input : json)
| DoneEvent
| ErrorEvent (message : str)
| SessionIdEvent (cli_session_id : str)
| InteractionRequestEvent (request_id : uuid) (question : str)
    (itype : input_type) (options : list str)
| InteractionFormEvent (request_id : uuid) (questions : list FormQuestion)
    (paginated : bool).

Definition is_text (e : Event) : bool :=
  match e with TextChunkEvent _ => true | _ => false end.

Definition is_done (e : Event) : bool :=
  match e with DoneEvent => true | _ => false end.

Definition is_interaction (e : Event) : bool :=
  match e with
  | InteractionRequestEvent _ _ _ _ | InteractionFormEvent _ _ _ => true
  | _ => false
  end.

End Events.
Import Events.

(* ===================================================================== *)
(** ** Interaction registry: [tools/interaction.py]                       *)
(* ===================================================================== *)

Module Interaction.

(** Outcome of a call that may raise. *)
Inductive exn := QueueFull | AttributeError | TypeError | ValidationError
               | OtherError (msg : str).

Inductive outcome (A : Type) :=
| Ok (a : A)
| Raise (e : exn).
Arguments Ok {A} a.
Arguments Raise {A} e.

(** [asyncio.Queue(maxsize)]: the items waiting, oldest first. *)
Record Queue := { items : list str; maxsize : nat }.

Definition new_queue (maxsize : nat) : Queue :=
  {| items := []; maxsize := maxsize |}.

(** [Queue.full()]: never full when [maxsize] is 0. *)
Definition full (q : Queue) : bool :=
  (0 <? maxsize q) && (maxsize q <=? length (items q)).

(** [Queue.put_nowait(v)] raises [QueueFull] on a full queue. *)
Definition put_nowait (q : Queue) (v : str) : outcome Queue :=
  if full q then Raise QueueFull
  else Ok {| items := items q ++ [v]; maxsize := maxsize q |}.

(** [Queue.get()] once an item is there: the item and the queue left. *)
Definition get (q : Queue) : option (str * Queue) :=
  match items q with
  | [] => None
  | v :: rest => Some (v, {| items := rest; maxsize := maxsize q |})
  end.

(** A reference to a queue object. *)
Definition qref := nat.

(** The process-wide state the parser and the transport loop share:
    the queue objects, the module-level dict [_pending_async] from
    request id to queue, and the identifier supplies. *)
Record world := {
  heap : gmap qref Queue;
  pending_async : gmap uuid qref;
  next_ref : qref;
  next_uuid : uuid
}.

Definition empty_world : world :=
  {| heap := ∅; pending_async := ∅; next_ref := 0; next_uuid := 0 |}.

(** [uuid.uuid4()]. *)
Definition uuid4 (w : world) : uuid * world :=
  (next_uuid w,
   {| heap := heap w; pending_async := pending_async w;
      next_ref := next_ref w; next_uuid := S (next_uuid w) |}).

Definition register_interaction (request_id : uuid) (w : world)
    : qref * world :=
  let q := next_ref w in
  (q, {| heap := <[q := new_queue 1]> (heap w);
         pending_async := <[request_id := q]> (pending_async w);
         next_ref := S q;
         next_uuid := next_uuid w |}).

Definition resolve_interaction (request_id : uuid) (value : str) (w : world)
    : outcome world :=
  match pending_async w !! request_id with
  | None => Ok w
  | Some q =>
      match heap w !! q with
      | None => Ok w
      | Some qu =>
          match put_nowait qu value with
          | Raise e => Raise e
          | Ok qu' =>
              Ok {| heap := <[q := qu']> (heap w);
                    pending_async := pending_async w;
                    next_ref := next_ref w;
                    next_uuid := next_uuid w |}
          end
      end
  end.

(** [_pending_async.pop(request_id, None)]. *)
Definition pop_pending (request_id : uuid) (w : world) : world :=
  {| heap := heap w;
     pending_async := delete request_id (pending_async w);
     next_ref := next_ref w;
     next_uuid := next_uuid w |}.

End Interaction.
Import Interaction.

(* ===================================================================== *)
(** ** Tag parser: [core/interaction_parser.py]                           *)
(* ===================================================================== *)

Module Parser.
Import Regex.

Declare Scope re_scope.
Delimit Scope re_scope with re.
Notation "a ~> b" := (Seq a b) (at level 60, right associativity) : re_scope.

Definition not_chr (x : ascii) : ascii -> bool := fun c => negb (chr_eqb c x).
Definition any_chr : ascii -> bool := fun _ => true.
Definition gt : ascii := Eval cbv in ascii_of_nat 62.

(** The optional attribute group: white space, NAME, an equals sign and
    a quoted value captured as CAP. *)
Definition attr (name cap : string) : re :=
  Opt (Plus is_space ~> Lit (lit name ++ lit "=" ++ [dquote])
       ~> Cap cap (Star (not_chr dquote)) ~> Lit [dquote])%re.

(** [<ask(?!-)], the optional [type] and [options] attributes, [[^>]*>],
    the lazy [question] group and [</ask>]; [.] matches every character
    (DOTALL). *)
Definition ASK_RE : re :=
  (Lit (lit "<ask") ~> NotAhead (lit "-")
   ~> attr "type" "atype" ~> attr "options" "options"
   ~> Star (not_chr gt) ~> Lit (lit ">")
   ~> Cap "question" (Lazy any_chr) ~> Lit (lit "</ask>"))%re.

(** The same with a leading optional [name] attribute. *)
Definition FORM_CHILD_RE : re :=
  (Lit (lit "<ask") ~> NotAhead (lit "-")
   ~> attr "name" "name" ~> attr "type" "atype" ~> attr "options" "options"
   ~> Star (not_chr gt) ~> Lit (lit ">")
   ~> Cap "question" (Lazy any_chr) ~> Lit (lit "</ask>"))%re.

(** The captured type, [text] when there is none or when it is not one
    of [_VALID_TYPES]. *)
Definition valid_type (atype : option str) : input_type :=
  match atype with
  | None => IText
  | Some a =>
      if str_eqb a (lit "confirmation") then IConfirmation
      else if str_eqb a (lit "single_choice") then ISingleChoice
      else if str_eqb a (lit "multi_choice") then IMultiChoice
      else IText
  end.

Definition POSSIBLE_PREFIXES : list str :=
  [lit "<ask-form"; lit "<ask-for"; lit "<ask-fo"; lit "<ask-f"; lit "<ask-";
   lit "<ask"; lit "<as"; lit "<a"; lit "<"].

(** A literal followed by one character of a class, the character not
    consumed: [LIT(?=[class])]. *)
Definition lit_ahead (l : str) (p : ascii -> bool) (s : str) : bool :=
  match strip_prefix l s with
  | Some (c :: _) => p c
  | _ => false
  end.

(** [<ask(?=[>\s])] at the head of the text. *)
Definition bare_ask_at : str -> bool :=
  lit_ahead (lit "<ask") (fun c => chr_eqb c gt || is_space c).

(** [<ask-form(?=[>\s/])] at the head of the text. *)
Definition form_ask_at : str -> bool :=
  lit_ahead (lit "<ask-form")
    (fun c => chr_eqb c gt || is_space c || chr_eqb c "/"%char).

Definition BARE_ASK_START_search (buf : str) : option nat :=
  search bare_ask_at buf.
Definition FORM_ASK_START_search (buf : str) : option nat :=
  search form_ask_at buf.

Fixpoint first_suffix (prefixes : list str) (buf : str) : nat :=
  match prefixes with
  | [] => 0
  | prefix :: rest =>
      if endswith prefix buf then length prefix else first_suffix rest buf
  end.

Definition _partial_ask_suffix (buf : str) : nat :=
  first_suffix POSSIBLE_PREFIXES buf.

Definition _options (raw : str) : list str :=
  if nonempty raw
  then strip <$> filter (fun o => nonempty (strip o) = true) (split "|"%char raw)
  else [].

Definition or_empty (o : option str) : str := default [] o.

(** What an extractor returns: the text before the tag, the event, the
    queue registered for it, the text after the tag. *)
Definition extraction : Type := str * Event * qref * str * world.

Definition _try_extract_bare_ask (buf : str) (w : world) : option extraction :=
  match BARE_ASK_START_search buf with
  | None => None
  | Some pos =>
      match find (lit "</ask>") buf pos with
      | None => None
      | Some close_end =>
          let full_tag := drop pos (take (close_end + 6) buf) in
          match rmatch ASK_RE full_tag with
          | None => None
          | Some (m, _) =>
              let atype := valid_type (group "atype" m) in
              let question := strip (or_empty (group "question" m)) in
              let opts := _options (or_empty (group "options" m)) in
              let '(req_id, w1) := uuid4 w in
              let '(q, w2) := register_interaction req_id w1 in
              Some (take pos buf,
                    InteractionRequestEvent req_id question atype opts,
                    q, drop (close_end + 6) buf, w2)
          end
      end
  end.

(** The loop body of [_try_extract_ask_form]: the stripped name (the
    letter q and the ordinal [i + 1] when there is none), type, question
    and options of child [i]. *)
Definition form_question (i : nat) (m : captures) : FormQuestion :=
  let name :=
    match group "name" m with
    | Some (c :: n) => c :: n
    | _ => lit "q" ++ of_nat (i + 1)
    end in
  {| fq_name := strip name;
     fq_question := strip (or_empty (group "question" m));
     fq_input_type := valid_type (group "atype" m);
     fq_options := _options (or_empty (group "options" m)) |}.

(** The search for the attribute [paginated] with value [true] in the
    opening tag, letter case ignored. *)
Definition paginated_true (opening_tag : str) : bool :=
  match search (startswith (lit "paginated=" ++ [dquote] ++ lit "true" ++ [dquote]))
               (lower <$> opening_tag) with
  | Some _ => true
  | None => false
  end.

Definition _try_extract_ask_form (buf : str) (w : world) : option extraction :=
  match FORM_ASK_START_search buf with
  | None => None
  | Some pos =>
      match find (lit "</ask-form>") buf pos with
      | None => None
      | Some close_end =>
          match find (lit ">") buf pos with
          | None => None
          | Some open_close =>
              if close_end <=? open_close then None
              else
                let inner := drop (open_close + 1) (take close_end buf) in
                let questions := imap form_question (finditer FORM_CHILD_RE inner) in
                match questions with
                | [] => None
                | _ :: _ =>
                    let opening_tag := drop pos (take (open_close + 1) buf) in
                    let paginated := paginated_true opening_tag in
                    let '(req_id, w1) := uuid4 w in
                    let '(q, w2) := register_interaction req_id w1 in
                    Some (take pos buf,
                          InteractionFormEvent req_id questions paginated,
                          q, drop (close_end + 11) buf, w2)
                end
          end
      end
  end.

Inductive tag_kind := KAsk | KForm.

Definition _first_tag_pos (buf : str) : option (nat * tag_kind) :=
  match BARE_ASK_START_search buf, FORM_ASK_START_search buf with
  | None, None => None
  | Some a, None => Some (a, KAsk)
  | Some a, Some f => if a <=? f then Some (a, KAsk) else Some (f, KForm)
  | None, Some f => Some (f, KForm)
  end.

Definition extractor (kind : tag_kind) : str -> world -> option extraction :=
  match kind with
  | KForm => _try_extract_ask_form
  | KAsk => _try_extract_bare_ask
  end.

Definition request_id_of (e : Event) : uuid :=
  match e with
  | InteractionRequestEvent r _ _ _ => r
  | InteractionFormEvent r _ _ => r
  | _ => 0
  end.

(** The list the caller passes in: [(request_id, queue)] pairs. *)
Definition pending_list := list (uuid * qref).

(** [events.append(TextChunkEvent(content=t))] when [t] is not empty. *)
Definition append_text (events : list Event) (t : str) : list Event :=
  if nonempty t then events ++ [TextChunkEvent t] else events.

(** The no-tag branch: everything but a possible partial tag prefix at
    the end is text; the prefix stays in the buffer. *)
Definition flush_safe (buf : str) : str * str :=
  let keep := _partial_ask_suffix buf in
  (if keep =? 0 then buf else take (length buf - keep) buf,
   if keep =? 0 then [] else drop (length buf - keep) buf).

(** The [while True] loop of [_process_buffer]; each turn that does not
    leave the loop shortens [buf], so [S (length buf)] turns suffice. *)
Fixpoint process_loop (fuel : nat) (events : list Event) (buf : str)
    (pending : pending_list) (w : world)
    : list Event * str * pending_list * world :=
  match fuel with
  | 0 => (events, buf, pending, w)
  | S fuel' =>
      match _first_tag_pos buf with
      | None =>
          let '(safe, rest) := flush_safe buf in
          (append_text events safe, rest, pending, w)
      | Some (first_pos, kind) =>
          match extractor kind buf w with
          | None =>
              (if 0 <? first_pos
               then events ++ [TextChunkEvent (take first_pos buf)]
               else events,
               drop first_pos buf, pending, w)
          | Some (before, ev, q, after, w') =>
              process_loop fuel' (append_text events before ++ [ev]) after
                (pending ++ [(request_id_of ev, q)]) w'
          end
      end
  end.

Definition _process_buffer (buf : str) (pending : pending_list) (w : world)
    : list Event * str * pending_list * world :=
  process_loop (S (length buf)) [] buf pending w.

(** State of the generator [parse_interactions] between two events of
    [inner]. *)
Record pstate := {
  buf : str;
  pending : pending_list;
  wld : world
}.

(** The flush ahead of an event that is not text. *)
Definition flush_before (b : str) : list Event * str :=
  match _first_tag_pos b with
  | None =>
      let '(safe, rest) := flush_safe b in (append_text [] safe, rest)
  | Some (first_pos, _) =>
      (if 0 <? first_pos then [TextChunkEvent (take first_pos b)] else [],
       drop first_pos b)
  end.

(** One turn of the [async for] loop: the events yielded for [event],
    the state after, and whether the generator has returned. *)
Definition parser_step (st : pstate) (event : Event)
    : list Event * pstate * bool :=
  match event with
  | TextChunkEvent content =>
      let '(evts, b, p, w) :=
        _process_buffer (buf st ++ content) (pending st) (wld st) in
      (evts, {| buf := b; pending := p; wld := w |}, false)
  | _ =>
      let '(flushed, b0) := flush_before (buf st) in
      if is_done event then
        let '(evts, b, p, w) := _process_buffer b0 (pending st) (wld st) in
        let tail := append_text [] b in
        let st' := {| buf := b; pending := p; wld := w |} in
        match p with
        | _ :: _ => (flushed ++ evts ++ tail, st', true)
        | [] => (flushed ++ evts ++ tail ++ [event], st', true)
        end
      else
        (flushed ++ [event],
         {| buf := b0; pending := pending st; wld := wld st |}, false)
  end.

(** The generator run over a finite [inner]. *)
Fixpoint parse_from (st : pstate) (inner : list Event)
    : list Event * pstate :=
  match inner with
  | [] => ([], st)
  | event :: rest =>
      let '(out, st', returned) := parser_step st event in
      if returned then (out, st')
      else let '(out', st'') := parse_from st' rest in (out ++ out', st'')
  end.

Definition parse_interactions (inner : list Event) (pending : pending_list)
    (w : world) : list Event * pstate :=
  parse_from {| buf := []; pending := pending; wld := w |} inner.

End Parser.

(* ===================================================================== *)
(** ** Conversation state and [Session.send]: [core/session.py]           *)
(* ===================================================================== *)

Module Session.

Inductive role := User | Assistant.

(** [ToolCall]; of the two time stamps only whether [completed_at] is
    set is kept. *)
Record ToolCall := {
  tc_id : uuid;
  tc_tool : str;
  tc_input : json;
  tc_output : option str;
  tc_error : option str;
  tc_completed : bool
}.

Record Message := {
  msg_role : role;
  msg_content : str;
  msg_tool_calls : list ToolCall
}.

(** [SessionState], without title, flags and time stamps. *)
Record SessionState := {
  sid : string;
  messages : list Message;
  cli_session_id : option str
}.

(** A [SessionStore]: the state last saved under each session id. *)
Abbreviation SessionStore := (gmap string SessionState).

Definition save (state : SessionState) (store : SessionStore) : SessionStore :=
  <[sid state := state]> store.

(** The mutable objects a [Session] holds. *)
Record session := {
  state : SessionState;
  _store : SessionStore
}.

(** [Session.load]: [None] stands for the [KeyError] of the store. *)
Definition load (session_id : string) (store : SessionStore) : option session :=
  match store !! session_id with
  | Some st => Some {| state := st; _store := store |}
  | None => None
  end.

Definition append_message (m : Message) (st : SessionState) : SessionState :=
  {| sid := sid st; messages := messages st ++ [m];
     cli_session_id := cli_session_id st |}.

Definition set_cli_session_id (c : str) (st : SessionState) : SessionState :=
  {| sid := sid st; messages := messages st; cli_session_id := Some c |}.

(** The accumulators of one call of [send].  [in_flight_tools] holds, for
    a call id, the position in [assistant_tool_calls] of the [ToolCall]
    object both containers share. *)
Record accum := {
  assistant_content : str;
  assistant_tool_calls : list ToolCall;
  in_flight_tools : gmap uuid nat;
  _had_tool_since_text : bool
}.

Definition empty_accum : accum :=
  {| assistant_content := []; assistant_tool_calls := [];
     in_flight_tools := ∅; _had_tool_since_text := false |}.

(** Python truthiness of a [dict]. *)
Definition dict_nonempty (j : json) : bool :=
  match j with JObj (_ :: _) => true | _ => false end.

Definition close_tool (output : str) (error : option str) (input : json)
    (tc : ToolCall) : ToolCall :=
  {| tc_id := tc_id tc; tc_tool := tc_tool tc;
     tc_input := if dict_nonempty input then input else tc_input tc;
     tc_output := Some output; tc_error := error; tc_completed := true |}.

(** The part of [send] before the generator is made: the user message
    is appended. *)
Definition send_begin (message : str) (s : session) : session :=
  {| state := append_message
                {| msg_role := User; msg_content := message;
                   msg_tool_calls := [] |} (state s);
     _store := _store s |}.

Definition assistant_message (a : accum) : Message :=
  {| msg_role := Assistant; msg_content := assistant_content a;
     msg_tool_calls := assistant_tool_calls a |}.

(** Append the assistant message and save the state. *)
Definition persist (a : accum) (s : session) : session :=
  let st := append_message (assistant_message a) (state s) in
  {| state := st; _store := save st (_store s) |}.

(** The body of the [async for] of [_gen] for one provider event: the
    session and accumulators after it and the event yielded, if any. *)
Definition send_step (s : session) (a : accum) (event : Event)
    : session * accum * option Event :=
  match event with
  | SessionIdEvent c =>
      ({| state := set_cli_session_id c (state s); _store := _store s |},
       a, None)
  | TextChunkEvent content =>
      let sep :=
        if _had_tool_since_text a && nonempty (assistant_content a)
        then [ascii_of_nat 10; ascii_of_nat 10] else [] in
      (s,
       {| assistant_content := assistant_content a ++ sep ++ content;
          assistant_tool_calls := assistant_tool_calls a;
          in_flight_tools := in_flight_tools a;
          _had_tool_since_text := false |},
       Some event)
  | ToolStartEvent tool_call_id tool input =>
      let tc := {| tc_id := tool_call_id; tc_tool := tool; tc_input := input;
                   tc_output := None; tc_error := None;
                   tc_completed := false |} in
      (s,
       {| assistant_content := assistant_content a;
          assistant_tool_calls := assistant_tool_calls a ++ [tc];
          in_flight_tools :=
            <[tool_call_id := length (assistant_tool_calls a)]>
              (in_flight_tools a);
          _had_tool_since_text := _had_tool_since_text a |},
       Some event)
  | ToolDoneEvent tool_call_id tool output error input =>
      (s,
       match in_flight_tools a !! tool_call_id with
       | Some i =>
           {| assistant_content := assistant_content a;
              assistant_tool_calls :=
                alter (close_tool output error input) i (assistant_tool_calls a);
              in_flight_tools := delete tool_call_id (in_flight_tools a);
              _had_tool_since_text := true |}
       | None =>
           {| assistant_content := assistant_content a;
              assistant_tool_calls := assistant_tool_calls a;
              in_flight_tools := in_flight_tools a;
              _had_tool_since_text := true |}
       end,
       Some event)
  | DoneEvent => (persist a s, a, Some event)
  | _ => (s, a, Some event)
  end.

(** The [except Exception] handler of [_gen]: the partial message is
    saved when the accumulated text is not empty, and an error event is
    yielded. *)
Definition send_except (s : session) (a : accum) (e : str)
    : session * Event :=
  (if nonempty (assistant_content a) then persist a s else s, ErrorEvent e).

(** What one call of [provider.run] produces: the events it yields
    and, possibly, the exception that ends it. *)
Record script := {
  yields : list Event;
  raises : option str
}.

(** [send] consumed to the end by a caller that takes every event. *)
Fixpoint send_all (s : session) (a : accum) (evs : list Event)
    (raised : option str) : session * accum * list Event :=
  match evs with
  | [] =>
      match raised with
      | Some e => let '(s', ev) := send_except s a e in (s', a, [ev])
      | None => (s, a, [])
      end
  | event :: rest =>
      let '(s1, a1, y) := send_step s a event in
      let '(s2, a2, out) := send_all s1 a1 rest raised in
      (s2, a2, match y with Some ev => ev :: out | None => out end)
  end.

Definition send (message : str) (sc : script) (s : session)
    : session * accum * list Event :=
  send_all (send_begin message s) empty_accum (yields sc) (raises sc).

End Session.

(* ===================================================================== *)
(** ** CLI provider: [providers/claude_cli.py]                            *)
(* ===================================================================== *)

Module ClaudeCli.

(** [d.get(key)] on a decoded object; [None] when the key is absent. *)
Fixpoint lookup_field (key : string) (fields : list (string * json))
    : option json :=
  match fields with
  | [] => None
  | (k, v) :: rest => if String.eqb k key then Some v else lookup_field key rest
  end.

(** [j.get(key, dflt)]: an [AttributeError] unless [j] is a [dict]. *)
Definition get (key : string) (dflt : json) (j : json) : outcome json :=
  match j with
  | JObj fields => Ok (default dflt (lookup_field key fields))
  | _ => Raise AttributeError
  end.

(** [j == text] for a string constant. *)
Definition is_str (text : string) (j : json) : bool :=
  match j with JStr s => str_eqb s (lit text) | _ => false end.

(** Python truthiness of a decoded value. *)
Definition truthy (j : json) : bool :=
  match j with
  | JNull => false
  | JBool b => b
  | JNum n => negb (n =? 0)%Z
  | JStr s => nonempty s
  | JArr l => match l with [] => false | _ => true end
  | JObj f => match f with [] => false | _ => true end
  end.

Definition is_dict (j : json) : bool :=
  match j with JObj _ => true | _ => false end.

(** A field declared [str] of an event model: anything else fails the
    validation. *)
Definition as_str (j : json) : outcome str :=
  match j with JStr s => Ok s | _ => Raise ValidationError end.

(** The values a [for] loop over [j] visits. *)
Definition iterate (j : json) : outcome (list json) :=
  match j with
  | JArr l => Ok l
  | JStr s => Ok ((fun c => JStr [c]) <$> s)
  | JObj f => Ok ((fun kv => JStr (lit kv.1)) <$> f)
  | _ => Raise TypeError
  end.

(** Equality of two hashable values used as [dict] keys ([True == 1]). *)
Definition key_eqb (a b : json) : bool :=
  match a, b with
  | JNull, JNull => true
  | JStr x, JStr y => str_eqb x y
  | JNum x, JNum y => (x =? y)%Z
  | JBool x, JBool y => Bool.eqb x y
  | JBool x, JNum y | JNum y, JBool x => (y =? (if x then 1 else 0))%Z
  | _, _ => false
  end.

(** Lists and dicts are not hashable. *)
Definition hashable (j : json) : bool :=
  match j with JArr _ | JObj _ => false | _ => true end.

(** An entry of [pending_tools]: [[render_id, tool_name, input_or_None]]. *)
Definition tool_entry : Type := uuid * json * option json.

Definition tools := list (json * tool_entry).

Fixpoint tools_get (k : json) (t : tools) : option tool_entry :=
  match t with
  | [] => None
  | (k', e) :: rest => if key_eqb k' k then Some e else tools_get k rest
  end.

Fixpoint tools_remove (k : json) (t : tools) : tools :=
  match t with
  | [] => []
  | (k', e) :: rest =>
      if key_eqb k' k then tools_remove k rest else (k', e) :: tools_remove k rest
  end.

Definition tools_set (k : json) (e : tool_entry) (t : tools) : tools :=
  (k, e) :: tools_remove k t.

(** The variables of [run] the generator closes over. *)
Record cli_state := {
  captured_session_id : option json;
  session_id_emitted : bool;
  current_text_id : option uuid;
  pending_tools : tools;
  fresh : uuid
}.

Definition init_state : cli_state :=
  {| captured_session_id := None; session_id_emitted := false;
     current_text_id := None; pending_tools := []; fresh := 0 |}.

(** A small error monad for the body of the loop. *)
Definition bind {A B} (x : outcome A) (f : A -> outcome B) : outcome B :=
  match x with Ok a => f a | Raise e => Raise e end.
Notation "'do' x <- e ; k" := (bind e (fun x => k))
  (at level 10, x pattern, e at level 100, k at level 200).

Section Translate.
(** [str(v)] of a value that is neither a string nor a list. *)
Variable py_str : json -> str.

Definition set_text_id (o : option uuid) (fr : uuid) (st : cli_state) :=
  {| captured_session_id := captured_session_id st;
     session_id_emitted := session_id_emitted st;
     current_text_id := o; pending_tools := pending_tools st;
     fresh := fr |}.

Definition set_tools (t : tools) (st : cli_state) :=
  {| captured_session_id := captured_session_id st;
     session_id_emitted := session_id_emitted st;
     current_text_id := current_text_id st; pending_tools := t;
     fresh := fresh st |}.

Definition set_captured (c : json) (emitted : bool) (st : cli_state) :=
  {| captured_session_id := Some c; session_id_emitted := emitted;
     current_text_id := current_text_id st;
     pending_tools := pending_tools st; fresh := fresh st |}.

(** The [stream_event] branch. *)
Definition on_stream_event (event : json) (st : cli_state)
    : outcome (list Event * cli_state) :=
  do raw <- get "event" (JObj []) event;
  do raw_type <- get "type" (JStr []) raw;
  if is_str "content_block_start" raw_type then
    do block <- get "content_block" (JObj []) raw;
    do block_type <- get "type" JNull block;
    if is_str "text" block_type then
      Ok ([], set_text_id (Some (fresh st)) (S (fresh st)) st)
    else if is_str "tool_use" block_type then
      do tool_use_id <- get "id" (JStr []) block;
      do tool_name <- get "name" (JStr (lit "unknown")) block;
      let render_id := fresh st in
      if hashable tool_use_id then
        let st1 :=
          set_text_id None (S render_id)
            (set_tools (tools_set tool_use_id (render_id, tool_name, None)
                          (pending_tools st)) st) in
        do name <- as_str tool_name;
        Ok ([ToolStartEvent render_id name empty_dict], st1)
      else Raise TypeError
    else Ok ([], st)
  else if is_str "content_block_delta" raw_type then
    do delta <- get "delta" (JObj []) raw;
    do dtype <- get "type" JNull delta;
    if is_str "text_delta" dtype && bool_decide (is_Some (current_text_id st))
    then
      do text <- get "text" (JStr []) delta;
      do content <- as_str text;
      Ok ([TextChunkEvent content], st)
    else Ok ([], st)
  else if is_str "message_stop" raw_type then
    Ok ([], set_text_id None (fresh st) st)
  else Ok ([], st).

(** The [assistant] branch: the complete input of a pending tool call
    is recorded; nothing is yielded. *)
Fixpoint record_inputs (blocks : list json) (t : tools) : outcome tools :=
  match blocks with
  | [] => Ok t
  | block :: rest =>
      if is_dict block then
        do btype <- get "type" JNull block;
        if is_str "tool_use" btype then
          do tool_use_id <- get "id" (JStr []) block;
          do tool_input <- get "input" (JObj []) block;
          if hashable tool_use_id then
            match tools_get tool_use_id t with
            | Some (render_id, tool_name, _) =>
                record_inputs rest
                  (tools_set tool_use_id (render_id, tool_name, Some tool_input) t)
            | None => record_inputs rest t
            end
          else Raise TypeError
        else record_inputs rest t
      else record_inputs rest t
  end.

(** The text of a [tool_result] whose content is a list. *)
Fixpoint join_texts (content : list json) : outcome str :=
  match content with
  | [] => Ok []
  | c :: rest =>
      if is_dict c then
        do t <- get "text" (JStr []) c;
        match t with
        | JStr s => do r <- join_texts rest; Ok (s ++ r)
        | _ => Raise TypeError
        end
      else join_texts rest
  end.

Definition result_text_of (content : json) : outcome str :=
  match content with
  | JArr l => join_texts l
  | JStr s => Ok s
  | other => Ok (py_str other)
  end.

(** One block of a [user] line: a [tool_result] block closes the
    pending call of its id.  The event built there names the call, the
    tool, the output and the error; its [input] keeps the default of
    [ToolDoneEvent], the empty dict. *)
Definition close_tool_block (block : json) (t : tools)
    : outcome (list Event * tools) :=
  if is_dict block then
    do btype <- get "type" JNull block;
    if is_str "tool_result" btype then
      do tool_use_id <- get "tool_use_id" (JStr []) block;
      do is_error <- get "is_error" (JBool false) block;
      do content <- get "content" (JStr []) block;
      do result_text <- result_text_of content;
      if hashable tool_use_id then
        match tools_get tool_use_id t with
        | Some (render_id, tool_name, tool_input) =>
            do name <- as_str tool_name;
            Ok ([ToolDoneEvent render_id name result_text
                   (if truthy is_error then Some result_text else None)
                   empty_dict],
                tools_remove tool_use_id t)
        | None => Ok ([], t)
        end
      else Raise TypeError
    else Ok ([], t)
  else Ok ([], t).

(** The [user] branch: the events yielded, and the tools left or the
    exception that stopped the loop. *)
Fixpoint close_tools (blocks : list json) (t : tools)
    : list Event * outcome tools :=
  match blocks with
  | [] => ([], Ok t)
  | block :: rest =>
      match close_tool_block block t with
      | Raise e => ([], Raise e)
      | Ok (evs, t') =>
          let '(evs', r) := close_tools rest t' in (evs ++ evs', r)
      end
  end.

(** What one decoded line makes the generator do: the events yielded
    and the state after, or the events yielded before an exception. *)
Inductive line_result :=
| Continue (evs : list Event) (st : cli_state)
| Failed (evs : list Event) (e : exn).

Definition lift (r : outcome (list Event * cli_state)) : line_result :=
  match r with
  | Ok (evs, st) => Continue evs st
  | Raise e => Failed [] e
  end.

Definition on_line (event : json) (st : cli_state) : line_result :=
  match get "type" JNull event with
  | Raise e => Failed [] e
  | Ok event_type =>
      if is_str "system" event_type then
        match get "subtype" JNull event with
        | Raise e => Failed [] e
        | Ok subtype =>
            if is_str "init" subtype then
              lift (do sid <- get "session_id" JNull event;
                    if truthy sid
                       && negb (bool_decide (is_Some (captured_session_id st)))
                    then
                      do c <- as_str sid;
                      Ok ([SessionIdEvent c], set_captured sid true st)
                    else Ok ([], st))
            else Continue [] st
        end
      else if is_str "stream_event" event_type then
        lift (on_stream_event event st)
      else if is_str "assistant" event_type then
        lift (do msg <- get "message" (JObj []) event;
              do content <- get "content" (JArr []) msg;
              do blocks <- iterate content;
              do t <- record_inputs blocks (pending_tools st);
              Ok ([], set_tools t st))
      else if is_str "user" event_type then
        match (do msg <- get "message" (JObj []) event;
               do content <- get "content" (JArr []) msg;
               iterate content) with
        | Raise e => Failed [] e
        | Ok blocks =>
            match close_tools blocks (pending_tools st) with
            | (evs, Ok t) => Continue evs (set_tools t st)
            | (evs, Raise e) => Failed evs e
            end
        end
      else if is_str "result" event_type then
        let st0 := set_text_id None (fresh st) st in
        lift (do sid <- get "session_id" JNull event;
              if truthy sid && negb (session_id_emitted st0) then
                do c <- as_str sid;
                Ok ([SessionIdEvent c; DoneEvent],
                    set_captured sid (session_id_emitted st0) st0)
              else if truthy sid then
                Ok ([DoneEvent], set_captured sid (session_id_emitted st0) st0)
              else Ok ([DoneEvent], st0))
      else Continue [] st
  end.

(** The text of the error event for an exception; the wording of the
    Python message is not modelled beyond the class of the exception. *)
Definition exn_message (e : exn) : str :=
  match e with
  | QueueFull => lit "QueueFull"
  | AttributeError => lit "AttributeError"
  | TypeError => lit "TypeError"
  | ValidationError => lit "ValidationError"
  | OtherError m => m
  end.

(** The generator over the lines of the process: [None] is a blank
    line or one that is not JSON, which is skipped. *)
Fixpoint translate (lines : list (option json)) (st : cli_state)
    : list Event :=
  match lines with
  | [] => []
  | None :: rest => translate rest st
  | Some event :: rest =>
      match on_line event st with
      | Continue evs st' => evs ++ translate rest st'
      | Failed evs e => evs ++ [ErrorEvent (exn_message e)]
      end
  end.

Definition run (lines : list (option json)) : list Event :=
  translate lines init_state.
End Translate.

End ClaudeCli.

(* ===================================================================== *)
(** ** Turn loop and transport loop: [api/websocket/handlers.py]          *)
(* ===================================================================== *)

Module Handlers.
Import Parser Session.

(** What goes out on the socket. *)
Inductive ws_msg :=
| WsEvent (e : Event)            (* [event.model_dump()] *)
| WsDone                         (* the [done] message *)
| WsError (message : str)        (* an [error] message *)
| WsSystem (text : str).         (* pong and keepalive *)

(** [parse_interactions(await session.send(message), pending)] as the
    loop of [_stream_message] consumes it: each provider event goes
    through the body of [send] and, when [send] yields, through the
    parser; once the parser has returned, [send] is not resumed. *)
Fixpoint drive (s : session) (a : accum) (p : pstate) (evs : list Event)
    (raised : option str) : session * pstate * list Event :=
  match evs with
  | [] =>
      match raised with
      | Some e =>
          let '(s', ev) := send_except s a e in
          let '(out, p', _) := parser_step p ev in
          (s', p', out)
      | None => (s, p, [])
      end
  | event :: rest =>
      let '(s1, a1, y) := send_step s a event in
      match y with
      | None => drive s1 a1 p rest raised
      | Some ev =>
          let '(out, p1, returned) := parser_step p ev in
          if returned then (s1, p1, out)
          else
            let '(s2, p2, out') := drive s1 a1 p1 rest raised in
            (s2, p2, out ++ out')
      end
  end.

(** The events the loop forwards: all but [SessionIdEvent] and
    [DoneEvent]. *)
Definition forwarded (e : Event) : bool :=
  match e with SessionIdEvent _ | DoneEvent => false | _ => true end.

Definition forward (out : list Event) : list ws_msg :=
  WsEvent <$> filter (fun e => forwarded e = true) out.

(** [await asyncio.wait_for(q.get(), timeout=300)]: the value already
    in the queue, else the value [arriving] during the wait, else the
    placeholder of the timeout. *)
Definition await_answer (q : qref) (arriving : option str) (w : world)
    : str * world :=
  match heap w !! q ≫= get with
  | Some (v, q') =>
      (v, {| heap := <[q := q']> (heap w); pending_async := pending_async w;
             next_ref := next_ref w; next_uuid := next_uuid w |})
  | None =>
      (default (lit "(no response)") arriving, w)
  end.

(** Result of the turn loop: the session, the registry, what was sent
    and the number of calls of [session.send]. *)
Record turn_result := {
  tr_session : session;
  tr_world : world;
  tr_sent : list ws_msg;
  tr_calls : nat
}.

(** The [while True] loop of [_stream_message] when no stop is
    requested: one provider script per turn of the loop, [None] when
    the scripts run out before the loop ends. *)
Fixpoint turn_loop (scripts : list script) (answers : list (option str))
    (s : session) (w : world) (message : str) (sent : list ws_msg)
    (calls : nat) : option turn_result :=
  match scripts with
  | [] => None
  | sc :: scripts' =>
      let '(s', p, out) :=
        drive (send_begin message s) empty_accum
              {| buf := []; pending := []; wld := w |}
              (yields sc) (raises sc) in
      let sent' := sent ++ forward out in
      match pending p with
      | [] =>
          Some {| tr_session := s'; tr_world := wld p;
                  tr_sent := sent' ++ [WsDone]; tr_calls := S calls |}
      | (req_id, q) :: _ =>
          let '(message', w') := await_answer q (mjoin (head answers)) (wld p) in
          turn_loop scripts' (tail answers) s' (pop_pending req_id w')
            message' sent' (S calls)
      end
  end.

(** How [_stream_message] ends. *)
Inductive stream_outcome :=
| NotFound (sent : list ws_msg)      (* no such session: an error message *)
| Finished (r : turn_result)
| Unfinished.                        (* the scripts ran out *)

(** [_stream_message]. *)
Definition _stream_message (session_id : string) (content : str)
    (store : SessionStore) (scripts : list script)
    (answers : list (option str)) (w : world) : stream_outcome :=
  match Session.load session_id store with
  | None =>
      NotFound [WsError (lit "Session not found: "
                         ++ list_ascii_of_string session_id)]
  | Some s =>
      match turn_loop scripts answers s w content [] 0 with
      | Some r => Finished r
      | None => Unfinished
      end
  end.

(** *** The transport loop *)

(** The variables of [websocket_endpoint] and what it did so far. *)
Record conn := {
  current_stream_task : option nat;
  stop_event : bool;
  next_task : nat;
  created : list (nat * str);      (* tasks made, with their content *)
  cancelled : list nat;            (* tasks on which [cancel] was called *)
  outbox : list ws_msg;
  registry : world
}.

(** The messages a client sends, as the module lists them; [content],
    [request_id] and [value] are the empty string when the key is
    missing. *)
Inductive client_msg :=
| ping
| stop
| user_message (content : str)
| interaction_response (request_id : uuid) (value : str)
| unknown_type.

(** What [receive_json] gives within the time limit, or the timeout. *)
Inductive incoming :=
| Received (msg : client_msg)
| TimedOut.

Definition send_json (m : ws_msg) (c : conn) : conn :=
  {| current_stream_task := current_stream_task c; stop_event := stop_event c;
     next_task := next_task c; created := created c; cancelled := cancelled c;
     outbox := outbox c ++ [m]; registry := registry c |}.

(** [if current_stream_task and not current_stream_task.done():
    current_stream_task.cancel()]; [running] tells whether the task is
    not done. *)
Definition cancel_in_flight (running : bool) (c : conn) : list nat :=
  match current_stream_task c with
  | Some t => if running then cancelled c ++ [t] else cancelled c
  | None => cancelled c
  end.

(** One turn of the [while True] loop of [websocket_endpoint]. [Raise]
    leaves the loop. *)
Definition ws_step (c : conn) (running : bool) (i : incoming) : outcome conn :=
  match i with
  | TimedOut => Ok (send_json (WsSystem (lit "keepalive")) c)
  | Received ping => Ok (send_json (WsSystem (lit "pong")) c)
  | Received stop =>
      match current_stream_task c with
      | Some t =>
          if running then
            Ok {| current_stream_task := current_stream_task c;
                  stop_event := true; next_task := next_task c;
                  created := created c;
                  cancelled := cancelled c ++ [t];
                  outbox := outbox c; registry := registry c |}
          else Ok c
      | None => Ok c
      end
  | Received (user_message raw) =>
      let content := strip raw in
      if nonempty content then
        Ok {| current_stream_task := Some (next_task c);
              stop_event := false; next_task := S (next_task c);
              created := created c ++ [(next_task c, content)];
              cancelled := cancel_in_flight running c;
              outbox := outbox c; registry := registry c |}
      else Ok c
  | Received (interaction_response request_id value) =>
      match resolve_interaction request_id value (registry c) with
      | Raise e => Raise e
      | Ok w =>
          Ok {| current_stream_task := current_stream_task c;
                stop_event := stop_event c; next_task := next_task c;
                created := created c; cancelled := cancelled c;
                outbox := outbox c; registry := w |}
      end
  | Received unknown_type => Ok c
  end.

End Handlers.

(* ===================================================================== *)
(** ** Observations used to state the properties                          *)
(* ===================================================================== *)

Module Obs.
Import Parser.

(** An interaction tag of either kind opens at the head of the text. *)
Definition tag_at (t : str) : bool := bare_ask_at t || form_ask_at t.

(** The text is one of [_POSSIBLE_PREFIXES]. *)
Definition partial_at (t : str) : bool :=
  existsb (str_eqb t) POSSIBLE_PREFIXES.

(** A tag opens here, or may do so once more text has arrived. *)
Definition open_at (t : str) : bool := tag_at t || partial_at t.

(** Adjacent text chunks merged into one. *)
Fixpoint merge_text (evs : list Event) : list Event :=
  match evs with
  | [] => []
  | e :: rest =>
      match e, merge_text rest with
      | TextChunkEvent a, TextChunkEvent b :: rest' =>
          TextChunkEvent (a ++ b) :: rest'
      | _, merged => e :: merged
      end
  end.

(** The text of the chunks of a sequence of events. *)
Fixpoint text_of (evs : list Event) : str :=
  match evs with
  | [] => []
  | TextChunkEvent c :: rest => c ++ text_of rest
  | _ :: rest => text_of rest
  end.

(** A text chunk with content. *)
Definition text_ok (e : Event) : Prop :=
  match e with TextChunkEvent c => c <> [] | _ => True end.

(** The predicate that finds the opening of a tag of kind [k]. *)
Definition kind_at (k : tag_kind) : str -> bool :=
  match k with KAsk => bare_ask_at | KForm => form_ask_at end.

(** Text put in front of a sequence of events: joined to a leading text
    chunk, a chunk of its own otherwise; nothing when empty. *)
Definition prepend_text (x : str) (evs : list Event) : list Event :=
  match x with
  | [] => evs
  | _ :: _ =>
      match evs with
      | TextChunkEvent t :: rest => TextChunkEvent (x ++ t) :: rest
      | _ => TextChunkEvent x :: evs
      end
  end.

(** No tag and no partial prefix opens inside [x] when [y] follows. *)
Definition closed (x y : str) : Prop :=
  forall j, j < length x -> open_at (drop j (x ++ y)) = false.

(** The result of [_process_buffer]. *)
Definition loop_result : Type := list Event * str * pending_list * world.

Definition with_events (acc : list Event) (r : loop_result) : loop_result :=
  let '(e, b, p, w) := r in (acc ++ e, b, p, w).

(** What an extractor returns when plain text [x] is put in front of
    the buffer. *)
Definition shift_before (x : str) (r : extraction) : extraction :=
  let '(before, ev, q, after, w') := r in (x ++ before, ev, q, after, w').

(** A second chunk [u] processed after a first result. *)
Definition then_chunk (r : loop_result) (u : str) : loop_result :=
  let '(e1, b1, p1, w1) := r in
  with_events e1 (_process_buffer (b1 ++ u) p1 w1).

(** Two results that differ at most in how the text is cut in chunks. *)
Definition same_events (r r' : loop_result) : Prop :=
  let '(e, b, p, w) := r in
  let '(e', b', p', w') := r' in
  merge_text e = merge_text e' /\ b = b' /\ p = p' /\ w = w'.

Definition not_done (e : Event) : Prop := is_done e = false.
Definition not_interaction (e : Event) : Prop := is_interaction e = false.

(** The assistant messages of a conversation. *)
Definition is_assistant (m : Session.Message) : bool :=
  match Session.msg_role m with
  | Session.Assistant => true
  | Session.User => false
  end.

Definition count_assistant (ms : list Session.Message) : nat :=
  length (filter (fun m => is_assistant m = true) ms).

(** A [ToolDoneEvent] whose input is the empty dict. *)
Definition input_empty (e : Event) : Prop :=
  match e with ToolDoneEvent _ _ _ _ i => i = empty_dict | _ => True end.

(** A provider stream that reaches its [DoneEvent]. *)
Definition reaches_done (sc : Session.script) : Prop :=
  Exists (fun e => is_done e = true) (Session.yields sc).

End Obs.

(* ===================================================================== *)
(** ** Inputs used in examples                                            *)
(* ===================================================================== *)

Module Samples.
Import Session ClaudeCli.

Definition jstr (s : string) : json := JStr (lit s).

(** A conversation just created and saved, loaded from its store. *)
Definition fresh_state : SessionState :=
  {| sid := "s1"; messages := []; cli_session_id := None |}.

Definition fresh_session : session :=
  {| state := fresh_state; _store := {[ "s1" := fresh_state ]} |}.

(** A turn in which the model asks one question and, once answered,
    replies: two provider calls, each ending with [DoneEvent]. *)
Definition ask_then_reply : list script :=
  [ {| yields := [TextChunkEvent (lit "Sure. <ask>Which?</ask>"); DoneEvent];
       raises := None |};
    {| yields := [TextChunkEvent (lit "ok"); DoneEvent]; raises := None |} ].



(** The lines of the CLI for one tool call: the partial block that
    opens the call [t1], the complete assistant message with its input,
    and the user line with the result. *)
Definition tool_start_line : json :=
  JObj [("type", jstr "stream_event");
        ("event", JObj [("type", jstr "content_block_start");
                        ("content_block",
                         JObj [("type", jstr "tool_use"); ("id", jstr "t1");
                               ("name", jstr "Bash")])])].

Definition tool_input : json := JObj [("command", jstr "ls")].

Definition assistant_line : json :=
  JObj [("type", jstr "assistant");
        ("message",
         JObj [("content",
                JArr [JObj [("type", jstr "tool_use"); ("id", jstr "t1");
                            ("input", tool_input)]])])].

Definition tool_result_line : json :=
  JObj [("type", jstr "user");
        ("message",
         JObj [("content",
                JArr [JObj [("type", jstr "tool_result");
                            ("tool_use_id", jstr "t1");
                            ("content", jstr "file.txt")]])])].

Definition tool_call_lines : list (option json) :=
  [Some tool_start_line; Some assistant_line; Some tool_result_line].

(** The state of the translator after the first two of these lines. *)
Definition state_after (py_str : json -> str) (lines : list json) : option cli_state :=
  foldl (fun st line =>
           match st with
           | Some st' =>
               match on_line py_str line st' with
               | Continue _ st'' => Some st''
               | Failed _ _ => None
               end
           | None => None
           end) (Some init_state) lines.

(** The turn loop run on [ask_then_reply], the user answering [B]. *)
Definition ask_then_reply_run : option Handlers.turn_result :=
  Handlers.turn_loop ask_then_reply [Some (lit "B")] fresh_session
    empty_world (lit "hi") [] 0.

(** What that run returns. *)
Definition ask_then_reply_result : Handlers.turn_result :=
  Eval vm_compute in
    default
      {| Handlers.tr_session := fresh_session;
         Handlers.tr_world := empty_world;
         Handlers.tr_sent := []; Handlers.tr_calls := 0 |}
      ask_then_reply_run.

End Samples.


(* ===================================================================== *)
(** ** Further observations                                               *)
(* ===================================================================== *)

Module Views.
Import Parser Obs.

(** Text without the character that opens a tag. *)
Definition plain (s : str) : Prop := Forall (fun c => c <> "<"%char) s.

Definition text_plain (e : Event) : Prop :=
  match e with TextChunkEvent c => plain c | _ => True end.

(** Every event but an empty text chunk. *)
Definition has_content (e : Event) : bool :=
  match e with TextChunkEvent [] => false | _ => true end.

(** The events the parser neither makes nor consumes: all but text
    chunks and interactions. *)
Definition passes (e : Event) : bool :=
  negb (is_text e) && negb (is_interaction e).

(** The request ids of the interaction events of a sequence. *)
Definition interaction_ids (evs : list Event) : list uuid :=
  request_id_of <$> filter (fun e => is_interaction e = true) evs.

(** The text that opens, and the text that closes, a tag of a kind. *)
Definition open_lit (k : tag_kind) : str :=
  match k with KAsk => lit "<ask" | KForm => lit "<ask-form" end.

Definition close_lit (k : tag_kind) : str :=
  match k with KAsk => lit "</ask>" | KForm => lit "</ask-form>" end.

(** Every entry of a pending list is registered: its id maps to its
    queue, and the queue exists and is empty. *)
Definition registered (w : world) (l : pending_list) : Prop :=
  forall r q, (r, q) ∈ l ->
    r < next_uuid w /\ q < next_ref w
    /\ pending_async w !! r = Some q /\ heap w !! q = Some (new_queue 1).

(** A text that neither starts nor ends with white space. *)
Definition trimmed (s : str) : Prop :=
  forall c, head s = Some c \/ last s = Some c -> is_space c = false.

(** [sep.join(l)]: what a caller writes into an [options] attribute. *)
Fixpoint join (sep : ascii) (l : list str) : str :=
  match l with
  | [] => []
  | [x] => x
  | x :: rest => x ++ sep :: join sep rest
  end.

(** An option as [_options] returns them: not empty, no separator in
    it, no white space around it. *)
Definition clean_option (o : str) : Prop :=
  o <> [] /\ ~ In "|"%char o /\ trimmed o.

End Views.

(* ===================================================================== *)
(** ** The connection pool ([api/websocket/manager.py])                   *)
(* ===================================================================== *)

Module Manager.

(** A socket object, by identity. *)
Definition ws := nat.

(** [_connections]: session id to the list of its sockets. *)
Abbreviation connections := (gmap string (list ws)).

(** [self._connections.setdefault(session_id, []).append(ws)]. *)
Definition connect (session_id : string) (w : ws) (m : connections)
    : connections :=
  <[session_id := default [] (m !! session_id) ++ [w]]> m.

(** [list.remove(x)]: the first occurrence goes. *)
Fixpoint remove_first (w : ws) (l : list ws) : list ws :=
  match l with
  | [] => []
  | x :: t => if decide (x = w) then t else x :: remove_first w t
  end.

(** [disconnect]: the list of the session is changed in place; without
    an entry [get] gives a fresh empty list and [pop] finds nothing. *)
Definition disconnect (session_id : string) (w : ws) (m : connections)
    : connections :=
  match m !! session_id with
  | None => m
  | Some conns =>
      let conns' :=
        if bool_decide (w ∈ conns) then remove_first w conns else conns in
      match conns' with
      | [] => delete session_id m
      | _ => <[session_id := conns']> m
      end
  end.

(** The loop of [send] over a copy of the list: a socket whose
    [send_json] raises is disconnected, the others get the data. *)
Fixpoint send_loop (session_id : string) (fails : ws -> bool)
    (snapshot : list ws) (m : connections) : connections * list ws :=
  match snapshot with
  | [] => (m, [])
  | w :: rest =>
      if fails w then send_loop session_id fails rest (disconnect session_id w m)
      else
        let '(m', delivered) := send_loop session_id fails rest m in
        (m', w :: delivered)
  end.

(** [send]: the pool after it and the sockets that got the data. *)
Definition send (session_id : string) (fails : ws -> bool) (m : connections)
    : connections * list ws :=
  send_loop session_id fails (default [] (m !! session_id)) m.

(** [broadcast] over the session ids [keys], in that order. *)
Fixpoint broadcast_loop (fails : ws -> bool) (keys : list string)
    (m : connections) : connections :=
  match keys with
  | [] => m
  | k :: rest => broadcast_loop fails rest (send k fails m).1
  end.

(** [broadcast]: the sessions are visited in the order the map lists
    them. *)
Definition broadcast (fails : ws -> bool) (m : connections) : connections :=
  broadcast_loop fails (map_to_list m).*1 m.

(** No session is listed with an empty list of sockets. *)
Definition tidy (m : connections) : Prop :=
  forall session_id l, m !! session_id = Some l -> l <> [].

(** What is left of a list of sockets once the failing ones are gone. *)
Definition alive (fails : ws -> bool) (l : list ws) : list ws :=
  filter (fun w => fails w = false) l.

(** The entry of a session with the sockets [l]: none when [l] is
    empty. *)
Definition entry (l : list ws) : option (list ws) :=
  match l with [] => None | _ => Some l end.

End Manager.

(* ===================================================================== *)
(** ** The message loop of the endpoint ([websocket_endpoint])            *)
(* ===================================================================== *)

Module Endpoint.
Import Handlers.

(** The [while True] loop over what the socket receives, each input
    with whether the current stream task is still running when it
    comes.  An exception leaves the loop; the connection is then as the
    last completed turn left it.  A failing keepalive [send_json] is not
    modelled: [send_json] always succeeds here. *)
Fixpoint ws_loop (c : conn) (inputs : list (bool * incoming))
    : conn * option exn :=
  match inputs with
  | [] => (c, None)
  | (running, i) :: rest =>
      match ws_step c running i with
      | Ok c' => ws_loop c' rest
      | Raise e => (c, Some e)
      end
  end.

(** The [finally] of the endpoint: a running stream task is cancelled. *)
Definition ws_finally (running : bool) (c : conn) : list nat :=
  cancel_in_flight running c.

(** What the loop answers to an input by itself. *)
Definition reply (i : incoming) : option ws_msg :=
  match i with
  | TimedOut => Some (WsSystem (lit "keepalive"))
  | Received ping => Some (WsSystem (lit "pong"))
  | _ => None
  end.

(** The content of the stream an input starts. *)
Definition started (i : incoming) : option str :=
  match i with
  | Received (user_message raw) =>
      if nonempty (strip raw) then Some (strip raw) else None
  | _ => None
  end.

End Endpoint.

(* ===================================================================== *)
(** ** The scripted provider ([core/provider.py])                         *)
(* ===================================================================== *)

Module Provider.
Import Session.

(** [MockProvider.run]: one text chunk per response, then the done
    event; nothing is raised. *)
Definition mock_run (responses : list str) : script :=
  {| yields := (TextChunkEvent <$> responses) ++ [DoneEvent];
     raises := None |}.

End Provider.

(* ===================================================================== *)
(** ** What is observed of a call of [send]                               *)
(* ===================================================================== *)

Module SendViews.
Import Session.

(** The events [send] keeps to itself. *)
Definition internal (e : Event) : bool :=
  match e with SessionIdEvent _ => true | _ => false end.

(** The session id the provider announced last, [init] if none. *)
Definition last_announced (evs : list Event) (init : option str)
    : option str :=
  foldl (fun acc e => match e with SessionIdEvent c => Some c | _ => acc end)
        init evs.

(** The tool calls a stream starts: call id and tool, in order. *)
Definition started_calls (evs : list Event) : list (uuid * str) :=
  omap (fun e => match e with
                 | ToolStartEvent i t _ => Some (i, t)
                 | _ => None
                 end) evs.

(** The tool calls a stream closes: call id, in order. *)
Definition closed_calls (evs : list Event) : list uuid :=
  omap (fun e => match e with
                 | ToolDoneEvent i _ _ _ _ => Some i
                 | _ => None
                 end) evs.

Definition user_message (message : str) : Message :=
  {| msg_role := User; msg_content := message; msg_tool_calls := [] |}.

(** The error event that ends a stream whose provider raised. *)
Definition error_tail (raised : option str) : list Event :=
  match raised with Some e => [ErrorEvent e] | None => [] end.

(** The message the handler of the exception saves, if any. *)
Definition saved_on_error (raised : option str) (a : accum) : nat :=
  match raised with
  | Some _ => if nonempty (assistant_content a) then 1 else 0
  | None => 0
  end.

(** Every [ToolDoneEvent] of a stream comes after a [ToolStartEvent]
    with its call id and its tool. *)
Definition paired (evs : list Event) : Prop :=
  forall pre i t o e inp post,
    evs = pre ++ ToolDoneEvent i t o e inp :: post ->
    (i, t) ∈ started_calls pre.

Definition is_error (e : Event) : bool :=
  match e with ErrorEvent _ => true | _ => false end.

(** What identifies a recorded tool call: its id and its tool. *)
Definition call_key (tc : ToolCall) : uuid * str := (tc_id tc, tc_tool tc).

(** The invariant of the accumulators of [send] over a stream whose
    tool calls are well formed: [evs] is what the provider yielded so
    far. *)
Record accum_inv (a : accum) (evs : list Event) : Prop := {
  acc_calls : call_key <$> assistant_tool_calls a = started_calls evs;
  acc_flight :
    forall id i, in_flight_tools a !! id = Some i <->
      exists tc, assistant_tool_calls a !! i = Some tc
                 /\ tc_id tc = id /\ tc_completed tc = false;
  acc_done :
    forall tc, tc ∈ assistant_tool_calls a ->
      tc_completed tc = bool_decide (tc_id tc ∈ closed_calls evs)
}.

End SendViews.

(* ===================================================================== *)
(** ** What the translator of the CLI keeps true                          *)
(* ===================================================================== *)

Module CliViews.
Import ClaudeCli SendViews.

(** The render ids of the pending tool calls. *)
Definition rids (t : tools) : list uuid := (fun x => x.2.1.1) <$> t.

(** The invariant of the loop of [_gen], between two lines: [t] is
    [pending_tools], [fr] the next fresh id, [pre] the events yielded so
    far. *)
Record cli_inv (t : tools) (fr : uuid) (pre : list Event) : Prop := {
  inv_rids : NoDup (rids t);
  inv_pending :
    forall k rid name inp, (k, (rid, name, inp)) ∈ t ->
      exists nm, name = JStr nm /\ (rid, nm) ∈ started_calls pre
                 /\ rid ∉ closed_calls pre;
  inv_fresh : forall rid, rid ∈ (started_calls pre).*1 -> rid < fr;
  inv_starts : NoDup (started_calls pre).*1;
  inv_closed : NoDup (closed_calls pre);
  inv_paired : paired pre;
  inv_quiet : Forall (fun e => is_error e = false) pre
}.

End CliViews.

(* ===================================================================== *)
(** ** The title of a conversation ([_auto_title] of [core/session.py])   *)
(* ===================================================================== *)

Module Title.

Definition newline : ascii := Eval cbv in ascii_of_nat 10.

(** [text.strip().split(newline)[0]]. *)
Definition first_line (text : str) : str :=
  default [] (head (split newline (strip text))).

Section AutoTitle.
(** The character the code appends to a title it cuts, U+2026, lies
    outside the alphabet of [str]; it is left open. *)
Variable ellipsis : ascii.

(** [_auto_title(text, max_len)], for [max_len] not negative.  The
    slice [title[:max_len - 1]] drops the last character when [max_len]
    is 0. *)
Definition _auto_title (text : str) (max_len : nat) : str :=
  let title := first_line text in
  let title :=
    if max_len <? length title
    then (if max_len =? 0 then take (length title - 1) title
          else take (max_len - 1) title) ++ [ellipsis]
    else title in
  if nonempty title then title else lit "New conversation".
End AutoTitle.

End Title.

(* ===================================================================== *)
(** ** What a logical turn leaves in the history                          *)
(* ===================================================================== *)

Module TurnViews.
Import Session Handlers SendViews.

(** A session that stands for any: the accumulators of [send] do not
    read the session. *)
Definition blank_session : session :=
  {| state := {| sid := String.EmptyString; messages := [];
                 cli_session_id := None |};
     _store := ∅ |}.

(** The accumulators of [send] after one more provider event. *)
Definition accumulate (a : accum) (e : Event) : accum :=
  (send_step blank_session a e).1.2.

(** The accumulators when the first [DoneEvent] of the stream comes. *)
Fixpoint accum_until_done (a : accum) (evs : list Event) : accum :=
  match evs with
  | [] => a
  | e :: rest =>
      if is_done e then a else accum_until_done (accumulate a e) rest
  end.

(** The assistant message of one provider call: the content and tool
    calls accumulated in that call, up to its [DoneEvent]. *)
Definition call_message (sc : script) : Message :=
  assistant_message (accum_until_done empty_accum (yields sc)).

(** The messages [session.send] is called with in a turn of [k]
    pauses: the message of the user, then the [k] answers, an answer
    that does not come in time being the placeholder. *)
Definition turn_inputs (message : str) (answers : list (option str))
    (k : nat) : list str :=
  message
  :: ((fun i => default (lit "(no response)") (mjoin (answers !! i)))
        <$> seq 0 k).

(** The history of a turn: for each call, the user message it was
    called with and the assistant message of the call. *)
Definition turn_history (inputs : list str) (scripts : list script)
    : list Message :=
  concat (zip_with (fun m sc => [user_message m; call_message sc])
                   inputs scripts).

End TurnViews.

(* ===================================================================== *)
(** ** Facts about the text operations                                    *)
(* ===================================================================== *)

Module TextFacts.

Lemma chr_eqb_eq a b : chr_eqb a b = true <-> a = b.
Proof. apply Ascii.eqb_eq. Qed.

Lemma str_eqb_eq a b : str_eqb a b = true <-> a = b.
Proof.
  revert b; induction a as [|x a IH]; intros [|y b]; simpl; try easy.
  rewrite andb_true_iff, chr_eqb_eq, IH.
  split; [intros [-> ->]|intros [= -> ->]]; done.
Qed.

Lemma strip_prefix_Some p s r : strip_prefix p s = Some r <-> s = p ++ r.
Proof.
  revert s; induction p as [|x p IH]; intros s; simpl.
  - split; [intros [= ->]|intros ->]; done.
  - destruct s as [|y s]; [easy|].
    destruct (chr_eqb x y) eqn:E.
    + apply chr_eqb_eq in E as ->. rewrite IH.
      split; [intros ->|intros [= ->]]; done.
    + split; [done|]. intros [= -> _].
      assert (chr_eqb x x = true) by (by apply chr_eqb_eq). congruence.
Qed.

Lemma startswith_true p s : startswith p s = true <-> exists r, s = p ++ r.
Proof.
  unfold startswith. destruct (strip_prefix p s) as [r|] eqn:E.
  - apply strip_prefix_Some in E. split; [eauto|done].
  - split; [done|]. intros [r Hr]. apply strip_prefix_Some in Hr. congruence.
Qed.

(** A prefix test only reads as many characters as the prefix has. *)
Lemma startswith_app p t u :
  length p <= length t -> startswith p (t ++ u) = startswith p t.
Proof.
  unfold startswith. revert t; induction p as [|x p IH]; intros t Hl; [done|].
  destruct t as [|y t]; simpl in *; [lia|].
  destruct (chr_eqb x y); [apply IH; lia|done].
Qed.

Lemma startswith_length p s : startswith p s = true -> length p <= length s.
Proof. intros [r ->]%startswith_true. rewrite length_app. lia. Qed.

(** *** [search] *)

Lemma search_Some P s i :
  search P s = Some i <->
  i <= length s /\ P (drop i s) = true /\ forall j, j < i -> P (drop j s) = false.
Proof.
  revert i; induction s as [|c s IH]; intros i; simpl.
  - destruct (P []) eqn:E.
    + split.
      * intros [= <-]. split; [done|]. split; [done|]. intros j Hj. lia.
      * intros (Hi & _ & _). f_equal. simpl in Hi. lia.
    + split; [done|]. intros (Hi & HP & _).
      rewrite drop_nil in HP. congruence.
  - destruct (P (c :: s)) eqn:E.
    + split.
      * intros [= <-]. split; [lia|]. split; [done|]. intros j Hj. lia.
      * intros (_ & _ & Hmin). destruct i as [|i]; [done|].
        specialize (Hmin 0 ltac:(lia)). simpl in Hmin. congruence.
    + destruct (search P s) as [k|] eqn:Es; simpl.
      * specialize (IH k). destruct IH as [IH _].
        destruct (IH eq_refl) as (Hk & HPk & Hmin).
        split.
        -- intros [= <-]. split; [lia|]. split; [done|].
           intros [|j] Hj; simpl; [done|]. apply Hmin. lia.
        -- intros (Hi & HPi & Hmin'). f_equal.
           destruct i as [|i]; [simpl in HPi; congruence|].
           simpl in HPi.
           destruct (decide (i = k)) as [->|Hne]; [done|].
           destruct (decide (i < k)).
           ++ rewrite Hmin in HPi by done. done.
           ++ specialize (Hmin' (S k) ltac:(lia)). simpl in Hmin'. congruence.
      * split; [done|]. intros (Hi & HPi & Hmin').
        destruct i as [|i]; [simpl in HPi; congruence|].
        simpl in HPi. specialize (IH i). destruct IH as [_ IH].
        exfalso. enough (@None nat = Some i) by congruence.
        apply IH. split; [lia|]. split; [done|].
        intros j Hj. apply (Hmin' (S j)). lia.
Qed.

Lemma search_None P s :
  search P s = None <-> forall j, P (drop j s) = false.
Proof.
  split.
  - intros Hn j. destruct (P (drop j s)) eqn:E; [|done].
    assert (exists i, search P s = Some i) as [i Hi]; [|congruence].
    clear Hn. revert j E.
    induction s as [|c s IH]; intros j E; simpl.
    + rewrite drop_nil in E. rewrite E. eauto.
    + destruct (P (c :: s)) eqn:E0; [eauto|].
      destruct j as [|j]; [simpl in E; congruence|].
      simpl in E. destruct (IH _ E) as [i ->]. simpl. eauto.
  - intros Hall. destruct (search P s) as [i|] eqn:E; [|done].
    apply search_Some in E as (_ & HP & _). rewrite Hall in HP. done.
Qed.

(** Two predicates that agree on every suffix are found at the same
    place. *)
Lemma search_ext P Q s :
  (forall j, P (drop j s) = Q (drop j s)) -> search P s = search Q s.
Proof.
  intros Hext. destruct (search Q s) as [i|] eqn:E.
  - apply search_Some in E as (Hi & HQ & Hmin). apply search_Some.
    split; [done|]. split; [by rewrite Hext|].
    intros j Hj. rewrite Hext. by apply Hmin.
  - apply search_None. intros j. rewrite Hext.
    by eapply search_None in E.
Qed.

(** Nothing is found inside a prefix [x] at whose positions [P] fails:
    the search goes on in the rest. *)
Lemma search_app_skip P x y :
  (forall j, j < length x -> P (drop j (x ++ y)) = false) ->
  search P (x ++ y) = (fun i => length x + i) <$> search P y.
Proof.
  induction x as [|c x IH]; intros Hx; simpl.
  - by destruct (search P y).
  - pose proof (Hx 0 ltac:(simpl; lia)) as H0. simpl in H0. rewrite H0.
    rewrite IH.
    + by destruct (search P y).
    + intros j Hj. apply (Hx (S j)). simpl. lia.
Qed.

Lemma find_Some sub s start i :
  sub <> [] -> find sub s start = Some i ->
  start <= i /\ startswith sub (drop i s) = true /\ i + length sub <= length s.
Proof.
  unfold find. intros Hsub. destruct (search _ _) as [k|] eqn:E; [|done].
  intros [= <-]. apply search_Some in E as (Hk & HP & _).
  rewrite drop_drop in HP. split; [lia|]. split; [done|].
  apply startswith_length in HP. rewrite length_drop in HP.
  destruct sub; [done|]. simpl in *. lia.
Qed.

End TextFacts.

(* ===================================================================== *)
(** ** Facts about tag starts and partial prefixes                        *)
(* ===================================================================== *)

Module TagFacts.
Import Parser Obs TextFacts.

Lemma lit_ahead_true l p s :
  lit_ahead l p s = true <-> exists c r, s = l ++ c :: r /\ p c = true.
Proof.
  unfold lit_ahead. destruct (strip_prefix l s) as [[|c r]|] eqn:E.
  - split; [done|]. intros (c & r & -> & _).
    apply strip_prefix_Some in E. by apply app_inv_head in E.
  - apply strip_prefix_Some in E as ->. split; [eauto|].
    intros (c' & r' & [= -> ->]%app_inv_head & Hp). done.
  - split; [done|]. intros (c & r & -> & _).
    assert (strip_prefix l (l ++ c :: r) = Some (c :: r)) by
      by apply strip_prefix_Some.
    congruence.
Qed.

(** A tag start stays one when text is added behind it. *)
Lemma lit_ahead_mono l p t u :
  lit_ahead l p t = true -> lit_ahead l p (t ++ u) = true.
Proof.
  intros (c & r & -> & Hp)%lit_ahead_true. apply lit_ahead_true.
  exists c, (r ++ u). by rewrite <- app_assoc.
Qed.

(** A tag start found once text was added either was there before, or
    what was there before is a beginning of the tag name. *)
Lemma lit_ahead_app_inv l p t u :
  t <> [] -> lit_ahead l p (t ++ u) = true ->
  lit_ahead l p t = true \/ exists l', l = t ++ l'.
Proof.
  revert t; induction l as [|x l IH]; intros t Ht H.
  - left. destruct t as [|c t]; [done|]. exact H.
  - destruct t as [|c t]; [done|].
    unfold lit_ahead in H |- *. simpl in H |- *.
    destruct (chr_eqb x c) eqn:E; [|done].
    apply chr_eqb_eq in E as ->.
    destruct t as [|c' t].
    + right. by exists l.
    + destruct (IH (c' :: t) ltac:(done) H) as [Hl|[l' ->]].
      * by left.
      * right. by exists l'.
Qed.

Lemma tag_at_mono t u : tag_at t = true -> tag_at (t ++ u) = true.
Proof.
  unfold tag_at, bare_ask_at, form_ask_at.
  intros [H|H]%orb_true_iff; apply orb_true_iff;
    [left|right]; by apply lit_ahead_mono.
Qed.

(** The partial prefixes are the beginnings, empty one apart, of the
    longer tag name. *)
Lemma partial_at_true t :
  partial_at t = true <-> t <> [] /\ exists l', lit "<ask-form" = t ++ l'.
Proof.
  unfold partial_at. rewrite existsb_exists. split.
  - intros (p & Hin & ->%str_eqb_eq). split.
    + intros ->. simpl in Hin.
      repeat (destruct Hin as [Hin|Hin]; [discriminate Hin|]). done.
    + simpl in Hin.
      repeat (destruct Hin as [<-|Hin]; [by eexists|]). done.
  - intros (Hne & l' & Heq).
    assert (Ht : t = take (length t) (lit "<ask-form")) by
      by rewrite Heq, take_app_length.
    assert (Hl : length t <= 9).
    { apply (f_equal length) in Heq. rewrite length_app in Heq.
      simpl in Heq. lia. }
    assert (Hz : length t <> 0) by by destruct t.
    exists t. split; [|by apply str_eqb_eq]. rewrite Ht.
    destruct (length t) as [|n]; [done|].
    do 9 (destruct n as [|n];
          [cbn; repeat first [left; reflexivity | right]|]).
    lia.
Qed.

Lemma partial_prefix_closed t u :
  t <> [] -> partial_at (t ++ u) = true -> partial_at t = true.
Proof.
  intros Ht (_ & l' & Hl)%partial_at_true. apply partial_at_true.
  split; [done|]. exists (u ++ l'). by rewrite app_assoc.
Qed.

(** Opening positions are local: adding text behind a nonempty text
    cannot open a tag at its head that was not at least announced. *)
Lemma open_at_app_inv t u :
  t <> [] -> open_at (t ++ u) = true -> open_at t = true.
Proof.
  intros Ht. unfold open_at, tag_at, bare_ask_at, form_ask_at.
  rewrite !orb_true_iff. intros [[H|H]|H].
  - destruct (lit_ahead_app_inv _ _ _ _ Ht H) as [?|[l' Hl]]; [tauto|].
    right. apply partial_at_true. split; [done|].
    exists (l' ++ lit "-form"). rewrite app_assoc, <- Hl. done.
  - destruct (lit_ahead_app_inv _ _ _ _ Ht H) as [?|[l' Hl]]; [tauto|].
    right. apply partial_at_true. split; [done|]. by exists l'.
  - right. by eapply partial_prefix_closed.
Qed.

(** No tag opens inside a partial prefix, nor another partial prefix. *)
Lemma partial_at_inside t k :
  partial_at t = true -> 0 < k -> open_at (drop k t) = false.
Proof.
  unfold partial_at. rewrite existsb_exists.
  intros (p & Hin & ->%str_eqb_eq) Hk.
  destruct k as [|k]; [lia|]. simpl in Hin.
  repeat (destruct Hin as [<-|Hin];
          [do 10 (destruct k as [|k]; [by vm_compute|]); by vm_compute|]).
  done.
Qed.

End TagFacts.

(* ===================================================================== *)
(** ** Facts about the scanning functions of the parser                   *)
(* ===================================================================== *)

Module ScanFacts.
Import Parser Obs TextFacts TagFacts.

Lemma endswith_true p s : endswith p s = true <-> exists r, s = r ++ p.
Proof.
  unfold endswith. rewrite andb_true_iff, Nat.leb_le, str_eqb_eq. split.
  - intros [Hl Hd]. exists (take (length s - length p) s).
    transitivity (take (length s - length p) s ++ drop (length s - length p) s);
      [by rewrite take_drop|by rewrite Hd].
  - intros [r ->]. rewrite length_app. split; [lia|].
    replace (length r + length p - length p) with (length r) by lia.
    by rewrite drop_app_length.
Qed.

(** [first_suffix] returns the length of a listed suffix of the text, or
    0 when no listed text is a suffix. *)
Lemma first_suffix_cases ps s :
  (first_suffix ps s = 0 /\ forall p, In p ps -> p <> [] -> endswith p s = false)
  \/ (exists p, In p ps /\ endswith p s = true /\ first_suffix ps s = length p).
Proof.
  induction ps as [|p ps IH]; simpl.
  - left. split; [done|]. intros p [].
  - destruct (endswith p s) eqn:E.
    + right. exists p. auto.
    + destruct IH as [[H0 Hall]|(q & Hin & Hq & Hlen)].
      * left. split; [done|]. intros q [<-|Hin] Hq; auto.
      * right. exists q. auto.
Qed.

(** The held-back suffix starts at the leftmost position from which the
    rest of the buffer is a partial prefix. *)
Lemma partial_ask_suffix_search buf :
  _partial_ask_suffix buf =
  match search partial_at buf with
  | Some i => length buf - i
  | None => 0
  end.
Proof.
  unfold _partial_ask_suffix.
  destruct (first_suffix_cases POSSIBLE_PREFIXES buf)
    as [[H0 Hall]|(p & Hin & [r ->]%endswith_true & Hlen)].
  - rewrite H0.
    assert (search partial_at buf = None) as ->; [|done].
    apply search_None. intros j.
    destruct (partial_at (drop j buf)) eqn:E; [|done].
    pose proof E as (Hne & _)%partial_at_true.
    unfold partial_at in E. apply existsb_exists in E as (p & Hin & Hp).
    apply str_eqb_eq in Hp. rewrite <- (Hall p Hin); [|congruence].
    symmetry. apply endswith_true. exists (take j buf).
    by rewrite <- Hp, take_drop.
  - rewrite Hlen.
    assert (Hp : partial_at p = true).
    { unfold partial_at. apply existsb_exists. exists p.
      split; [done|]. by apply str_eqb_eq. }
    assert (search partial_at (r ++ p) = Some (length r)) as ->.
    { apply search_Some. rewrite length_app, drop_app_length.
      split; [lia|]. split; [done|]. intros j Hj.
      destruct (partial_at (drop j (r ++ p))) eqn:E; [|done].
      pose proof (partial_at_inside _ (length r - j) E ltac:(lia)) as Hin'.
      rewrite drop_drop in Hin'.
      replace (j + (length r - j)) with (length r) in Hin' by lia.
      rewrite drop_app_length in Hin'. unfold open_at in Hin'.
      rewrite Hp, orb_true_r in Hin'. done. }
    rewrite length_app. lia.
Qed.

Lemma partial_ask_suffix_le buf : _partial_ask_suffix buf <= length buf.
Proof.
  rewrite partial_ask_suffix_search. destruct (search partial_at buf); lia.
Qed.

(** [flush_safe] splits the buffer. *)
Lemma flush_safe_app buf safe rest :
  flush_safe buf = (safe, rest) -> buf = safe ++ rest.
Proof.
  unfold flush_safe. destruct (_partial_ask_suffix buf =? 0).
  - intros [= <- <-]. by rewrite app_nil_r.
  - intros [= <- <-]. by rewrite take_drop.
Qed.

Lemma flush_safe_length buf safe rest :
  flush_safe buf = (safe, rest) ->
  length rest = _partial_ask_suffix buf.
Proof.
  unfold flush_safe. pose proof (partial_ask_suffix_le buf).
  destruct (_partial_ask_suffix buf =? 0) eqn:E.
  - apply Nat.eqb_eq in E. intros [= <- <-]. by rewrite E.
  - intros [= <- <-]. rewrite length_drop. lia.
Qed.

(** The tag kind the code picks and the position it reports are those
    of the leftmost opening of either kind. *)
Lemma first_tag_pos_search buf :
  _first_tag_pos buf =
  (fun i => (i, if bare_ask_at (drop i buf) then KAsk else KForm))
    <$> search tag_at buf.
Proof.
  unfold _first_tag_pos, BARE_ASK_START_search, FORM_ASK_START_search.
  destruct (search bare_ask_at buf) as [a|] eqn:Ea;
    destruct (search form_ask_at buf) as [f|] eqn:Ef.
  - apply search_Some in Ea as (Ha & Hba & Hmina).
    apply search_Some in Ef as (Hf & Hbf & Hminf).
    destruct (a <=? f) eqn:Hle.
    + apply Nat.leb_le in Hle.
      assert (search tag_at buf = Some a) as ->.
      { apply search_Some. split; [done|]. unfold tag_at.
        split; [by rewrite Hba|]. intros j Hj.
        rewrite Hmina, Hminf by lia. done. }
      simpl. by rewrite Hba.
    + apply Nat.leb_gt in Hle.
      assert (search tag_at buf = Some f) as ->.
      { apply search_Some. split; [done|]. unfold tag_at.
        split; [by rewrite Hbf, orb_true_r|]. intros j Hj.
        rewrite Hmina, Hminf by lia. done. }
      simpl. by rewrite Hmina.
  - apply search_Some in Ea as (Ha & Hba & Hmina).
    assert (search tag_at buf = Some a) as ->.
    { apply search_Some. split; [done|]. unfold tag_at.
      split; [by rewrite Hba|]. intros j Hj.
      rewrite Hmina by lia. by eapply search_None in Ef as ->. }
    simpl. by rewrite Hba.
  - apply search_Some in Ef as (Hf & Hbf & Hminf).
    assert (search tag_at buf = Some f) as ->.
    { apply search_Some. split; [done|]. unfold tag_at.
      split; [by rewrite Hbf, orb_true_r|]. intros j Hj.
      rewrite Hminf by lia. by eapply search_None in Ea as ->. }
    simpl. by eapply search_None in Ea as ->.
  - assert (search tag_at buf = None) as ->; [|done].
    apply search_None. intros j. unfold tag_at.
    eapply search_None in Ea as ->. by eapply search_None in Ef as ->.
Qed.


(** The extractor of the kind picked finds its tag at the position
    reported. *)
Lemma first_tag_pos_kind buf fp k :
  _first_tag_pos buf = Some (fp, k) -> search (kind_at k) buf = Some fp.
Proof.
  unfold _first_tag_pos, BARE_ASK_START_search, FORM_ASK_START_search.
  destruct (search bare_ask_at buf) as [a|] eqn:Ea;
    destruct (search form_ask_at buf) as [f|] eqn:Ef;
    [destruct (a <=? f)|..]; intros [= <- <-]; done.
Qed.

Lemma first_tag_pos_Some buf fp k :
  _first_tag_pos buf = Some (fp, k) ->
  fp <= length buf /\ tag_at (drop fp buf) = true
  /\ forall j, j < fp -> tag_at (drop j buf) = false.
Proof.
  rewrite first_tag_pos_search.
  destruct (search tag_at buf) as [i|] eqn:E; [|done].
  intros [= <- <-]. by apply search_Some.
Qed.

Lemma first_tag_pos_None buf :
  _first_tag_pos buf = None -> forall j, tag_at (drop j buf) = false.
Proof.
  rewrite first_tag_pos_search.
  destruct (search tag_at buf) as [i|] eqn:E; [done|].
  intros _. by apply search_None.
Qed.

(** A tag opening has text. *)
Lemma tag_at_nil : tag_at [] = false.
Proof. done. Qed.

Lemma first_tag_pos_lt buf fp k :
  _first_tag_pos buf = Some (fp, k) -> fp < length buf.
Proof.
  intros (Hle & Ht & _)%first_tag_pos_Some.
  destruct (decide (fp < length buf)); [done|].
  rewrite drop_ge in Ht by lia. done.
Qed.

End ScanFacts.

(* ===================================================================== *)
(** ** Facts about the extractors and the loop of [_process_buffer]       *)
(* ===================================================================== *)

Module LoopFacts.
Import Regex.
Import Parser Obs TextFacts TagFacts ScanFacts.

Local Arguments lit : simpl never.

Lemma search_startswith_app sub t u i :
  sub <> [] -> search (startswith sub) t = Some i ->
  search (startswith sub) (t ++ u) = Some i.
Proof.
  intros Hsub (Hi & HP & Hmin)%search_Some. apply search_Some.
  pose proof (startswith_length _ _ HP) as Hl. rewrite length_drop in Hl.
  assert (0 < length sub) by (destruct sub; [done|simpl; lia]).
  rewrite length_app. split; [lia|]. split.
  - rewrite drop_app_le by lia. rewrite startswith_app; [done|].
    rewrite length_drop. lia.
  - intros j Hj. rewrite drop_app_le by lia. rewrite startswith_app.
    + by apply Hmin.
    + rewrite length_drop. lia.
Qed.

Lemma find_app sub s u pos ce :
  sub <> [] -> find sub s pos = Some ce -> find sub (s ++ u) pos = Some ce.
Proof.
  intros Hsub Hf. pose proof (find_Some _ _ _ _ Hsub Hf) as (Hle & _ & Hlen).
  unfold find in *.
  destruct (search (startswith sub) (drop pos s)) as [k|] eqn:E; [|done].
  rewrite drop_app_le by lia.
  by rewrite (search_startswith_app _ _ _ _ Hsub E).
Qed.

Lemma find_shift sub x y pos :
  find sub (x ++ y) (length x + pos) = (fun i => length x + i) <$> find sub y pos.
Proof.
  unfold find. rewrite drop_app_add.
  destruct (search (startswith sub) (drop pos y)); simpl; [|done].
  f_equal. lia.
Qed.

Lemma lit_nonempty_ask : lit "</ask>" <> [].
Proof. done. Qed.
Lemma lit_nonempty_form : lit "</ask-form>" <> [].
Proof. done. Qed.
Lemma lit_nonempty_gt : lit ">" <> [].
Proof. done. Qed.

(** *** Extraction does not depend on what follows the tag *)

Lemma try_extract_bare_ask_app buf u w before ev q after w' :
  search bare_ask_at (buf ++ u) = search bare_ask_at buf ->
  _try_extract_bare_ask buf w = Some (before, ev, q, after, w') ->
  _try_extract_bare_ask (buf ++ u) w = Some (before, ev, q, after ++ u, w').
Proof.
  unfold _try_extract_bare_ask, BARE_ASK_START_search. intros ->.
  destruct (search bare_ask_at buf) as [pos|]; [|done].
  destruct (find (lit "</ask>") buf pos) as [ce|] eqn:Ef; [|done].
  pose proof (find_Some _ _ _ _ lit_nonempty_ask Ef) as (Hle & _ & Hlen).
  change (length (lit "</ask>")) with 6 in Hlen.
  rewrite (find_app _ _ u _ _ lit_nonempty_ask Ef).
  rewrite (take_app_le buf u (ce + 6)) by lia.
  destruct (rmatch ASK_RE _) as [[m ?]|]; [|done].
  simpl. intros [= <- <- <- <- <-].
  rewrite (take_app_le buf u pos) by lia.
  rewrite (drop_app_le buf u (ce + 6)) by lia. done.
Qed.

Lemma try_extract_ask_form_app buf u w before ev q after w' :
  search form_ask_at (buf ++ u) = search form_ask_at buf ->
  _try_extract_ask_form buf w = Some (before, ev, q, after, w') ->
  _try_extract_ask_form (buf ++ u) w = Some (before, ev, q, after ++ u, w').
Proof.
  unfold _try_extract_ask_form, FORM_ASK_START_search. intros ->.
  destruct (search form_ask_at buf) as [pos|]; [|done].
  destruct (find (lit "</ask-form>") buf pos) as [ce|] eqn:Ef; [|done].
  pose proof (find_Some _ _ _ _ lit_nonempty_form Ef) as (Hle & _ & Hlen).
  change (length (lit "</ask-form>")) with 11 in Hlen.
  rewrite (find_app _ _ u _ _ lit_nonempty_form Ef).
  destruct (find (lit ">") buf pos) as [oc|] eqn:Eo; [|done].
  rewrite (find_app _ _ u _ _ lit_nonempty_gt Eo).
  destruct (ce <=? oc) eqn:Hc; [done|]. apply Nat.leb_gt in Hc.
  rewrite (take_app_le buf u ce) by lia.
  rewrite (take_app_le buf u (oc + 1)) by lia.
  destruct (imap form_question _) as [|fq fqs]; [done|].
  simpl. intros [= <- <- <- <- <-].
  rewrite (take_app_le buf u pos) by lia.
  rewrite (drop_app_le buf u (ce + 11)) by lia. done.
Qed.

Lemma extractor_app k buf u w before ev q after w' :
  search (kind_at k) (buf ++ u) = search (kind_at k) buf ->
  extractor k buf w = Some (before, ev, q, after, w') ->
  extractor k (buf ++ u) w = Some (before, ev, q, after ++ u, w').
Proof.
  destruct k; simpl.
  - apply try_extract_bare_ask_app.
  - apply try_extract_ask_form_app.
Qed.

(** *** Extraction does not depend on plain text before the tag *)


Lemma try_extract_bare_ask_shift x y w :
  search bare_ask_at (x ++ y) = (fun i => length x + i) <$> search bare_ask_at y ->
  _try_extract_bare_ask (x ++ y) w = shift_before x <$> _try_extract_bare_ask y w.
Proof.
  unfold _try_extract_bare_ask, BARE_ASK_START_search. intros ->.
  destruct (search bare_ask_at y) as [pos|]; simpl; [|done].
  rewrite find_shift.
  destruct (find (lit "</ask>") y pos) as [ce|]; simpl; [|done].
  rewrite <- !Nat.add_assoc, !take_app_add, !drop_app_add.
  destruct (rmatch ASK_RE _) as [[m ?]|]; simpl; done.
Qed.

Lemma try_extract_ask_form_shift x y w :
  search form_ask_at (x ++ y) = (fun i => length x + i) <$> search form_ask_at y ->
  _try_extract_ask_form (x ++ y) w = shift_before x <$> _try_extract_ask_form y w.
Proof.
  unfold _try_extract_ask_form, FORM_ASK_START_search. intros ->.
  destruct (search form_ask_at y) as [pos|]; simpl; [|done].
  rewrite !find_shift.
  destruct (find (lit "</ask-form>") y pos) as [ce|]; simpl; [|done].
  destruct (find (lit ">") y pos) as [oc|]; simpl; [|done].
  replace (length x + ce <=? length x + oc) with (ce <=? oc)
    by (destruct (ce <=? oc) eqn:E1, (length x + ce <=? length x + oc) eqn:E2;
        try done; [apply Nat.leb_le in E1; apply Nat.leb_gt in E2|
                   apply Nat.leb_gt in E1; apply Nat.leb_le in E2]; lia).
  destruct (ce <=? oc); [done|].
  rewrite <- !Nat.add_assoc, !take_app_add, !drop_app_add.
  destruct (imap form_question _) as [|fq fqs]; simpl; done.
Qed.

Lemma extractor_shift k x y w :
  search (kind_at k) (x ++ y) = (fun i => length x + i) <$> search (kind_at k) y ->
  extractor k (x ++ y) w = shift_before x <$> extractor k y w.
Proof.
  destruct k; simpl.
  - apply try_extract_bare_ask_shift.
  - apply try_extract_ask_form_shift.
Qed.

(** *** What an extraction returns *)

Lemma extractor_Some k buf w before ev q after w' :
  extractor k buf w = Some (before, ev, q, after, w') ->
  exists pos, search (kind_at k) buf = Some pos /\ before = take pos buf
  /\ length after < length buf /\ is_interaction ev = true.
Proof.
  destruct k; simpl.
  - unfold _try_extract_bare_ask, BARE_ASK_START_search.
    destruct (search bare_ask_at buf) as [pos|]; [|done].
    destruct (find (lit "</ask>") buf pos) as [ce|] eqn:Ef; [|done].
    pose proof (find_Some _ _ _ _ lit_nonempty_ask Ef) as (Hle & _ & Hlen).
    change (length (lit "</ask>")) with 6 in Hlen.
    destruct (rmatch ASK_RE _) as [[m ?]|]; [|done].
    simpl. intros [= <- <- <- <- <-]. exists pos.
    rewrite length_drop. repeat split; try done. lia.
  - unfold _try_extract_ask_form, FORM_ASK_START_search.
    destruct (search form_ask_at buf) as [pos|]; [|done].
    destruct (find (lit "</ask-form>") buf pos) as [ce|] eqn:Ef; [|done].
    pose proof (find_Some _ _ _ _ lit_nonempty_form Ef) as (Hle & _ & Hlen).
    change (length (lit "</ask-form>")) with 11 in Hlen.
    destruct (find (lit ">") buf pos) as [oc|]; [|done].
    destruct (ce <=? oc); [done|].
    destruct (imap form_question _) as [|fq fqs]; [done|].
    simpl. intros [= <- <- <- <- <-]. exists pos.
    rewrite length_drop. repeat split; try done. lia.
Qed.

(** *** The loop *)



Lemma append_text_acc acc t : append_text acc t = acc ++ append_text [] t.
Proof. unfold append_text. destruct (nonempty t); by rewrite ?app_nil_r. Qed.

Lemma process_loop_acc fuel acc buf p w :
  process_loop fuel acc buf p w = with_events acc (process_loop fuel [] buf p w).
Proof.
  revert acc buf p w. induction fuel as [|fuel IH]; intros acc buf p w.
  - simpl. by rewrite app_nil_r.
  - cbn [process_loop].
    destruct (_first_tag_pos buf) as [[fp k]|].
    + destruct (extractor k buf w) as [[[[[before ev] q] after] w']|].
      * rewrite IH. rewrite (IH (_ ++ [ev])).
        destruct (process_loop fuel [] after _ w') as [[[e b] p'] w''].
        simpl. rewrite (append_text_acc acc), (append_text_acc []).
        by rewrite <- !app_assoc.
      * simpl. destruct (0 <? fp); simpl; by rewrite ?app_nil_r.
    + destruct (flush_safe buf) as [safe rest]. simpl.
      by rewrite (append_text_acc acc).
Qed.

(** The loop never runs out of turns: any number of turns above the
    length of the buffer gives the same result. *)
Lemma process_loop_fuel fuel fuel' acc buf p w :
  length buf < fuel -> length buf < fuel' ->
  process_loop fuel acc buf p w = process_loop fuel' acc buf p w.
Proof.
  revert fuel' acc buf p w.
  induction fuel as [|fuel IH]; intros fuel' acc buf p w Hf Hf'; [lia|].
  destruct fuel' as [|fuel']; [lia|]. simpl.
  destruct (_first_tag_pos buf) as [[fp k]|]; [|done].
  destruct (extractor k buf w) as [[[[[before ev] q] after] w']|] eqn:E; [|done].
  apply extractor_Some in E as (pos & _ & _ & Hlen & _).
  apply IH; lia.
Qed.

(** The loop of [_process_buffer], one turn unfolded. *)
Lemma process_buffer_eq buf p w :
  _process_buffer buf p w =
  match _first_tag_pos buf with
  | None =>
      let '(safe, rest) := flush_safe buf in (append_text [] safe, rest, p, w)
  | Some (fp, kind) =>
      match extractor kind buf w with
      | None =>
          (if 0 <? fp then [TextChunkEvent (take fp buf)] else [],
           drop fp buf, p, w)
      | Some (before, ev, q, after, w') =>
          with_events (append_text [] before ++ [ev])
            (_process_buffer after (p ++ [(request_id_of ev, q)]) w')
      end
  end.
Proof.
  unfold _process_buffer at 1. simpl.
  destruct (_first_tag_pos buf) as [[fp k]|]; [|done].
  destruct (extractor k buf w) as [[[[[before ev] q] after] w']|] eqn:E; [|done].
  apply extractor_Some in E as (pos & _ & _ & Hlen & _).
  rewrite process_loop_acc. unfold _process_buffer.
  f_equal. apply process_loop_fuel; lia.
Qed.

End LoopFacts.

(* ===================================================================== *)
(** ** Chunk boundaries                                                   *)
(* ===================================================================== *)

Module ChunkFacts.
Import Parser Obs TextFacts TagFacts ScanFacts LoopFacts.

Local Arguments lit : simpl never.

(** *** Merging text chunks *)

Lemma merge_text_app_r a x y :
  merge_text x = merge_text y -> merge_text (a ++ x) = merge_text (a ++ y).
Proof. intros H. induction a as [|e a IH]; simpl; [done|]. by rewrite IH. Qed.

Lemma merge_text_cons_text x t r :
  merge_text (TextChunkEvent x :: TextChunkEvent t :: r)
  = merge_text (TextChunkEvent (x ++ t) :: r).
Proof.
  simpl. destruct (merge_text r) as [|[] ?]; simpl; try done.
  by rewrite app_assoc.
Qed.

Lemma merge_text_app_l a b r :
  merge_text a = merge_text b -> merge_text (a ++ r) = merge_text (b ++ r).
Proof.
  assert (Hn : forall l, merge_text (l ++ r) = merge_text (merge_text l ++ r)).
  { induction l as [|e l IH]; [done|].
    change (merge_text ((e :: l) ++ r))
      with (merge_text ([e] ++ (l ++ r))).
    rewrite (merge_text_app_r [e] _ _ IH). simpl.
    destruct e; try done.
    destruct (merge_text l) as [|[] ?]; try done.
    simpl. destruct (merge_text (l0 ++ r)) as [|[] ?]; simpl; try done.
    by rewrite app_assoc. }
  intros H. by rewrite (Hn a), (Hn b), H.
Qed.

Lemma merge_prepend_text x e :
  merge_text (prepend_text x e) = merge_text (append_text [] x ++ e).
Proof.
  destruct x as [|c x]; [done|].
  unfold prepend_text, append_text. cbn [nonempty app].
  destruct e as [|[] e]; try done.
  by rewrite merge_text_cons_text.
Qed.

Lemma same_events_refl r : same_events r r.
Proof. by destruct r as [[[e b] p] w]. Qed.

Lemma same_events_with acc r r' :
  same_events r r' -> same_events (with_events acc r) (with_events acc r').
Proof.
  destruct r as [[[e b] p] w], r' as [[[e' b'] p'] w']. simpl.
  intros (He & -> & -> & ->). split; [|done]. by apply merge_text_app_r.
Qed.

(** *** Where nothing opens *)

(** A tag of one kind is not a tag of the other. *)
Lemma bare_not_form t : bare_ask_at t = true -> form_ask_at t = false.
Proof.
  unfold bare_ask_at, form_ask_at.
  intros (c & r & -> & Hc)%lit_ahead_true.
  destruct (lit_ahead _ _ _) eqn:E; [|done].
  apply lit_ahead_true in E as (c' & r' & [= -> _] & _). done.
Qed.

Lemma open_at_tag t : open_at t = false -> tag_at t = false.
Proof. unfold open_at. by intros [? _]%orb_false_iff. Qed.

Lemma open_at_partial t : open_at t = false -> partial_at t = false.
Proof. unfold open_at. by intros [_ ?]%orb_false_iff. Qed.

Lemma open_at_kind k t : open_at t = false -> kind_at k t = false.
Proof.
  intros H%open_at_tag. unfold tag_at in H.
  apply orb_false_iff in H as [? ?]. by destruct k.
Qed.

(** Before the first tag of the buffer nothing opens, whatever text
    comes behind the buffer. *)
Lemma closed_before_tag buf fp k u :
  _first_tag_pos buf = Some (fp, k) ->
  forall j, j < fp -> open_at (drop j buf ++ u) = false.
Proof.
  intros Hf j Hj. pose proof (first_tag_pos_lt _ _ _ Hf) as Hlt.
  apply first_tag_pos_Some in Hf as (_ & Ht & Hmin).
  destruct (open_at (drop j buf ++ u)) eqn:E; [|done].
  apply open_at_app_inv in E.
  2:{ intros Hnil%(f_equal length). rewrite length_drop in Hnil.
      simpl in Hnil. lia. }
  unfold open_at in E. rewrite (Hmin j Hj) in E. simpl in E.
  pose proof (partial_at_inside _ (fp - j) E ltac:(lia)) as Hin.
  rewrite drop_drop in Hin. replace (j + (fp - j)) with fp in Hin by lia.
  apply open_at_tag in Hin. congruence.
Qed.

(** In a buffer without a tag nothing opens before the held-back
    suffix, whatever text comes behind the buffer. *)
Lemma closed_before_suffix buf u :
  _first_tag_pos buf = None ->
  forall j, j < length buf - _partial_ask_suffix buf ->
    open_at (drop j buf ++ u) = false.
Proof.
  intros Hf j Hj. pose proof (first_tag_pos_None _ Hf) as Hnone.
  destruct (open_at (drop j buf ++ u)) eqn:E; [|done].
  apply open_at_app_inv in E.
  2:{ intros Hnil%(f_equal length). rewrite length_drop in Hnil.
      simpl in Hnil. lia. }
  unfold open_at in E. rewrite Hnone in E. simpl in E.
  rewrite partial_ask_suffix_search in Hj.
  destruct (search partial_at buf) as [i|] eqn:Es.
  - apply search_Some in Es as (Hi & _ & Hmin).
    rewrite Hmin in E by lia. done.
  - eapply search_None in Es. by rewrite Es in E.
Qed.

(** The first tag of a buffer stays the first tag when text is added. *)
Lemma first_tag_pos_app buf fp k u :
  _first_tag_pos buf = Some (fp, k) ->
  _first_tag_pos (buf ++ u) = Some (fp, k).
Proof.
  intros Hf. pose proof (first_tag_pos_lt _ _ _ Hf) as Hlt.
  pose proof (closed_before_tag _ _ _ u Hf) as Hcl.
  rewrite first_tag_pos_search in Hf |- *.
  destruct (search tag_at buf) as [i|] eqn:Es; [|done].
  simpl in Hf. injection Hf as -> <-.
  apply search_Some in Es as (Hi & Ht & Hmin).
  assert (search tag_at (buf ++ u) = Some fp) as ->.
  { apply search_Some. rewrite length_app. split; [lia|].
    rewrite drop_app_le by lia. split; [by apply tag_at_mono|].
    intros j Hj. rewrite drop_app_le by lia.
    apply open_at_tag. by apply Hcl. }
  simpl. rewrite drop_app_le by lia. do 2 f_equal.
  destruct (bare_ask_at (drop fp buf)) eqn:Eb.
  - unfold bare_ask_at in *. by rewrite (lit_ahead_mono _ _ _ u Eb).
  - unfold tag_at in Ht. rewrite Eb in Ht. simpl in Ht.
    assert (Hfu : form_ask_at (drop fp buf ++ u) = true)
      by by apply lit_ahead_mono.
    destruct (bare_ask_at (drop fp buf ++ u)) eqn:Eb'; [|done].
    apply bare_not_form in Eb'. congruence.
Qed.

(** *** Plain text in front of the buffer *)

Lemma first_tag_pos_shift x y :
  closed x y ->
  _first_tag_pos (x ++ y)
  = (fun ik => (length x + ik.1, ik.2)) <$> _first_tag_pos y.
Proof.
  intros Hcl. rewrite !first_tag_pos_search.
  rewrite (search_app_skip tag_at x y).
  2:{ intros j Hj. apply open_at_tag. by apply Hcl. }
  destruct (search tag_at y) as [i|]; simpl; [|done].
  by rewrite drop_app_add.
Qed.

Lemma partial_ask_suffix_shift x y :
  closed x y -> _partial_ask_suffix (x ++ y) = _partial_ask_suffix y.
Proof.
  intros Hcl. rewrite !partial_ask_suffix_search.
  rewrite (search_app_skip partial_at x y).
  2:{ intros j Hj. apply open_at_partial. by apply Hcl. }
  destruct (search partial_at y) as [i|] eqn:E; simpl; [|done].
  rewrite length_app. lia.
Qed.

Lemma flush_safe_shift x y :
  closed x y ->
  flush_safe (x ++ y) = (x ++ (flush_safe y).1, (flush_safe y).2).
Proof.
  intros Hcl. unfold flush_safe. rewrite (partial_ask_suffix_shift _ _ Hcl).
  pose proof (partial_ask_suffix_le y) as Hle.
  destruct (_partial_ask_suffix y =? 0); simpl; [done|].
  rewrite length_app.
  replace (length x + length y - _partial_ask_suffix y)
    with (length x + (length y - _partial_ask_suffix y)) by lia.
  by rewrite take_app_add, drop_app_add.
Qed.

Lemma append_text_prepend x t :
  append_text [] (x ++ t) = prepend_text x (append_text [] t).
Proof.
  destruct x as [|c x]; [done|]. unfold append_text, prepend_text.
  destruct t as [|d t]; simpl; [by rewrite app_nil_r|done].
Qed.

Lemma prepend_text_app x t e :
  is_text e = false ->
  append_text [] (x ++ t) ++ e :: [] = prepend_text x (append_text [] t ++ [e]).
Proof.
  intros He. destruct x as [|c x]; [done|]. unfold append_text, prepend_text.
  destruct t as [|d t]; simpl; [|done].
  rewrite app_nil_r. by destruct e.
Qed.

Lemma prepend_text_app_l x l e :
  l <> [] -> prepend_text x (l ++ e) = prepend_text x l ++ e.
Proof.
  intros Hl. destruct x as [|c x]; [done|].
  destruct l as [|[] l]; done.
Qed.

(** Plain text in front of the buffer comes out in front of the
    events, and changes nothing else. *)
Lemma process_buffer_prefix x y p w :
  closed x y ->
  _process_buffer (x ++ y) p w =
  let '(e, b, p', w') := _process_buffer y p w in (prepend_text x e, b, p', w').
Proof.
  intros Hcl. rewrite (process_buffer_eq (x ++ y)), (process_buffer_eq y).
  rewrite (first_tag_pos_shift _ _ Hcl).
  destruct (_first_tag_pos y) as [[i k]|] eqn:Ef;
    cbn [fmap option_fmap option_map fst snd].
  - rewrite (extractor_shift k x y w).
    2:{ rewrite (search_app_skip (kind_at k) x y); [done|].
        intros j Hj. apply open_at_kind. by apply Hcl. }
    destruct (extractor k y w) as [[[[[before ev] q] after] w']|] eqn:Ee; simpl.
    + apply extractor_Some in Ee as (_ & _ & _ & _ & Hev).
      destruct (_process_buffer after _ w') as [[[e b] p'] w'']. simpl.
      f_equal. f_equal. f_equal.
      rewrite prepend_text_app_l by by destruct (append_text [] before).
      by rewrite <- (prepend_text_app x before ev) by by destruct ev.
    + rewrite take_app_add, drop_app_add. do 3 f_equal.
      pose proof (first_tag_pos_lt _ _ _ Ef) as Hlt.
      destruct x as [|c x]; simpl; [done|].
      destruct i as [|i]; simpl; [by rewrite app_nil_r|].
      destruct y; [simpl in Hlt; lia|done].
  - rewrite (flush_safe_shift _ _ Hcl).
    destruct (flush_safe y) as [safe rest]. simpl.
    by rewrite append_text_prepend.
Qed.

(** *** The buffer fed in two pieces *)

Lemma closed_take buf n u :
  n <= length buf ->
  (forall j, j < n -> open_at (drop j buf ++ u) = false) ->
  closed (take n buf) (drop n buf ++ u).
Proof.
  intros Hn H j Hj. rewrite length_take in Hj.
  rewrite app_assoc, take_drop. rewrite drop_app_le by lia.
  apply H. lia.
Qed.

(** Processing a buffer and then the rest with more text gives, up to
    the cutting of text into chunks, what processing everything at once
    gives. *)
Lemma process_buffer_chunks buf u p w :
  same_events (then_chunk (_process_buffer buf p w) u)
              (_process_buffer (buf ++ u) p w).
Proof.
  remember (length buf) as n eqn:Hn.
  revert buf u p w Hn.
  induction n as [n IH] using lt_wf_ind. intros buf u p w ->.
  rewrite (process_buffer_eq buf).
  destruct (_first_tag_pos buf) as [[fp k]|] eqn:Ef.
  - pose proof (first_tag_pos_lt _ _ _ Ef) as Hlt.
    destruct (extractor k buf w) as [[[[[before ev] q] after] w']|] eqn:Ee.
    + rewrite (process_buffer_eq (buf ++ u)).
      rewrite (first_tag_pos_app _ _ _ u Ef).
      rewrite (extractor_app _ _ u _ _ _ _ _ _ ltac:(
        rewrite (first_tag_pos_kind _ _ _ Ef);
        apply first_tag_pos_kind, first_tag_pos_app, Ef) Ee).
      apply extractor_Some in Ee as (_ & _ & _ & Hlen & _).
      specialize (IH (length after) Hlen after u
                     (p ++ [(request_id_of ev, q)]) w' eq_refl).
      destruct (_process_buffer after _ w') as [[[e1 b1] p1] w1].
      simpl in IH |- *.
      destruct (_process_buffer (b1 ++ u) p1 w1) as [[[e2 b2] p2] w2].
      destruct (_process_buffer (after ++ u) _ w') as [[[e3 b3] p3] w3].
      simpl in IH |- *. destruct IH as (He & -> & -> & ->).
      split; [|done]. rewrite <- !app_assoc.
      apply merge_text_app_r. simpl. by rewrite He.
    + simpl.
      assert (Hbuf : buf ++ u = take fp buf ++ (drop fp buf ++ u))
        by by rewrite app_assoc, take_drop.
      rewrite Hbuf.
      rewrite (process_buffer_prefix (take fp buf) (drop fp buf ++ u)).
      2:{ apply closed_take; [lia|]. by eapply closed_before_tag. }
      destruct (_process_buffer (drop fp buf ++ u) p w) as [[[e b] p'] w'].
      simpl. split; [|done]. rewrite merge_prepend_text.
      apply merge_text_app_l. unfold append_text.
      destruct fp as [|fp]; [done|].
      destruct buf; [simpl in Hlt; lia|done].
  - destruct (flush_safe buf) as [safe rest] eqn:Efl. simpl.
    pose proof (flush_safe_app _ _ _ Efl) as Hbuf.
    pose proof (flush_safe_length _ _ _ Efl) as Hrest.
    clear IH Efl. subst buf. rewrite <- app_assoc.
    rewrite (process_buffer_prefix safe (rest ++ u)).
    2:{ intros j Hj. rewrite app_assoc.
        rewrite drop_app_le by (rewrite length_app; lia).
        apply closed_before_suffix; [done|]. rewrite length_app. lia. }
    destruct (_process_buffer (rest ++ u) p w) as [[[e b] p'] w'].
    simpl. split; [|done]. by rewrite merge_prepend_text.
Qed.

End ChunkFacts.

(* ===================================================================== *)
(** ** The parser as a whole                                              *)
(* ===================================================================== *)

Module ParserFacts.
Import Parser Obs TextFacts TagFacts ScanFacts LoopFacts ChunkFacts.

Local Arguments lit : simpl never.

(** *** What the loop emits *)


Lemma append_text_ok t : Forall text_ok (append_text [] t).
Proof.
  unfold append_text. destruct t as [|c t]; simpl; [constructor|].
  by repeat constructor.
Qed.

Lemma append_text_not_done t : Forall not_done (append_text [] t).
Proof.
  unfold append_text. destruct (nonempty t); by repeat constructor.
Qed.

Lemma append_text_not_interaction t : Forall not_interaction (append_text [] t).
Proof.
  unfold append_text. destruct (nonempty t); by repeat constructor.
Qed.

Lemma text_of_app a b : text_of (a ++ b) = text_of a ++ text_of b.
Proof.
  induction a as [|e a IH]; [done|]. destruct e; simpl; try done.
  by rewrite IH, app_assoc.
Qed.

Lemma text_of_append_text t : text_of (append_text [] t) = t.
Proof.
  unfold append_text. destruct t; simpl; [done|]. by rewrite app_nil_r.
Qed.

(** Every event of [_process_buffer] is a text chunk with content or an
    interaction; the pending list grows by one entry per interaction;
    without an interaction the text is only split. *)
Lemma process_buffer_events buf p w :
  let '(e, b, p', w') := _process_buffer buf p w in
  Forall text_ok e /\ Forall not_done e
  /\ exists l, p' = p ++ l
     /\ (l = [] -> Forall not_interaction e /\ text_of e ++ b = buf)
     /\ (l <> [] -> Exists (fun x => is_interaction x = true) e).
Proof.
  remember (length buf) as n eqn:Hn. revert buf p w Hn.
  induction n as [n IH] using lt_wf_ind. intros buf p w ->.
  rewrite process_buffer_eq.
  destruct (_first_tag_pos buf) as [[fp k]|] eqn:Ef.
  - pose proof (first_tag_pos_lt _ _ _ Ef) as Hlt.
    destruct (extractor k buf w) as [[[[[before ev] q] after] w']|] eqn:Ee.
    + apply extractor_Some in Ee as (_ & _ & _ & Hlen & Hev).
      specialize (IH (length after) Hlen after
                     (p ++ [(request_id_of ev, q)]) w' eq_refl).
      destruct (_process_buffer after _ w') as [[[e b] p'] w''].
      destruct IH as (Hok & Hnd & l & -> & _ & _). simpl.
      split; [|split].
      * rewrite <- app_assoc. apply Forall_app. split; [apply append_text_ok|].
        constructor; [by destruct ev|done].
      * rewrite <- app_assoc. apply Forall_app.
        split; [apply append_text_not_done|].
        constructor; [by destruct ev|done].
      * exists ((request_id_of ev, q) :: l). rewrite <- app_assoc.
        split; [done|]. split; [done|]. intros _.
        apply Exists_app. left. apply Exists_app. right. by constructor.
    + split; [|split].
      * destruct fp as [|fp]; simpl; [constructor|].
        repeat constructor. destruct buf; [simpl in Hlt; lia|done].
      * destruct (0 <? fp); by repeat constructor.
      * exists []. rewrite app_nil_r. split; [done|]. split; [|done].
        intros _. split; [destruct (0 <? fp); by repeat constructor|].
        destruct fp as [|fp]; simpl; [done|].
        rewrite app_nil_r. apply (take_drop (S fp) buf).
  - destruct (flush_safe buf) as [safe rest] eqn:Efl.
    split; [apply append_text_ok|]. split; [apply append_text_not_done|].
    exists []. rewrite app_nil_r. split; [done|]. split; [|done].
    intros _. split; [apply append_text_not_interaction|].
    rewrite text_of_append_text. symmetry. by apply flush_safe_app.
Qed.

Lemma flush_before_events b :
  let '(flushed, b0) := flush_before b in
  Forall text_ok flushed /\ Forall not_done flushed
  /\ Forall not_interaction flushed /\ text_of flushed ++ b0 = b.
Proof.
  unfold flush_before.
  destruct (_first_tag_pos b) as [[fp k]|] eqn:Ef.
  - pose proof (first_tag_pos_lt _ _ _ Ef) as Hlt.
    destruct fp as [|fp]; simpl.
    + repeat split; constructor.
    + rewrite app_nil_r. repeat split; try by repeat constructor.
      * repeat constructor. destruct b; [simpl in Hlt; lia|done].
      * apply (take_drop (S fp) b).
  - destruct (flush_safe b) as [safe rest] eqn:Efl.
    split; [apply append_text_ok|]. split; [apply append_text_not_done|].
    split; [apply append_text_not_interaction|].
    rewrite text_of_append_text. symmetry. by apply flush_safe_app.
Qed.

(** *** One step of the generator *)

Lemma parser_step_text_ok st event :
  Forall text_ok (parser_step st event).1.1.
Proof.
  destruct event; simpl;
    try (pose proof (flush_before_events (buf st)) as Hfl;
         destruct (flush_before (buf st)) as [flushed b0];
         destruct Hfl as (Hok & _); simpl;
         apply Forall_app; split; [done|by repeat constructor]).
  - pose proof (process_buffer_events (buf st ++ content) (pending st) (wld st))
      as H.
    destruct (_process_buffer _ _ _) as [[[e b] p] w]. simpl. tauto.
  - pose proof (flush_before_events (buf st)) as Hfl.
    destruct (flush_before (buf st)) as [flushed b0].
    destruct Hfl as (Hok & _).
    pose proof (process_buffer_events b0 (pending st) (wld st)) as H.
    destruct (_process_buffer _ _ _) as [[[e b] p] w].
    destruct H as (He & _).
    destruct p; simpl; rewrite ?Forall_app; repeat split;
      try done; try apply append_text_ok; by repeat constructor.
Qed.

(** The generator returns on [DoneEvent] and on nothing else. *)
Lemma parser_step_returned st event :
  (parser_step st event).2 = is_done event.
Proof.
  destruct event; simpl;
    try (by destruct (flush_before (buf st))).
  - by destruct (_process_buffer _ _ _) as [[[e b] p] w].
  - destruct (flush_before (buf st)) as [flushed b0].
    destruct (_process_buffer _ _ _) as [[[e b] p] w]. by destruct p.
Qed.

(** A step on an event other than [DoneEvent]. *)
Lemma parser_step_other st event :
  is_done event = false ->
  let '(o, st', _) := parser_step st event in
  Forall not_done o
  /\ exists l, pending st' = pending st ++ l
     /\ (l = [] ->
         text_of o ++ buf st' = buf st ++ text_of [event]
         /\ (not_interaction event -> Forall not_interaction o)).
Proof.
  intros Hd.
  destruct event; try done; simpl;
    try (pose proof (flush_before_events (buf st)) as Hfl;
         destruct (flush_before (buf st)) as [flushed b0];
         destruct Hfl as (_ & Hnd & Hni & Htx); simpl;
         split; [apply Forall_app; split; [done|by repeat constructor]|];
         exists []; rewrite !app_nil_r; split; [done|]; intros _;
         rewrite text_of_app; simpl; rewrite app_nil_r;
         split; [done|]; intros Hev; apply Forall_app;
         split; [done|by repeat constructor]).
  pose proof (process_buffer_events (buf st ++ content) (pending st) (wld st))
    as H.
  destruct (_process_buffer _ _ _) as [[[e b] p] w]. simpl.
  destruct H as (_ & Hnd & l & -> & Hl & _). split; [done|].
  exists l. split; [done|]. intros ->. rewrite app_nil_r.
  destruct (Hl eq_refl) as [Hni Htx]. split; [done|]. by intros _.
Qed.

(** The step on [DoneEvent]: a last flush, then the event itself unless
    something is pending. *)
Lemma parser_step_done st :
  let '(o, st', _) := parser_step st DoneEvent in
  exists body,
    o = body ++ match pending st' with [] => [DoneEvent] | _ => [] end
    /\ Forall not_done body
    /\ exists l, pending st' = pending st ++ l
       /\ (l = [] -> text_of body = buf st /\ Forall not_interaction body).
Proof.
  simpl.
  pose proof (flush_before_events (buf st)) as Hfl.
  destruct (flush_before (buf st)) as [flushed b0].
  destruct Hfl as (_ & Hnd & Hni & Htx).
  pose proof (process_buffer_events b0 (pending st) (wld st)) as H.
  destruct (_process_buffer _ _ _) as [[[e b] p] w].
  destruct H as (_ & Hnde & l & -> & Hl & _).
  assert (Hbody : Forall not_done (flushed ++ e ++ append_text [] b)).
  { rewrite !Forall_app. repeat split; try done. apply append_text_not_done. }
  assert (Hrest : exists l0, pending st ++ l = pending st ++ l0
     /\ (l0 = [] -> text_of (flushed ++ e ++ append_text [] b) = buf st
                   /\ Forall not_interaction (flushed ++ e ++ append_text [] b))).
  { exists l. split; [done|]. intros ->.
    destruct (Hl eq_refl) as [Hnie Htxe].
    rewrite !text_of_app, text_of_append_text, Htxe, Htx.
    split; [done|]. rewrite !Forall_app. repeat split; try done.
    apply append_text_not_interaction. }
  destruct (pending st ++ l) eqn:Ep; simpl.
  - exists (flushed ++ e ++ append_text [] b).
    split; [by rewrite <- !app_assoc|]. by split.
  - exists (flushed ++ e ++ append_text [] b).
    split; [by rewrite app_nil_r|]. by split.
Qed.

(** *** Runs of the generator *)

Lemma parse_from_app pre l st :
  Forall not_done pre ->
  parse_from st (pre ++ l) =
  let '(o1, st1) := parse_from st pre in
  let '(o2, st2) := parse_from st1 l in (o1 ++ o2, st2).
Proof.
  revert st. induction pre as [|e pre IH]; intros st Hpre; simpl.
  - by destruct (parse_from st l).
  - apply Forall_cons in Hpre as [He Hpre].
    pose proof (parser_step_returned st e) as Hr.
    destruct (parser_step st e) as [[o st'] returned]. simpl in Hr.
    rewrite Hr, He. rewrite (IH st' Hpre).
    destruct (parse_from st' pre) as [o1 st1].
    destruct (parse_from st1 l) as [o2 st2]. by rewrite app_assoc.
Qed.

(** A run over events without [DoneEvent]. *)
Lemma parse_from_other pre st :
  Forall not_done pre ->
  let '(o, st1) := parse_from st pre in
  Forall not_done o
  /\ exists l, pending st1 = pending st ++ l
     /\ (l = [] ->
         text_of o ++ buf st1 = buf st ++ text_of pre
         /\ (Forall not_interaction pre -> Forall not_interaction o)).
Proof.
  revert st. induction pre as [|e pre IH]; intros st Hpre; cbn [parse_from].
  - simpl. split; [constructor|]. exists []. rewrite !app_nil_r.
    split; [done|]. intros _. split; [done|]. by intros _.
  - apply Forall_cons in Hpre as [He Hpre].
    pose proof (parser_step_returned st e) as Hr.
    pose proof (parser_step_other st e He) as Hs.
    destruct (parser_step st e) as [[o st'] returned]. simpl in Hr.
    rewrite Hr, He. specialize (IH st' Hpre).
    destruct (parse_from st' pre) as [o1 st1].
    destruct Hs as (Hnd & l & Hp & Hl).
    destruct IH as (Hnd1 & l1 & Hp1 & Hl1).
    split; [by apply Forall_app|].
    exists (l ++ l1). rewrite Hp1, Hp, <- app_assoc. split; [done|].
    intros [-> ->]%app_eq_nil.
    destruct (Hl eq_refl) as [Htx Hni]. destruct (Hl1 eq_refl) as [Htx1 Hni1].
    split.
    + change (e :: pre) with ([e] ++ pre).
      rewrite text_of_app, <- app_assoc, Htx1, app_assoc, Htx.
      by rewrite <- app_assoc, text_of_app.
    + intros [Hie Hipre]%Forall_cons. apply Forall_app. auto.
Qed.

End ParserFacts.

(* ===================================================================== *)
(** ** Properties of the tag parser                                       *)
(* ===================================================================== *)

Module ParserProps.
Import Parser Obs TextFacts TagFacts ScanFacts LoopFacts ChunkFacts ParserFacts.

Local Arguments lit : simpl never.

Lemma parse_from_text_ok inner st : Forall text_ok (parse_from st inner).1.
Proof.
  revert st. induction inner as [|e inner IH]; intros st; simpl; [constructor|].
  pose proof (parser_step_text_ok st e) as Hs.
  destruct (parser_step st e) as [[o st'] returned]. simpl in Hs.
  destruct returned; [done|].
  specialize (IH st'). destruct (parse_from st' inner) as [o' st''].
  simpl in *. by apply Forall_app.
Qed.

(** C9. Every text chunk the parser emits has content: whatever the
    events of the inner stream, the pending list and the registry, no
    [TextChunkEvent] of the output carries the empty string. *)
Theorem text_chunks_nonempty (inner : list Event) (pending0 : pending_list)
    (w : world) :
  Forall text_ok (parse_interactions inner pending0 w).1.
Proof. apply parse_from_text_ok. Qed.

(** C8. The single chunk [hello <ask-f] yields exactly one event, the
    text chunk [hello ]; the partial tag prefix stays in the buffer. *)
Theorem partial_prefix_held_back (pending0 : pending_list) (w : world) :
  parse_interactions [TextChunkEvent (lit "hello <ask-f")] pending0 w
  = ([TextChunkEvent (lit "hello ")],
     {| buf := lit "<ask-f"; pending := pending0; wld := w |}).
Proof. reflexivity. Qed.

(** Two deliveries of a text against one, from any state of the
    generator. *)
Lemma parse_from_chunks st s1 s2 rest :
  merge_text (parse_from st (TextChunkEvent s1 :: TextChunkEvent s2 :: rest)).1
  = merge_text (parse_from st (TextChunkEvent (s1 ++ s2) :: rest)).1
  /\ (parse_from st (TextChunkEvent s1 :: TextChunkEvent s2 :: rest)).2
     = (parse_from st (TextChunkEvent (s1 ++ s2) :: rest)).2.
Proof.
  cbn [parse_from parser_step].
  pose proof (process_buffer_chunks (buf st ++ s1) s2 (pending st) (wld st))
    as H.
  rewrite <- app_assoc in H.
  destruct (_process_buffer (buf st ++ s1) _ _) as [[[e1 b1] p1] w1].
  cbn [then_chunk buf pending wld] in H |- *.
  destruct (_process_buffer (b1 ++ s2) p1 w1) as [[[e2 b2] p2] w2].
  destruct (_process_buffer (buf st ++ s1 ++ s2) _ _) as [[[e b] p] w].
  simpl in H. destruct H as (He & -> & -> & ->).
  destruct (parse_from _ rest) as [o st'']. simpl.
  split; [|done]. rewrite app_assoc. by apply merge_text_app_l.
Qed.

Lemma parse_from_congr pre l1 l2 :
  (forall st, merge_text (parse_from st l1).1 = merge_text (parse_from st l2).1
              /\ (parse_from st l1).2 = (parse_from st l2).2) ->
  forall st,
    merge_text (parse_from st (pre ++ l1)).1
    = merge_text (parse_from st (pre ++ l2)).1
    /\ (parse_from st (pre ++ l1)).2 = (parse_from st (pre ++ l2)).2.
Proof.
  intros H. induction pre as [|e pre IH]; intros st; [apply H|].
  simpl. destruct (parser_step st e) as [[o st'] returned].
  destruct returned; [done|].
  specialize (IH st').
  destruct (parse_from st' (pre ++ l1)) as [o1 st1].
  destruct (parse_from st' (pre ++ l2)) as [o2 st2].
  simpl in *. destruct IH as [Hm ->]. split; [|done].
  by apply merge_text_app_r.
Qed.

(** C3 (amended). Chunk-boundary invariance up to the cutting of text:
    for every text [s] and every offset [n], delivering [s[:n]] and
    [s[n:]] as two text chunks gives the same events as delivering [s]
    as one chunk once adjacent text chunks are merged, and leaves the
    generator in the same state (buffer, pending list, registry).  This
    holds anywhere in a stream, for every text, with request ids drawn
    from the same supply. *)
Theorem chunk_boundary_invariance (pre rest : list Event) (s : str) (n : nat)
    (pending0 : pending_list) (w : world) :
  merge_text
    (parse_interactions
       (pre ++ TextChunkEvent (take n s) :: TextChunkEvent (drop n s) :: rest)
       pending0 w).1
  = merge_text
      (parse_interactions (pre ++ TextChunkEvent s :: rest) pending0 w).1
  /\ (parse_interactions
        (pre ++ TextChunkEvent (take n s) :: TextChunkEvent (drop n s) :: rest)
        pending0 w).2
     = (parse_interactions (pre ++ TextChunkEvent s :: rest) pending0 w).2.
Proof.
  unfold parse_interactions. apply parse_from_congr. intros st.
  rewrite <- (take_drop n s) at 3 6. apply parse_from_chunks.
Qed.

(** C3, as stated, fails: the text [ab<ask>q</ask>], well formed and
    with one tag, gives three events when it is cut after its first
    character and two when it is delivered whole. *)
Lemma chunk_split_differs :
  (parse_interactions
     [TextChunkEvent (take 1 (lit "ab<ask>q</ask>"));
      TextChunkEvent (drop 1 (lit "ab<ask>q</ask>"))] [] empty_world).1
  <> (parse_interactions
        [TextChunkEvent (lit "ab<ask>q</ask>")] [] empty_world).1.
Proof. vm_compute. discriminate. Qed.

(** C4. Done suppression.  When the inner stream reaches its
    [DoneEvent] (the first one; what follows is never read), then
    - if the pending list is not empty, the output has no [DoneEvent];
    - an interaction event that the parser itself put in the output has
      an entry in the pending list;
    - if the pending list is empty, the output ends with the
      [DoneEvent], has no other, and the text chunks before it carry all
      the text of the stream: nothing stays held back. *)
Theorem done_suppression (pre post : list Event) (pending0 : pending_list)
    (w : world) :
  Forall not_done pre ->
  let out := (parse_interactions (pre ++ DoneEvent :: post) pending0 w).1 in
  let st := (parse_interactions (pre ++ DoneEvent :: post) pending0 w).2 in
  (pending st <> [] -> Forall not_done out)
  /\ (Forall not_interaction pre ->
      Exists (fun e => is_interaction e = true) out -> pending st <> [])
  /\ (pending st = [] ->
      exists body, out = body ++ [DoneEvent] /\ Forall not_done body
                   /\ text_of body = text_of pre).
Proof.
  intros Hpre. unfold parse_interactions.
  rewrite (parse_from_app pre (DoneEvent :: post) _ Hpre).
  pose proof (parse_from_other pre {| buf := []; pending := pending0; wld := w |}
                Hpre) as H1.
  destruct (parse_from _ pre) as [o1 st1].
  destruct H1 as (Hnd1 & l1 & Hp1 & Hl1). cbn [buf pending] in Hp1, Hl1.
  cbn [parse_from].
  pose proof (parser_step_done st1) as H2.
  pose proof (parser_step_returned st1 DoneEvent) as Hr.
  destruct (parser_step st1 DoneEvent) as [[o2 st2] returned].
  simpl in Hr. subst returned.
  destruct H2 as (body & -> & Hndb & l2 & Hp2 & Hl2).
  cbn [fst snd]. rewrite Hp1 in Hp2.
  split; [|split].
  - intros Hne. destruct (pending st2); [done|].
    rewrite app_nil_r. by apply Forall_app.
  - intros Hni Hex Hnil. rewrite Hnil in Hp2. symmetry in Hp2.
    apply app_eq_nil in Hp2 as [[-> ->]%app_eq_nil ->].
    destruct (Hl1 eq_refl) as [_ Hni1]. destruct (Hl2 eq_refl) as [_ Hni2].
    rewrite Hnil in Hex.
    assert (Hall : Forall not_interaction (o1 ++ body ++ [DoneEvent])).
    { rewrite !Forall_app. repeat split; auto. by repeat constructor. }
    apply Exists_exists in Hex as (x & Hx & Hxi).
    rewrite Forall_forall in Hall. specialize (Hall x Hx).
    unfold not_interaction in Hall. congruence.
  - intros Hnil. rewrite Hnil in Hp2 |- *. symmetry in Hp2.
    apply app_eq_nil in Hp2 as [[-> ->]%app_eq_nil ->].
    destruct (Hl1 eq_refl) as [Htx1 _]. destruct (Hl2 eq_refl) as [Htx2 _].
    exists (o1 ++ body). split; [by rewrite app_assoc|].
    split; [by apply Forall_app|].
    rewrite text_of_app, Htx2. exact Htx1.
Qed.

(** C4, at a stream that ends right after a question: the question is
    pending and no [DoneEvent] comes out. *)
Lemma done_suppression_witness :
  Forall not_done [TextChunkEvent (lit "Pick: <ask>Which?</ask>")]
  /\ let out := (parse_interactions
                   ([TextChunkEvent (lit "Pick: <ask>Which?</ask>")]
                    ++ DoneEvent :: []) [] empty_world).1 in
     let st := (parse_interactions
                  ([TextChunkEvent (lit "Pick: <ask>Which?</ask>")]
                   ++ DoneEvent :: []) [] empty_world).2 in
     (pending st <> [] -> Forall not_done out)
     /\ (Forall not_interaction [TextChunkEvent (lit "Pick: <ask>Which?</ask>")] ->
         Exists (fun e => is_interaction e = true) out -> pending st <> [])
     /\ (pending st = [] ->
         exists body, out = body ++ [DoneEvent] /\ Forall not_done body
                      /\ text_of body
                         = text_of [TextChunkEvent (lit "Pick: <ask>Which?</ask>")]).
Proof.
  split.
  - repeat constructor.
  - apply (done_suppression [TextChunkEvent (lit "Pick: <ask>Which?</ask>")]
             [] [] empty_world).
    repeat constructor.
Defined.

(** A complete form without a valid child at the head of the buffer
    blocks the parser: whatever text follows, nothing is emitted and
    everything stays in the buffer. *)
Lemma empty_form_blocks buf u p w ce oc :
  _first_tag_pos buf = Some (0, KForm) ->
  find (lit "</ask-form>") buf 0 = Some ce ->
  find (lit ">") buf 0 = Some oc ->
  oc < ce ->
  Regex.finditer FORM_CHILD_RE (drop (oc + 1) (take ce buf)) = [] ->
  _process_buffer (buf ++ u) p w = ([], buf ++ u, p, w).
Proof.
  intros Hf Hce Hoc Hlt Hnone.
  pose proof (first_tag_pos_app _ _ _ u Hf) as Hfu.
  rewrite process_buffer_eq, Hfu.
  assert (extractor KForm (buf ++ u) w = None) as ->; [|done].
  cbn [extractor]. unfold _try_extract_ask_form, FORM_ASK_START_search.
  pose proof (first_tag_pos_kind _ _ _ Hfu) as Hs. cbn [kind_at] in Hs.
  rewrite Hs.
  pose proof (find_Some _ _ _ _ lit_nonempty_form Hce) as (_ & _ & Hlen).
  rewrite (find_app _ _ u _ _ lit_nonempty_form Hce).
  rewrite (find_app _ _ u _ _ lit_nonempty_gt Hoc).
  destruct (ce <=? oc) eqn:E; [done|].
  rewrite (take_app_le buf u ce) by lia. by rewrite Hnone.
Qed.

(** C7, at the failing input: an empty form followed by a complete
    question, then [DoneEvent].  The form is kept in the buffer as if it
    were incomplete, so the question behind it is never extracted: all
    of the text comes out as one chunk at the final flush, no
    interaction is registered and the [DoneEvent] is forwarded. *)
Theorem empty_form_blocks_later_tag :
  parse_interactions
    [TextChunkEvent (lit "<ask-form></ask-form><ask>q</ask>"); DoneEvent]
    [] empty_world
  = ([TextChunkEvent (lit "<ask-form></ask-form><ask>q</ask>"); DoneEvent],
     {| buf := lit "<ask-form></ask-form><ask>q</ask>"; pending := [];
        wld := empty_world |})
  /\ (parse_interactions
        [TextChunkEvent (lit "<ask>q</ask>"); DoneEvent] [] empty_world).1
     = [InteractionRequestEvent 0 (lit "q") IText []].
Proof. split; reflexivity. Qed.

End ParserProps.

(* ===================================================================== *)
(** ** Properties of the interaction registry                             *)
(* ===================================================================== *)

Module RegistryProps.

(** Resolving an id that is not registered changes nothing and raises
    nothing. *)
Lemma resolve_unknown (request_id : uuid) (value : str) (w : world) :
  pending_async w !! request_id = None ->
  resolve_interaction request_id value w = Ok w.
Proof. unfold resolve_interaction. by intros ->. Qed.

(** The first resolve of a registered id puts the value in its queue. *)
Lemma resolve_registered (request_id : uuid) (value : str) (w : world) :
  let w1 := (register_interaction request_id w).2 in
  exists w2,
    resolve_interaction request_id value w1 = Ok w2
    /\ heap w2 !! next_ref w = Some {| items := [value]; maxsize := 1 |}.
Proof.
  unfold resolve_interaction, register_interaction. simpl.
  rewrite !lookup_insert_eq. simpl. eexists. split; [done|].
  simpl. by rewrite lookup_insert_eq.
Qed.

(** C5, at the failing input: an id is registered and resolved twice
    before the turn has taken the first value.  The first resolve
    deposits the value; the second finds the queue of size one full, and
    [put_nowait] raises [QueueFull] to the caller. *)
Theorem second_resolve_raises (request_id : uuid) (v1 v2 : str) (w : world) :
  let w1 := (register_interaction request_id w).2 in
  exists w2,
    resolve_interaction request_id v1 w1 = Ok w2
    /\ resolve_interaction request_id v2 w2 = Raise QueueFull.
Proof.
  unfold resolve_interaction, register_interaction. simpl.
  rewrite !lookup_insert_eq. simpl. eexists. split; [done|].
  simpl. by rewrite !lookup_insert_eq.
Qed.

End RegistryProps.

(* ===================================================================== *)
(** ** Properties of the CLI translation                                  *)
(* ===================================================================== *)

Module CliProps.
Import ClaudeCli Obs Samples.

(** Case analysis on the calls the body of the loop makes. *)
Ltac split_calls :=
  repeat first
    [ progress cbn [bind lift]
    | match goal with
      | |- context [ClaudeCli.get ?k ?d ?j] => destruct (ClaudeCli.get k d j)
      | |- context [is_str ?k ?j] => destruct (is_str k j)
      | |- context [is_dict ?j] => destruct (is_dict j)
      | |- context [as_str ?j] => destruct (as_str j)
      | |- context [iterate ?j] => destruct (iterate j)
      | |- context [hashable ?j] => destruct (hashable j)
      | |- context [result_text_of ?f ?j] => destruct (result_text_of f j)
      | |- context [tools_get ?k ?t] => destruct (tools_get k t) as [[[? ?] ?]|]
      | |- context [record_inputs ?b ?t] => destruct (record_inputs b t)
      | |- context [truthy ?j] => destruct (truthy j)
      | |- context [bool_decide ?P] => destruct (bool_decide P)
      | |- context [session_id_emitted ?s] => destruct (session_id_emitted s)
      | |- context [andb _ _] => progress cbn [andb negb]
      end ].

Lemma close_tool_block_input py_str block t evs t' :
  close_tool_block py_str block t = Ok (evs, t') -> Forall input_empty evs.
Proof.
  unfold close_tool_block. split_calls; try done;
    intros [= <- <-]; by repeat constructor.
Qed.

Lemma close_tools_input py_str blocks t :
  Forall input_empty (close_tools py_str blocks t).1.
Proof.
  revert t. induction blocks as [|b blocks IH]; intros t; simpl; [constructor|].
  destruct (close_tool_block py_str b t) as [[evs t']|e] eqn:E; [|constructor].
  specialize (IH t'). destruct (close_tools py_str blocks t') as [evs' r].
  simpl in *. apply Forall_app. split; [|done].
  by eapply close_tool_block_input.
Qed.

Lemma on_line_input py_str event st :
  match on_line py_str event st with
  | Continue evs _ | Failed evs _ => Forall input_empty evs
  end.
Proof.
  unfold on_line, on_stream_event.
  pose proof (close_tools_input py_str) as Hc.
  split_calls; try by repeat constructor.
  all: match goal with
       | |- context [close_tools ?p ?b ?t] =>
           specialize (Hc b t); destruct (close_tools p b t) as [? []]
       end; done.
Qed.

(** Whatever the lines of the process, no [ToolDoneEvent] of the
    translation carries an input: the recorded input never leaves the
    translator. *)
Lemma tool_done_input_never_set py_str lines :
  Forall input_empty (run py_str lines).
Proof.
  unfold run. generalize init_state.
  induction lines as [|[event|] lines IH]; intros st; simpl;
    [constructor| |done].
  pose proof (on_line_input py_str event st) as H.
  destruct (on_line py_str event st) as [evs st'|evs e].
  - apply Forall_app. by split.
  - apply Forall_app. split; [done|]. by repeat constructor.
Qed.

(** The input recorded for the call when the result line arrives. *)
Lemma input_was_recorded (py_str : json -> str) :
  (fun st => tools_get (jstr "t1") (pending_tools st))
    <$> state_after py_str [tool_start_line; assistant_line]
  = Some (Some (0, jstr "Bash", Some tool_input)).
Proof. reflexivity. Qed.

(** C2, at the failing input: the tool call [t1] is opened, its complete
    input arrives with the assistant line and is recorded, and the
    result line closes the call.  The [ToolDoneEvent] yielded carries the
    empty dict, not the recorded input. *)
Theorem tool_done_drops_recorded_input (py_str : json -> str) :
  run py_str tool_call_lines
  = [ToolStartEvent 0 (lit "Bash") empty_dict;
     ToolDoneEvent 0 (lit "Bash") (lit "file.txt") None empty_dict].
Proof. reflexivity. Qed.

End CliProps.

(* ===================================================================== *)
(** ** Properties of the transport loop                                   *)
(* ===================================================================== *)

Module TransportProps.
Import Handlers.

Lemma lstrip_spaces s :
  Forall (fun ch => is_space ch = true) s -> lstrip s = [].
Proof.
  induction 1 as [|ch s Hch _ IH]; simpl; [done|]. by rewrite Hch.
Qed.

Lemma strip_spaces s :
  Forall (fun ch => is_space ch = true) s -> strip s = [].
Proof. intros H. unfold strip. by rewrite (lstrip_spaces s H). Qed.

(** C10. A [user_message] whose content is empty or made of white space
    only leaves the connection as it was: no task is created, none is
    cancelled, nothing is sent, and the loop goes on. *)
Theorem blank_user_message_ignored (c : conn) (running : bool) (content : str) :
  Forall (fun ch => is_space ch = true) content ->
  ws_step c running (Received (user_message content)) = Ok c.
Proof. intros H. simpl. by rewrite (strip_spaces content H). Qed.

Lemma blank_user_message_ignored_witness :
  Forall (fun ch => is_space ch = true) (lit "   ")
  /\ ws_step
       {| current_stream_task := Some 0; stop_event := false; next_task := 1;
          created := [(0, lit "hi")]; cancelled := []; outbox := [];
          registry := empty_world |}
       true (Received (user_message (lit "   ")))
     = Ok {| current_stream_task := Some 0; stop_event := false; next_task := 1;
             created := [(0, lit "hi")]; cancelled := []; outbox := [];
             registry := empty_world |}.
Proof.
  split.
  - repeat constructor.
  - apply (blank_user_message_ignored _ true (lit "   ")). repeat constructor.
Defined.

(** A message with content, for contrast, cancels the task in flight
    and starts a new one. *)
Lemma user_message_supersedes (c : conn) (t : nat) (content : str) :
  current_stream_task c = Some t -> strip content <> [] ->
  exists c', ws_step c true (Received (user_message content)) = Ok c'
    /\ cancelled c' = cancelled c ++ [t]
    /\ created c' = created c ++ [(next_task c, strip content)]
    /\ current_stream_task c' = Some (next_task c).
Proof.
  intros Ht Hne. simpl. unfold cancel_in_flight. rewrite Ht.
  destruct (strip content) eqn:E; [done|]. simpl. eexists. by split.
Qed.

End TransportProps.

(* ===================================================================== *)
(** ** Properties of [Session.send]                                       *)
(* ===================================================================== *)

Module SessionProps.
Import Session Obs Samples.





End SessionProps.

(* ===================================================================== *)
(** ** Properties of the turn loop                                        *)
(* ===================================================================== *)

Module TurnProps.
Import Parser Session Handlers Obs Samples ParserFacts.

Lemma send_step_messages s a e :
  is_done e = false ->
  messages (state (send_step s a e).1.1) = messages (state s).
Proof.
  by destruct e.
Qed.

Lemma send_step_yields s a e :
  (send_step s a e).2 = match e with SessionIdEvent _ => None | _ => Some e end.
Proof. by destruct e. Qed.

(** An event other than [DoneEvent] leaves the messages as they are,
    and the loop goes on with the next event. *)
Lemma drive_cons_other s a p e evs raised :
  is_done e = false ->
  exists s1 a1 p1 out1,
    messages (state s1) = messages (state s)
    /\ drive s a p (e :: evs) raised
       = (let '(s2, p2, out') := drive s1 a1 p1 evs raised in
          (s2, p2, out1 ++ out')).
Proof.
  intros Hd. destruct e; try done; cbn [drive send_step];
    try (match goal with
         | |- context [parser_step ?p0 ?e0] =>
             pose proof (parser_step_returned p0 e0) as Hr;
             destruct (parser_step p0 e0) as [[out p1] ret];
             simpl in Hr; subst ret
         end;
         eexists _, _, p1, out; split; [|reflexivity]; done).
  exists {| state := set_cli_session_id cli_session_id0 (state s);
            _store := _store s |}, a, p, [].
  split; [done|]. by destruct (drive _ _ _ _ _) as [[? ?] ?].
Qed.

(** A provider call that reaches its [DoneEvent] appends exactly one
    message, an assistant message, whatever the parser does with the
    events. *)
Lemma drive_reaches_done evs :
  Exists (fun e => is_done e = true) evs ->
  forall s a p raised,
    exists m, is_assistant m = true
      /\ messages (state (drive s a p evs raised).1.1)
         = messages (state s) ++ [m].
Proof.
  induction evs as [|e evs IH]; intros Hex s a p raised.
  - by apply Exists_nil in Hex.
  - destruct (is_done e) eqn:Hd.
    + destruct e; try done. cbn [drive send_step].
      pose proof (parser_step_returned p DoneEvent) as Hr.
      destruct (parser_step p DoneEvent) as [[out p1] returned].
      simpl in Hr. subst returned. simpl.
      by exists (assistant_message a).
    + apply Exists_cons in Hex as [He|Hex]; [congruence|].
      destruct (drive_cons_other s a p e evs raised Hd)
        as (s1 & a1 & p1 & out1 & Hm & ->).
      destruct (IH Hex s1 a1 p1 raised) as (m & Hm1 & Hm2).
      destruct (drive s1 a1 p1 evs raised) as [[s2 p2] out'].
      simpl in *. exists m. by rewrite Hm2, Hm.
Qed.

Lemma count_assistant_app ms m :
  count_assistant (ms ++ [m])
  = count_assistant ms + (if is_assistant m then 1 else 0).
Proof.
  unfold count_assistant. rewrite filter_app, length_app. f_equal.
  rewrite filter_cons. by destruct (is_assistant m).
Qed.

(** With every provider stream reaching its [DoneEvent], the number of
    assistant messages the turn loop adds is the number of calls of
    [session.send] it makes. *)
Lemma calls_and_assistant_messages (scripts : list script)
    (answers : list (option str)) (s : session) (w : world) (message : str)
    (sent : list ws_msg) (calls : nat) (r : turn_result) :
  Forall reaches_done scripts ->
  turn_loop scripts answers s w message sent calls = Some r ->
  exists k,
    tr_calls r = calls + S k
    /\ count_assistant (messages (state (tr_session r)))
       = count_assistant (messages (state s)) + S k.
Proof.
  revert answers s w message sent calls.
  induction scripts as [|sc scripts IH];
    intros answers s w message sent calls Hall Hrun; [done|].
  apply Forall_cons in Hall as [Hsc Hall]. cbn [turn_loop] in Hrun.
  destruct (drive_reaches_done (yields sc) Hsc (send_begin message s)
              empty_accum {| buf := []; pending := []; wld := w |} (raises sc))
    as (m & Hm & Hms).
  destruct (drive _ _ _ (yields sc) (raises sc)) as [[s' p] out].
  cbn [fst snd] in Hms.
  assert (Hcount : count_assistant (messages (state s'))
                   = S (count_assistant (messages (state s)))).
  { rewrite Hms, count_assistant_app, Hm. simpl.
    rewrite count_assistant_app. simpl. lia. }
  destruct (pending p) as [|[req_id q] rest].
  - injection Hrun as <-. exists 0. simpl. split; lia.
  - destruct (await_answer q _ (wld p)) as [message' w'].
    destruct (IH _ _ _ _ _ _ Hall Hrun) as (k & Hcalls & Hk).
    exists (S k). split; lia.
Qed.

Lemma ask_then_reply_runs : ask_then_reply_run = Some ask_then_reply_result.
Proof. vm_compute. reflexivity. Qed.


(** C1, as stated, fails: in a turn with one interaction pause two
    assistant messages are persisted, one per provider call, each with
    the text of its own call; none holds the content of the whole
    turn. *)
Lemma pause_persists_two_messages :
  (fun r => (tr_calls r, messages (state (tr_session r)),
             _store (tr_session r) !! "s1"))
    <$> turn_loop ask_then_reply [Some (lit "B")] fresh_session empty_world
          (lit "hi") [] 0
  = Some
      (2,
       [{| msg_role := User; msg_content := lit "hi"; msg_tool_calls := [] |};
        {| msg_role := Assistant;
           msg_content := lit "Sure. <ask>Which?</ask>";
           msg_tool_calls := [] |};
        {| msg_role := User; msg_content := lit "B"; msg_tool_calls := [] |};
        {| msg_role := Assistant; msg_content := lit "ok";
           msg_tool_calls := [] |}],
       Some
         {| sid := "s1";
            messages :=
              [{| msg_role := User; msg_content := lit "hi";
                  msg_tool_calls := [] |};
               {| msg_role := Assistant;
                  msg_content := lit "Sure. <ask>Which?</ask>";
                  msg_tool_calls := [] |};
               {| msg_role := User; msg_content := lit "B";
                  msg_tool_calls := [] |};
               {| msg_role := Assistant; msg_content := lit "ok";
                  msg_tool_calls := [] |}];
            cli_session_id := None |}).
Proof. vm_compute. reflexivity. Qed.

End TurnProps.

(* ===================================================================== *)
(** ** Further properties of the tag parser                               *)
(* ===================================================================== *)

Module ParserExtra.
Import Parser Obs Views TextFacts TagFacts ScanFacts LoopFacts ChunkFacts
       ParserFacts.

Local Arguments lit : simpl never.

(** X1. [_first_tag_pos] reports the leftmost opening of a tag of either
    kind: a tag of the kind reported opens at the position reported,
    inside the buffer, and no tag opens before it; when it reports
    nothing, no tag opens anywhere in the buffer. *)
Theorem first_tag_pos_leftmost (b : str) :
  match _first_tag_pos b with
  | Some (p, k) =>
      p < length b /\ kind_at k (drop p b) = true
      /\ forall j, j < p -> tag_at (drop j b) = false
  | None => forall j, tag_at (drop j b) = false
  end.
Proof.
  destruct (_first_tag_pos b) as [[p k]|] eqn:E.
  - split; [by eapply first_tag_pos_lt|]. split.
    + apply first_tag_pos_kind in E. by apply search_Some in E as (_ & ? & _).
    + by apply first_tag_pos_Some in E as (_ & _ & ?).
  - by apply first_tag_pos_None.
Qed.

(** X2. The flush of a buffer splits it in two: what is held back is at
    most nine characters long and, when not empty, a beginning of
    [<ask-form]; it is the longest such end of the buffer, for no
    earlier position starts a partial prefix. *)
Theorem held_back_suffix (b : str) :
  b = (flush_safe b).1 ++ (flush_safe b).2
  /\ length (flush_safe b).2 <= 9
  /\ ((flush_safe b).2 <> [] ->
      exists l, lit "<ask-form" = (flush_safe b).2 ++ l)
  /\ forall j, j < length (flush_safe b).1 -> partial_at (drop j b) = false.
Proof.
  destruct (flush_safe b) as [safe rest] eqn:E. cbn [fst snd].
  pose proof (flush_safe_app _ _ _ E) as Happ.
  pose proof (flush_safe_length _ _ _ E) as Hlen.
  rewrite partial_ask_suffix_search in Hlen.
  assert (Hrest : rest = drop (length safe) b)
    by (by rewrite Happ, drop_app_length).
  assert (Hb : length b = length safe + length rest)
    by (by rewrite Happ at 1; rewrite length_app).
  split; [done|].
  destruct (search partial_at b) as [i|] eqn:Es.
  - apply search_Some in Es as (Hi & Hp & Hmin).
    assert (length safe = i) as <- by lia. rewrite <- Hrest in Hp.
    apply partial_at_true in Hp as (Hne & l & Hl).
    split; [|split; [by eauto|done]].
    apply (f_equal length) in Hl. rewrite length_app in Hl.
    change (length (lit "<ask-form")) with 9 in Hl. lia.
  - destruct rest; [|done]. split; [simpl; lia|]. split; [done|].
    intros j _. by eapply search_None in Es.
Qed.

(** *** Plain text *)

Lemma plain_drop s j : plain s -> plain (drop j s).
Proof. apply Forall_drop. Qed.

Lemma plain_not_open s : plain s -> open_at s = false.
Proof.
  intros Hs. destruct (open_at s) eqn:E; [|done]. exfalso.
  assert (exists r, s = "<"%char :: r) as [r ->].
  { unfold open_at, tag_at, bare_ask_at, form_ask_at in E.
    rewrite !orb_true_iff in E. destruct E as [[E|E]|E].
    - apply lit_ahead_true in E as (c & r & -> & _). by eexists.
    - apply lit_ahead_true in E as (c & r & -> & _). by eexists.
    - apply partial_at_true in E as (Hne & l & Hl).
      destruct s as [|c s]; [done|]. injection Hl as <- _. by eexists. }
  by apply Forall_cons in Hs as [? _].
Qed.

Lemma process_buffer_plain s p w :
  plain s -> _process_buffer s p w = (append_text [] s, [], p, w).
Proof.
  intros Hs. rewrite process_buffer_eq.
  assert (Hopen : forall j, open_at (drop j s) = false)
    by (intros j; by apply plain_not_open, plain_drop).
  assert (_first_tag_pos s = None) as ->.
  { rewrite first_tag_pos_search.
    assert (search tag_at s = None) as ->; [|done].
    apply search_None. intros j. by apply open_at_tag. }
  unfold flush_safe. rewrite partial_ask_suffix_search.
  assert (search partial_at s = None) as ->; [|done].
  apply search_None. intros j. by apply open_at_partial.
Qed.

(** X3. Text without [<] goes through the parser as it comes: on a stream
    without [DoneEvent] whose text chunks are all free of [<], the output
    is the input less its empty text chunks, the buffer stays empty, and
    the pending list and the registry are untouched. *)
Theorem plain_text_passes_through (inner : list Event)
    (pending0 : pending_list) (w : world) :
  Forall not_done inner -> Forall text_plain inner ->
  parse_interactions inner pending0 w
  = (filter (fun e => has_content e = true) inner,
     {| buf := []; pending := pending0; wld := w |}).
Proof.
  unfold parse_interactions.
  induction inner as [|e inner IH]; intros Hnd Hpl; [done|].
  apply Forall_cons in Hnd as [He Hnd]. apply Forall_cons in Hpl as [Hp Hpl].
  cbn [parse_from].
  assert (Hstep : parser_step {| buf := []; pending := pending0; wld := w |} e
                  = (filter (fun e => has_content e = true) [e],
                     {| buf := []; pending := pending0; wld := w |}, false)).
  { destruct e; try done. cbn [parser_step buf pending wld app].
    rewrite process_buffer_plain by done. by destruct content. }
  rewrite Hstep, (IH Hnd Hpl).
  change (e :: inner) with ([e] ++ inner). by rewrite filter_app.
Qed.

Lemma plain_text_passes_through_witness :
  Forall not_done [TextChunkEvent (lit "a > b"); TextChunkEvent [];
                   ErrorEvent (lit "x")]
  /\ Forall text_plain [TextChunkEvent (lit "a > b"); TextChunkEvent [];
                        ErrorEvent (lit "x")]
  /\ parse_interactions
       [TextChunkEvent (lit "a > b"); TextChunkEvent []; ErrorEvent (lit "x")]
       [] empty_world
     = (filter (fun e => has_content e = true)
          [TextChunkEvent (lit "a > b"); TextChunkEvent [];
           ErrorEvent (lit "x")],
        {| buf := []; pending := []; wld := empty_world |}).
Proof.
  assert (H1 : Forall not_done [TextChunkEvent (lit "a > b"); TextChunkEvent [];
                                ErrorEvent (lit "x")])
    by by repeat constructor.
  assert (H2 : Forall text_plain [TextChunkEvent (lit "a > b");
                                  TextChunkEvent []; ErrorEvent (lit "x")]).
  { repeat constructor; done. }
  split; [exact H1|]. split; [exact H2|].
  exact (plain_text_passes_through _ [] empty_world H1 H2).
Defined.

(** *** What goes through, and what is pending *)

Lemma filter_passes_append_text t :
  filter (fun e => passes e = true) (append_text [] t) = [].
Proof. unfold append_text. by destruct (nonempty t). Qed.

Lemma interaction_ids_append_text t : interaction_ids (append_text [] t) = [].
Proof. unfold append_text. by destruct (nonempty t). Qed.

Lemma interaction_ids_app a b :
  interaction_ids (a ++ b) = interaction_ids a ++ interaction_ids b.
Proof. unfold interaction_ids. by rewrite filter_app, fmap_app. Qed.

(** The events of [_process_buffer] are text chunks and interactions,
    and the pending list grows by the ids of the interactions, in
    order. *)
Lemma process_buffer_ids b p w :
  filter (fun e => passes e = true) (_process_buffer b p w).1.1.1 = []
  /\ (_process_buffer b p w).1.2.*1
     = p.*1 ++ interaction_ids (_process_buffer b p w).1.1.1.
Proof.
  remember (length b) as n eqn:Hn. revert b p w Hn.
  induction n as [n IH] using lt_wf_ind. intros b p w ->.
  rewrite process_buffer_eq.
  destruct (_first_tag_pos b) as [[fp k]|] eqn:Ef.
  - destruct (extractor k b w) as [[[[[before ev] q] after] w']|] eqn:Ee.
    + apply extractor_Some in Ee as (_ & _ & _ & Hlen & Hev).
      specialize (IH (length after) Hlen after
                     (p ++ [(request_id_of ev, q)]) w' eq_refl).
      destruct (_process_buffer after _ w') as [[[e b'] p'] w''].
      cbn [with_events fst snd] in IH |- *. destruct IH as [IH1 IH2].
      rewrite !filter_app, filter_passes_append_text, IH1.
      rewrite !interaction_ids_app, interaction_ids_append_text, IH2.
      rewrite fmap_app, <- !app_assoc. cbn [app].
      split.
      * rewrite filter_cons, filter_nil. unfold passes. rewrite Hev.
        by rewrite andb_false_r.
      * unfold interaction_ids at 2. rewrite filter_cons, filter_nil.
        by rewrite Hev.
    + cbn [fst snd]. destruct (0 <? fp); cbn; by rewrite app_nil_r.
  - destruct (flush_safe b) as [safe rest]. cbn [fst snd].
    rewrite filter_passes_append_text, interaction_ids_append_text.
    by rewrite app_nil_r.
Qed.

Lemma flush_before_ids b :
  filter (fun e => passes e = true) (flush_before b).1 = []
  /\ interaction_ids (flush_before b).1 = [].
Proof.
  unfold flush_before. destruct (_first_tag_pos b) as [[fp k]|].
  - by destruct (0 <? fp).
  - destruct (flush_safe b) as [safe rest]. cbn [fst].
    by rewrite filter_passes_append_text, interaction_ids_append_text.
Qed.

Lemma parser_step_ids st event :
  filter (fun e => passes e = true) (parser_step st event).1.1
    `prefix_of` filter (fun e => passes e = true) [event]
  /\ (is_done event = false ->
      filter (fun e => passes e = true) (parser_step st event).1.1
      = filter (fun e => passes e = true) [event])
  /\ (is_interaction event = false ->
      (pending (parser_step st event).1.2).*1
      = (pending st).*1 ++ interaction_ids (parser_step st event).1.1).
Proof.
  destruct event; cbn [parser_step is_done];
    try (pose proof (flush_before_ids (buf st)) as [Hf1 Hf2];
         destruct (flush_before (buf st)) as [flushed b0];
         cbn [fst snd] in *;
         rewrite filter_app, Hf1, interaction_ids_app, Hf2; cbn [app];
         split; [done|]; split; [done|]; intros Hi;
         first [discriminate Hi | cbn [pending]; by rewrite app_nil_r]).
  - pose proof (process_buffer_ids (buf st ++ content) (pending st) (wld st))
      as [H1 H2].
    destruct (_process_buffer _ _ _) as [[[e b] p] w]. cbn [fst snd] in *.
    rewrite H1. split; [done|]. split; [done|]. intros _. exact H2.
  - pose proof (flush_before_ids (buf st)) as [Hf1 Hf2].
    destruct (flush_before (buf st)) as [flushed b0]. cbn [fst snd] in *.
    pose proof (process_buffer_ids b0 (pending st) (wld st)) as [H1 H2].
    destruct (_process_buffer _ _ _) as [[[e b] p] w]. cbn [fst snd] in *.
    split; [|split; [done|]].
    + destruct p; cbn [fst];
        rewrite !filter_app, Hf1, H1, filter_passes_append_text; cbn [app].
      * done.
      * apply prefix_nil.
    + intros _.
      destruct p; cbn [fst snd pending];
        rewrite !interaction_ids_app, Hf2, interaction_ids_append_text;
        cbn [app]; rewrite ?interaction_ids_app, ?app_nil_r; exact H2.
Qed.

(** X4. The events that are neither text nor interactions go through the
    parser unchanged and in order: those of the output are a beginning
    of those of the input, and all of them when the stream has no
    [DoneEvent] (at which the parser stops). *)
Theorem other_events_in_order (inner : list Event) (pending0 : pending_list)
    (w : world) :
  filter (fun e => passes e = true) (parse_interactions inner pending0 w).1
    `prefix_of` filter (fun e => passes e = true) inner
  /\ (Forall not_done inner ->
      filter (fun e => passes e = true) (parse_interactions inner pending0 w).1
      = filter (fun e => passes e = true) inner).
Proof.
  unfold parse_interactions.
  generalize {| buf := []; pending := pending0; wld := w |}.
  induction inner as [|e inner IH]; intros st; [done|].
  cbn [parse_from].
  pose proof (parser_step_ids st e) as (Hpre & Heq & _).
  pose proof (parser_step_returned st e) as Hr.
  destruct (parser_step st e) as [[o st'] returned]. cbn [fst snd] in *.
  subst returned. change (e :: inner) with ([e] ++ inner).
  rewrite (filter_app _ [e] inner).
  destruct (is_done e) eqn:Hd.
  - cbn [fst]. split; [by apply prefix_app_r|].
    intros [He _]%Forall_cons. unfold not_done in He. congruence.
  - specialize (IH st'). destruct (parse_from st' inner) as [o' st''].
    cbn [fst] in *. destruct IH as [IH1 IH2].
    rewrite filter_app, (Heq eq_refl). split; [by apply prefix_app|].
    intros [_ Hnd]%Forall_cons. by rewrite IH2.
Qed.

(** X5. The pending list and the interactions of the output match one for
    one: on a stream that brings no interaction event of its own, the
    request ids of the pending list after the run are those it had
    before, followed by the ids of the interaction events of the output,
    in the order of the output. *)
Theorem pending_matches_interactions (inner : list Event)
    (pending0 : pending_list) (w : world) :
  Forall not_interaction inner ->
  (pending (parse_interactions inner pending0 w).2).*1
  = pending0.*1 ++ interaction_ids (parse_interactions inner pending0 w).1.
Proof.
  unfold parse_interactions.
  change pending0 with (pending {| buf := []; pending := pending0; wld := w |})
    at 2.
  generalize {| buf := []; pending := pending0; wld := w |}.
  induction inner as [|e inner IH]; intros st Hni.
  - simpl. by rewrite app_nil_r.
  - apply Forall_cons in Hni as [He Hni]. cbn [parse_from].
    pose proof (parser_step_ids st e) as (_ & _ & Hp).
    destruct (parser_step st e) as [[o st'] returned]. cbn [fst snd] in *.
    specialize (Hp He). destruct returned; [done|].
    specialize (IH st' Hni). destruct (parse_from st' inner) as [o' st''].
    cbn [fst snd] in *.
    by rewrite IH, Hp, interaction_ids_app, app_assoc.
Qed.

Lemma pending_matches_interactions_witness :
  Forall not_interaction
    [TextChunkEvent (lit "a<ask>x</ask>b<ask>y</ask>"); DoneEvent]
  /\ (pending (parse_interactions
                 [TextChunkEvent (lit "a<ask>x</ask>b<ask>y</ask>"); DoneEvent]
                 [] empty_world).2).*1
     = ([] : pending_list).*1 ++ interaction_ids
                  (parse_interactions
                     [TextChunkEvent (lit "a<ask>x</ask>b<ask>y</ask>");
                      DoneEvent] [] empty_world).1.
Proof.
  assert (H : Forall not_interaction
                [TextChunkEvent (lit "a<ask>x</ask>b<ask>y</ask>"); DoneEvent])
    by by repeat constructor.
  split; [exact H|].
  exact (pending_matches_interactions _ [] empty_world H).
Defined.

(** *** Any cutting of a text *)

Lemma parse_from_pieces st piece pieces rest :
  merge_text
    (parse_from st ((TextChunkEvent <$> piece :: pieces) ++ rest)).1
  = merge_text
      (parse_from st (TextChunkEvent (concat (piece :: pieces)) :: rest)).1
  /\ (parse_from st ((TextChunkEvent <$> piece :: pieces) ++ rest)).2
     = (parse_from st (TextChunkEvent (concat (piece :: pieces)) :: rest)).2.
Proof.
  revert piece. induction pieces as [|b pieces IH]; intros a.
  - simpl. by rewrite app_nil_r.
  - destruct (ParserProps.parse_from_chunks st a b
                ((TextChunkEvent <$> pieces) ++ rest)) as [H1 H2].
    destruct (IH (a ++ b)) as [H3 H4].
    cbn [fmap list_fmap app concat] in *.
    rewrite <- app_assoc in H3, H4.
    split; [by rewrite H1, H3|by rewrite H2, H4].
Qed.

(** X6. A text delivered in any number of pieces, cut anywhere, gives the
    same events as the text delivered whole once adjacent text chunks
    are merged, and leaves the generator in the same state, wherever in
    a stream the deliveries stand. *)
Theorem any_chunking (pre rest : list Event) (piece : str) (pieces : list str)
    (pending0 : pending_list) (w : world) :
  merge_text
    (parse_interactions
       (pre ++ (TextChunkEvent <$> piece :: pieces) ++ rest) pending0 w).1
  = merge_text
      (parse_interactions
         (pre ++ TextChunkEvent (concat (piece :: pieces)) :: rest)
         pending0 w).1
  /\ (parse_interactions
        (pre ++ (TextChunkEvent <$> piece :: pieces) ++ rest) pending0 w).2
     = (parse_interactions
          (pre ++ TextChunkEvent (concat (piece :: pieces)) :: rest)
          pending0 w).2.
Proof.
  unfold parse_interactions. apply ParserProps.parse_from_congr.
  intros st. apply parse_from_pieces.
Qed.

(** *** Registration *)

Lemma extractor_registers k b w before ev q after w' :
  extractor k b w = Some (before, ev, q, after, w') ->
  request_id_of ev = next_uuid w /\ q = next_ref w
  /\ next_uuid w' = S (next_uuid w) /\ next_ref w' = S (next_ref w)
  /\ pending_async w' = <[next_uuid w := next_ref w]> (pending_async w)
  /\ heap w' = <[next_ref w := new_queue 1]> (heap w).
Proof.
  destruct k; cbn [extractor].
  - unfold _try_extract_bare_ask.
    destruct (BARE_ASK_START_search b) as [pos|]; [|done].
    destruct (find _ b pos) as [ce|]; [|done].
    destruct (Regex.rmatch ASK_RE _) as [[m ?]|]; [|done].
    cbn. intros [= <- <- <- <- <-]. done.
  - unfold _try_extract_ask_form.
    destruct (FORM_ASK_START_search b) as [pos|]; [|done].
    destruct (find _ b pos) as [ce|]; [|done].
    destruct (find _ b pos) as [oc|]; [|done].
    destruct (ce <=? oc); [done|].
    destruct (imap form_question _) as [|fq fqs]; [done|].
    cbn. intros [= <- <- <- <- <-]. done.
Qed.

Lemma registered_extend w w' l r q :
  registered w l ->
  r = next_uuid w -> q = next_ref w ->
  next_uuid w' = S (next_uuid w) -> next_ref w' = S (next_ref w) ->
  pending_async w' = <[next_uuid w := next_ref w]> (pending_async w) ->
  heap w' = <[next_ref w := new_queue 1]> (heap w) ->
  registered w' (l ++ [(r, q)]).
Proof.
  intros Hreg Er Eq Hu Hr Hp Hh r0 q0 [Hin|Hin]%elem_of_app.
  - destruct (Hreg r0 q0 Hin) as (Hlt1 & Hlt2 & Hl1 & Hl2).
    rewrite Hu, Hr, Hp, Hh.
    rewrite lookup_insert_ne by lia. rewrite lookup_insert_ne by lia.
    repeat split; try done; lia.
  - apply list_elem_of_singleton in Hin. injection Hin as -> ->. subst r q.
    rewrite Hu, Hr, Hp, Hh, !lookup_insert_eq. repeat split; try done; lia.
Qed.

Lemma process_buffer_registered b p w l :
  registered w l ->
  exists l', (_process_buffer b p w).1.2 = p ++ l'
             /\ registered (_process_buffer b p w).2 (l ++ l').
Proof.
  remember (length b) as n eqn:Hn. revert b p w l Hn.
  induction n as [n IH] using lt_wf_ind. intros b p w l -> Hreg.
  rewrite process_buffer_eq.
  destruct (_first_tag_pos b) as [[fp k]|] eqn:Ef.
  - destruct (extractor k b w) as [[[[[before ev] q] after] w']|] eqn:Ee.
    + pose proof (extractor_registers _ _ _ _ _ _ _ _ Ee)
        as (Hid & Hq & Hu & Hr & Hp & Hh).
      apply extractor_Some in Ee as (_ & _ & _ & Hlen & _).
      destruct (IH (length after) Hlen after (p ++ [(request_id_of ev, q)])
                   w' (l ++ [(request_id_of ev, q)]) eq_refl)
        as (l' & Hl' & Hreg').
      { by eapply registered_extend. }
      destruct (_process_buffer after _ w') as [[[e b'] p'] w''].
      cbn [with_events fst snd] in *.
      exists ((request_id_of ev, q) :: l'). rewrite Hl', <- !app_assoc.
      split; [done|]. by rewrite <- app_assoc in Hreg'.
    + exists []. by rewrite !app_nil_r.
  - destruct (flush_safe b) as [safe rest]. exists []. by rewrite !app_nil_r.
Qed.

Lemma parser_step_registered st event l :
  registered (wld st) l ->
  exists l', pending (parser_step st event).1.2 = pending st ++ l'
             /\ registered (wld (parser_step st event).1.2) (l ++ l').
Proof.
  intros Hreg.
  destruct event; cbn [parser_step];
    try (destruct (flush_before (buf st)) as [flushed b0]; cbn [fst snd];
         exists []; by rewrite !app_nil_r).
  - destruct (process_buffer_registered (buf st ++ content) (pending st)
                (wld st) l Hreg) as (l' & Hl' & Hreg').
    destruct (_process_buffer _ _ _) as [[[e b] p] w]. cbn [fst snd] in *.
    by exists l'.
  - destruct (flush_before (buf st)) as [flushed b0]. cbn [is_done].
    destruct (process_buffer_registered b0 (pending st) (wld st) l Hreg)
      as (l' & Hl' & Hreg').
    destruct (_process_buffer _ _ _) as [[[e b] p] w]. cbn [fst snd] in *.
    exists l'. by destruct p.
Qed.


(** *** What an extraction takes out of the buffer *)

Lemma kind_at_open k t :
  kind_at k t = true -> exists c r, t = open_lit k ++ c :: r.
Proof.
  destruct k; cbn [kind_at open_lit]; unfold bare_ask_at, form_ask_at;
    intros (c & r & -> & _)%lit_ahead_true; by eauto.
Qed.

Lemma slice_tag (b : str) (pos ce n : nat) (opening closing : str) c r :
  drop pos b = opening ++ c :: r ->
  pos <= ce -> startswith closing (drop ce b) = true ->
  length closing = n -> 0 < length opening <= n ->
  b = take pos b ++ drop pos (take (ce + n) b) ++ drop (ce + n) b
  /\ startswith opening (drop pos (take (ce + n) b)) = true
  /\ endswith closing (drop pos (take (ce + n) b)) = true.
Proof.
  intros Hopen Hle [r' Hclose]%startswith_true Hn Hlen.
  assert (Hce : ce + n <= length b).
  { apply (f_equal length) in Hclose.
    rewrite length_drop, length_app in Hclose. lia. }
  split; [|split].
  - rewrite drop_take_drop by lia. by rewrite take_drop.
  - rewrite skipn_firstn_comm, Hopen. apply startswith_true.
    exists (take (ce + n - pos - length opening) (c :: r)).
    rewrite take_app. f_equal. apply take_ge. lia.
  - apply endswith_true. exists (drop pos (take ce b)).
    rewrite <- take_take_drop, Hclose, <- Hn, take_app_length.
    rewrite drop_app_le; [done|]. rewrite length_take. lia.
Qed.

Lemma extractor_partition (k : tag_kind) (b : str) (w : world)
    (before : str) (ev : Event) (q : qref) (after : str) (w' : world) :
  extractor k b w = Some (before, ev, q, after, w') ->
  exists tag,
    b = before ++ tag ++ after
    /\ startswith (open_lit k) tag = true
    /\ endswith (close_lit k) tag = true
    /\ (forall j, j < length before -> kind_at k (drop j b) = false)
    /\ is_interaction ev = true.
Proof.
  intros He. pose proof (extractor_Some _ _ _ _ _ _ _ _ He)
    as (pos & Hs & -> & _ & Hev).
  apply search_Some in Hs as (Hpos & Hk & Hmin).
  destruct (kind_at_open _ _ Hk) as (c & r & Hopen).
  assert (Hmin' : forall j, j < length (take pos b) ->
                            kind_at k (drop j b) = false).
  { intros j Hj. apply Hmin. rewrite length_take in Hj. lia. }
  destruct k; cbn [extractor] in He.
  - unfold _try_extract_bare_ask, BARE_ASK_START_search in He.
    destruct (search bare_ask_at b) as [pos'|] eqn:Es; [|done].
    assert (pos' = pos) as ->.
    { destruct (find _ b pos') as [ce|]; [|done].
      destruct (Regex.rmatch ASK_RE _) as [[m ?]|]; [|done].
      cbn in He. injection He as He _ _ _ _.
      apply search_Some in Es as (Hp' & _ & _).
      apply (f_equal length) in He. rewrite !length_take in He. lia. }
    destruct (find (lit "</ask>") b pos) as [ce|] eqn:Ef; [|done].
    destruct (find_Some _ _ _ _ lit_nonempty_ask Ef) as (Hle & Hc & _).
    destruct (Regex.rmatch ASK_RE _) as [[m ?]|]; [|done].
    cbn in He. injection He as _ _ <- _.
    exists (drop pos (take (ce + 6) b)).
    destruct (slice_tag b pos ce 6 (lit "<ask") (lit "</ask>") c r)
      as (H1 & H2 & H3); try done; try (vm_compute; lia).
  - unfold _try_extract_ask_form, FORM_ASK_START_search in He.
    destruct (search form_ask_at b) as [pos'|] eqn:Es; [|done].
    assert (pos' = pos) as ->.
    { destruct (find _ b pos') as [ce|]; [|done].
      destruct (find _ b pos') as [oc|]; [|done].
      destruct (ce <=? oc); [done|].
      destruct (imap form_question _) as [|fq fqs]; [done|].
      cbn in He. injection He as He _ _ _ _.
      apply search_Some in Es as (Hp' & _ & _).
      apply (f_equal length) in He. rewrite !length_take in He. lia. }
    destruct (find (lit "</ask-form>") b pos) as [ce|] eqn:Ef; [|done].
    destruct (find_Some _ _ _ _ lit_nonempty_form Ef) as (Hle & Hc & _).
    destruct (find (lit ">") b pos) as [oc|]; [|done].
    destruct (ce <=? oc); [done|].
    destruct (imap form_question _) as [|fq fqs]; [done|].
    cbn in He. injection He as _ _ <- _.
    exists (drop pos (take (ce + 11) b)).
    destruct (slice_tag b pos ce 11 (lit "<ask-form") (lit "</ask-form>") c r)
      as (H1 & H2 & H3); try done; try (vm_compute; lia).
Qed.

(** X8. An extraction cuts the buffer in three: the text before the tag,
    the tag and the text after it, nothing lost and nothing added.  The
    tag starts with the opening and ends with the closing text of its
    kind, no tag of that kind opens in the text before it, and the event
    made is an interaction. *)
Theorem extraction_splits_buffer (k : tag_kind) (b : str) (w : world)
    (before : str) (ev : Event) (q : qref) (after : str) (w' : world) :
  extractor k b w = Some (before, ev, q, after, w') ->
  exists tag,
    b = before ++ tag ++ after
    /\ startswith (open_lit k) tag = true
    /\ endswith (close_lit k) tag = true
    /\ (forall j, j < length before -> kind_at k (drop j b) = false)
    /\ is_interaction ev = true.
Proof. apply extractor_partition. Qed.

Lemma extraction_splits_buffer_witness :
  extractor KAsk (lit "Pick: <ask>Which?</ask> bye") empty_world
  = Some (lit "Pick: ", InteractionRequestEvent 0 (lit "Which?") IText [], 0,
          lit " bye", (register_interaction 0 (uuid4 empty_world).2).2)
  /\ exists tag,
       lit "Pick: <ask>Which?</ask> bye" = lit "Pick: " ++ tag ++ lit " bye"
       /\ startswith (open_lit KAsk) tag = true
       /\ endswith (close_lit KAsk) tag = true
       /\ (forall j, j < length (lit "Pick: ") ->
             kind_at KAsk (drop j (lit "Pick: <ask>Which?</ask> bye")) = false)
       /\ is_interaction (InteractionRequestEvent 0 (lit "Which?") IText [])
          = true.
Proof.
  assert (H : extractor KAsk (lit "Pick: <ask>Which?</ask> bye") empty_world
              = Some (lit "Pick: ",
                      InteractionRequestEvent 0 (lit "Which?") IText [], 0,
                      lit " bye",
                      (register_interaction 0 (uuid4 empty_world).2).2))
    by reflexivity.
  split; [exact H|].
  exact (extraction_splits_buffer _ _ _ _ _ _ _ _ H).
Defined.

(** *** The options of a question *)

Lemma rev_reverse {A} (l : list A) : rev l = reverse l.
Proof. by rewrite rev_alt. Qed.

Lemma lstrip_split s :
  exists p, s = p ++ lstrip s /\ Forall (fun c => is_space c = true) p.
Proof.
  induction s as [|c s (p & IH & Hp)]; [by exists []|]. cbn [lstrip].
  destruct (is_space c) eqn:Ec; [|by exists []].
  exists (c :: p). split; [by rewrite IH at 1|by constructor].
Qed.

Lemma lstrip_head s c : head (lstrip s) = Some c -> is_space c = false.
Proof.
  induction s as [|d s IH]; [done|]. cbn [lstrip].
  destruct (is_space d) eqn:Ed; [done|]. by intros [= <-].
Qed.

Lemma lstrip_id s :
  (forall c, head s = Some c -> is_space c = false) -> lstrip s = s.
Proof.
  destruct s as [|c s]; [done|]. intros H. cbn [lstrip].
  by rewrite (H c eq_refl).
Qed.

Lemma strip_trimmed s : trimmed (strip s).
Proof.
  unfold trimmed, strip. intros c. rewrite !rev_reverse.
  rewrite head_reverse, last_reverse. intros [H|H].
  - destruct (lstrip_split (reverse (lstrip s))) as (p & Hp & _).
    destruct (lstrip (reverse (lstrip s))) as [|d u] eqn:Eu; [done|].
    assert (Hl : last (reverse (lstrip s)) = Some c).
    { by rewrite Hp, last_app_cons. }
    rewrite last_reverse in Hl. by apply lstrip_head in Hl.
  - by apply lstrip_head in H.
Qed.

Lemma strip_id s : trimmed s -> strip s = s.
Proof.
  intros H. unfold strip. rewrite (lstrip_id s) by (intros; apply H; auto).
  rewrite lstrip_id; [apply rev_involutive|].
  intros c Hc. apply H. right. by rewrite rev_reverse, head_reverse in Hc.
Qed.

Lemma strip_elem c s : c ∈ strip s -> c ∈ s.
Proof.
  assert (Hl : forall t, c ∈ lstrip t -> c ∈ t).
  { intros t Hc. destruct (lstrip_split t) as (p & Hp & _).
    rewrite Hp. apply elem_of_app. by right. }
  unfold strip. rewrite !rev_reverse, elem_of_reverse.
  intros Hc%Hl. rewrite elem_of_reverse in Hc. by apply Hl.
Qed.

Lemma split_no_sep sep s : Forall (fun w => ~ In sep w) (split sep s).
Proof.
  induction s as [|c s IH]; cbn [split].
  { constructor; [by intros []|constructor]. }
  destruct (chr_eqb c sep) eqn:Ec.
  - constructor; [by intros []|done].
  - destruct (split sep s) as [|w ws].
    { constructor; [|constructor]. intros [->|[]].
      unfold chr_eqb in Ec. by rewrite Ascii.eqb_refl in Ec. }
    inversion IH as [|? ? Hw Hws]; subst. constructor; [|done].
    intros [->|Hin]; [|done].
    unfold chr_eqb in Ec. by rewrite Ascii.eqb_refl in Ec.
Qed.

Lemma split_plain sep s : ~ In sep s -> split sep s = [s].
Proof.
  induction s as [|c s IH]; [done|]. intros Hn. cbn [split].
  destruct (chr_eqb c sep) eqn:Ec.
  - apply Ascii.eqb_eq in Ec. subst c. destruct Hn. by left.
  - rewrite IH; [done|]. intros Hin. apply Hn. by right.
Qed.

Lemma split_join_cons sep o rest :
  ~ In sep o -> split sep (o ++ sep :: rest) = o :: split sep rest.
Proof.
  induction o as [|c o IH]; intros Hn; cbn [split app].
  - unfold chr_eqb. by rewrite Ascii.eqb_refl.
  - destruct (chr_eqb c sep) eqn:Ec.
    + apply Ascii.eqb_eq in Ec. subst c. destruct Hn. by left.
    + rewrite IH; [done|]. intros Hin. apply Hn. by right.
Qed.

(** X9. Every option [_options] returns is clean: it is not empty, holds
    no separator and has no white space around it. *)
Theorem options_clean (raw : str) : Forall clean_option (_options raw).
Proof.
  unfold _options. destruct (nonempty raw); [|constructor].
  apply Forall_fmap, Forall_forall. intros o [Hne Hin]%list_elem_of_filter.
  cbn. repeat split.
  - by destruct (strip o).
  - intros Hbar%list_elem_of_In%strip_elem%list_elem_of_In.
    pose proof (split_no_sep "|"%char raw) as Hall.
    rewrite Forall_forall in Hall. by apply (Hall o).
  - apply strip_trimmed.
Qed.

(** X10. Round trip: clean options joined by the separator are read back as
    they were written, in their order. *)
Theorem options_round_trip (os : list str) :
  Forall clean_option os -> _options (join "|"%char os) = os.
Proof.
  intros Hall.
  assert (Hs : os <> [] -> split "|"%char (join "|"%char os) = os).
  { induction Hall as [|o os (_ & Hbar & _) Hos IH]; [done|]. intros _.
    destruct os as [|o' os'].
    - by apply split_plain.
    - change (join "|"%char (o :: o' :: os'))
        with (o ++ "|"%char :: join "|"%char (o' :: os')).
      rewrite split_join_cons by done. by rewrite IH. }
  destruct os as [|o os]; [done|].
  unfold _options.
  assert (Hne : nonempty (join "|"%char (o :: os)) = true).
  { inversion Hall as [|? ? (Ho & _) _]; subst.
    destruct o; [done|]. by destruct os. }
  rewrite Hne, Hs by done. clear Hs Hne.
  induction Hall as [|a l (Ha & _ & Ht) Hl IH]; [done|].
  rewrite filter_cons, (strip_id a Ht).
  destruct a; [done|]. cbn [nonempty]. rewrite decide_True by done.
  rewrite fmap_cons, strip_id by done. by rewrite IH.
Qed.

Lemma options_round_trip_witness :
  Forall clean_option [lit "red"; lit "dark blue"]
  /\ _options (join "|"%char [lit "red"; lit "dark blue"])
     = [lit "red"; lit "dark blue"].
Proof.
  assert (H : Forall clean_option [lit "red"; lit "dark blue"]).
  { repeat constructor; try done.
    - intros Hin. vm_compute in Hin. intuition discriminate.
    - intros c Hc. vm_compute in Hc. by destruct Hc as [[= <-]|[= <-]].
    - intros Hin. vm_compute in Hin. intuition discriminate.
    - intros c Hc. vm_compute in Hc. by destruct Hc as [[= <-]|[= <-]]. }
  split; [exact H|]. exact (options_round_trip _ H).
Defined.

(** *** No text is invented *)

Lemma text_of_interaction ev : is_interaction ev = true -> text_of [ev] = [].
Proof. by destruct ev. Qed.

Lemma process_buffer_text b p w :
  sublist (text_of (_process_buffer b p w).1.1.1 ++ (_process_buffer b p w).1.1.2)
          b.
Proof.
  remember (length b) as n eqn:Hn. revert b p w Hn.
  induction n as [n IH] using lt_wf_ind. intros b p w ->.
  rewrite process_buffer_eq.
  destruct (_first_tag_pos b) as [[fp k]|] eqn:Ef.
  - destruct (extractor k b w) as [[[[[before ev] q] after] w']|] eqn:Ee.
    + destruct (extractor_partition _ _ _ _ _ _ _ _ Ee)
        as (tag & Hb & _ & _ & _ & Hev).
      apply extractor_Some in Ee as (_ & _ & _ & Hlen & _).
      specialize (IH (length after) Hlen after
                     (p ++ [(request_id_of ev, q)]) w' eq_refl).
      destruct (_process_buffer after _ w') as [[[e b'] p'] w''].
      cbn [with_events fst snd] in *.
      rewrite !text_of_app, text_of_append_text, (text_of_interaction ev Hev).
      rewrite app_nil_r, <- app_assoc. clear Ef Hlen. subst b.
      apply sublist_app; [done|]. by apply sublist_inserts_l.
    + cbn [fst snd]. destruct (0 <? fp); cbn; rewrite ?app_nil_r.
      * by rewrite take_drop.
      * apply sublist_drop.
  - destruct (flush_safe b) as [safe rest] eqn:Efl. cbn [fst snd].
    rewrite text_of_append_text. by rewrite <- (flush_safe_app _ _ _ Efl).
Qed.

Lemma parser_step_text_other st e :
  is_text e = false -> is_done e = false ->
  (parser_step st e).2 = false
  /\ pending (parser_step st e).1.2 = pending st
  /\ text_of (parser_step st e).1.1 ++ buf (parser_step st e).1.2 = buf st.
Proof.
  intros Ht Hd. pose proof (flush_before_events (buf st)) as Hfl.
  assert (Hstep : parser_step st e
                  = let '(flushed, b0) := flush_before (buf st) in
                    (flushed ++ [e],
                     {| buf := b0; pending := pending st; wld := wld st |},
                     false)) by (by destruct e).
  rewrite Hstep. destruct (flush_before (buf st)) as [flushed b0].
  destruct Hfl as (_ & _ & _ & Hfl). cbn [fst snd buf pending].
  repeat split. rewrite text_of_app.
  assert (He : text_of [e] = []) by (by destruct e).
  by rewrite He, app_nil_r.
Qed.

Lemma parser_step_text st e :
  not_done e ->
  (parser_step st e).2 = false
  /\ exists l,
       pending (parser_step st e).1.2 = pending st ++ l
       /\ sublist (text_of (parser_step st e).1.1 ++ buf (parser_step st e).1.2)
                  (buf st ++ text_of [e])
       /\ (l = [] ->
           text_of (parser_step st e).1.1 ++ buf (parser_step st e).1.2
           = buf st ++ text_of [e]).
Proof.
  intros Hnd. destruct (is_text e) eqn:Ht.
  - destruct e; try discriminate Ht. cbn [parser_step].
    pose proof (process_buffer_events (buf st ++ content) (pending st) (wld st))
      as Hev.
    pose proof (process_buffer_text (buf st ++ content) (pending st) (wld st))
      as Hsub.
    destruct (_process_buffer _ _ _) as [[[evs b] p'] w']. cbn [fst snd] in *.
    destruct Hev as (_ & _ & l & -> & Heq & _).
    split; [done|]. exists l. cbn [text_of buf pending]. rewrite app_nil_r.
    split; [done|]. split; [done|]. intros Hl. by apply Heq.
  - destruct (parser_step_text_other st e Ht Hnd) as (Hr & Hp & Htx).
    assert (He : text_of [e] = []) by (by destruct e).
    split; [done|]. exists []. rewrite Hp, Htx, He, !app_nil_r. by repeat split.
Qed.

Lemma parse_from_text inner : forall st,
  Forall not_done inner ->
  exists l,
    pending (parse_from st inner).2 = pending st ++ l
    /\ sublist (text_of (parse_from st inner).1 ++ buf (parse_from st inner).2)
               (buf st ++ text_of inner)
    /\ (l = [] ->
        text_of (parse_from st inner).1 ++ buf (parse_from st inner).2
        = buf st ++ text_of inner).
Proof.
  induction inner as [|e inner IH]; intros st Hall.
  - exists []. cbn. by rewrite !app_nil_r.
  - apply Forall_cons in Hall as [He Hall]. cbn [parse_from].
    destruct (parser_step_text st e He) as (Hret & l1 & Hp1 & Hs1 & He1).
    destruct (parser_step st e) as [[out st'] returned]. cbn [fst snd] in *.
    subst returned.
    destruct (IH st' Hall) as (l2 & Hp2 & Hs2 & He2).
    destruct (parse_from st' inner) as [out' st'']. cbn [fst snd] in *.
    change (e :: inner) with ([e] ++ inner).
    rewrite !text_of_app. exists (l1 ++ l2).
    split; [by rewrite Hp2, Hp1, app_assoc|]. split.
    + rewrite <- app_assoc, (app_assoc (buf st)).
      etrans; [apply sublist_app; [reflexivity|exact Hs2]|].
      rewrite app_assoc. by apply sublist_app.
    + intros [-> ->]%app_eq_nil.
      by rewrite <- app_assoc, He2, app_assoc, He1, <- app_assoc.
Qed.

(** X27. The parser invents no text.  On a stream without a
    [DoneEvent], the text it has yielded followed by the text it still
    holds back is the text of the stream with parts left out, in the
    same order; and when the run has made no interaction (the pending
    list is as it was), nothing is left out at all. *)
Theorem text_is_conserved (inner : list Event) (pending0 : pending_list)
    (w : world) :
  Forall not_done inner ->
  sublist (text_of (parse_interactions inner pending0 w).1
           ++ buf (parse_interactions inner pending0 w).2)
          (text_of inner)
  /\ (pending (parse_interactions inner pending0 w).2 = pending0 ->
      text_of (parse_interactions inner pending0 w).1
      ++ buf (parse_interactions inner pending0 w).2
      = text_of inner).
Proof.
  intros Hall. unfold parse_interactions.
  destruct (parse_from_text inner
              {| buf := []; pending := pending0; wld := w |} Hall)
    as (l & Hp & Hs & He). cbn [buf pending app] in *.
  split; [exact Hs|]. intros Heq. apply He.
  rewrite Heq in Hp. apply (f_equal length) in Hp.
  rewrite length_app in Hp. destruct l; [done|]. cbn in Hp. lia.
Qed.

Lemma text_is_conserved_witness :
  Forall not_done
    [TextChunkEvent (lit "Pick: <ask>Which?"); TextChunkEvent (lit "</ask> ok <as")]
  /\ text_of (parse_interactions
                [TextChunkEvent (lit "Pick: <ask>Which?");
                 TextChunkEvent (lit "</ask> ok <as")] [] empty_world).1
     ++ buf (parse_interactions
                [TextChunkEvent (lit "Pick: <ask>Which?");
                 TextChunkEvent (lit "</ask> ok <as")] [] empty_world).2
     = lit "Pick:  ok <as"
  /\ sublist (lit "Pick:  ok <as") (lit "Pick: <ask>Which?</ask> ok <as").
Proof.
  assert (H : Forall not_done
                [TextChunkEvent (lit "Pick: <ask>Which?");
                 TextChunkEvent (lit "</ask> ok <as")])
    by (by repeat constructor).
  split; [exact H|].
  assert (Hrun : text_of (parse_interactions
                   [TextChunkEvent (lit "Pick: <ask>Which?");
                    TextChunkEvent (lit "</ask> ok <as")] [] empty_world).1
                 ++ buf (parse_interactions
                      [TextChunkEvent (lit "Pick: <ask>Which?");
                       TextChunkEvent (lit "</ask> ok <as")] [] empty_world).2
                 = lit "Pick:  ok <as")
    by (vm_compute; reflexivity).
  split; [exact Hrun|].
  rewrite <- Hrun.
  exact (proj1 (text_is_conserved _ [] empty_world H)).
Defined.

End ParserExtra.


(* ===================================================================== *)
(** ** The connection pool                                                *)
(* ===================================================================== *)

Module ManagerProps.
Import Manager.

Lemma remove_first_absent w l : w ∉ l -> remove_first w l = l.
Proof.
  induction l as [|x l IH]; [done|]. intros Hn. cbn [remove_first].
  apply not_elem_of_cons in Hn as [Hne Hn].
  rewrite decide_False by done. by rewrite IH.
Qed.

Lemma remove_first_middle w kept rest :
  w ∉ kept -> remove_first w (kept ++ w :: rest) = kept ++ rest.
Proof.
  induction kept as [|x kept IH]; intros Hn; cbn [remove_first app].
  - by rewrite decide_True.
  - apply not_elem_of_cons in Hn as [Hne Hn].
    rewrite decide_False by done. by rewrite IH.
Qed.

Lemma entry_Some l k : entry l = Some k -> k = l /\ l <> [].
Proof. destruct l; [done|]. by intros [= <-]. Qed.

Lemma disconnect_lookup sid w m l :
  m !! sid = Some l ->
  disconnect sid w m !! sid = entry (remove_first w l)
  /\ forall sid', sid' <> sid -> disconnect sid w m !! sid' = m !! sid'.
Proof.
  intros Hl. unfold disconnect. rewrite Hl.
  assert (Hr : (if bool_decide (w ∈ l) then remove_first w l else l)
               = remove_first w l).
  { case_bool_decide; [done|]. by rewrite remove_first_absent. }
  rewrite Hr. destruct (remove_first w l) as [|x t] eqn:E.
  - split; [by rewrite lookup_delete_eq|].
    intros sid' Hne. by rewrite lookup_delete_ne.
  - split; [by rewrite lookup_insert_eq|].
    intros sid' Hne. by rewrite lookup_insert_ne.
Qed.

Lemma send_loop_spec sid fails rest : forall kept m,
  Forall (fun w => fails w = false) kept ->
  m !! sid = entry (kept ++ rest) ->
  (send_loop sid fails rest m).2 = alive fails rest
  /\ (send_loop sid fails rest m).1 !! sid = entry (kept ++ alive fails rest)
  /\ forall sid', sid' <> sid ->
       (send_loop sid fails rest m).1 !! sid' = m !! sid'.
Proof.
  induction rest as [|w rest IH]; intros kept m Hk Hm.
  - cbn. by rewrite app_nil_r in *.
  - cbn [send_loop]. unfold alive. rewrite filter_cons.
    destruct (fails w) eqn:Ew.
    + rewrite decide_False by done.
      assert (Hl : m !! sid = Some (kept ++ w :: rest)).
      { rewrite Hm. by destruct kept. }
      destruct (disconnect_lookup sid w m _ Hl) as (Hd & Hother).
      rewrite remove_first_middle in Hd.
      2:{ intros Hin. rewrite Forall_forall in Hk. specialize (Hk w Hin).
          congruence. }
      destruct (IH kept (disconnect sid w m) Hk Hd) as (H1 & H2 & H3).
      split; [done|]. split; [done|].
      intros sid' Hne. by rewrite H3, Hother.
    + rewrite decide_True by done.
      destruct (IH (kept ++ [w]) m) as (H1 & H2 & H3).
      { apply Forall_app. split; [done|]. by constructor. }
      { by rewrite <- app_assoc. }
      destruct (send_loop sid fails rest m) as [m' d]. cbn [fst snd] in *.
      rewrite <- app_assoc in H2. split; [by rewrite H1|]. by split.
Qed.

Lemma send_effect (session_id : string) (fails : ws -> bool)
    (m : connections) :
  (send session_id fails m).2 = alive fails (default [] (m !! session_id))
  /\ (forall l, m !! session_id = Some l -> l <> [] ->
        (send session_id fails m).1 !! session_id = entry (alive fails l))
  /\ (m !! session_id = None -> (send session_id fails m).1 = m)
  /\ forall other, other <> session_id ->
       (send session_id fails m).1 !! other = m !! other.
Proof.
  unfold send. destruct (m !! session_id) as [l|] eqn:El; cbn [default].
  - destruct l as [|x l].
    + cbn. repeat split; try done. by intros l [= <-].
    + destruct (send_loop_spec session_id fails (x :: l) [] m) as (H1 & H2 & H3);
        [constructor|by rewrite El|].
      repeat split; try done. intros l' [= <-] _. exact H2.
  - cbn. repeat split; try done.
Qed.

(** X11. [send] gives the data to the sockets of the session that do
    not fail, in the order they connected, and leaves exactly those in
    the pool; a session left with no socket loses its entry, and the
    other sessions are untouched. *)
Theorem send_drops_failing_sockets (session_id : string) (fails : ws -> bool)
    (m : connections) :
  (send session_id fails m).2 = alive fails (default [] (m !! session_id))
  /\ (forall l, m !! session_id = Some l -> l <> [] ->
        (send session_id fails m).1 !! session_id = entry (alive fails l))
  /\ (m !! session_id = None -> (send session_id fails m).1 = m)
  /\ forall other, other <> session_id ->
       (send session_id fails m).1 !! other = m !! other.
Proof. apply send_effect. Qed.

Lemma tidy_connect sid w m : tidy m -> tidy (connect sid w m).
Proof.
  intros Ht sid' l. unfold connect.
  destruct (decide (sid' = sid)) as [->|Hne].
  - rewrite lookup_insert_eq. intros [= <-]. by destruct (default [] _).
  - rewrite lookup_insert_ne by done. apply Ht.
Qed.

Lemma tidy_disconnect sid w m : tidy m -> tidy (disconnect sid w m).
Proof.
  intros Ht sid' l. destruct (m !! sid) as [l0|] eqn:El.
  - destruct (disconnect_lookup sid w m l0 El) as (Hd & Hother).
    destruct (decide (sid' = sid)) as [->|Hne].
    + rewrite Hd. by intros [-> ?]%entry_Some.
    + rewrite Hother by done. apply Ht.
  - unfold disconnect. rewrite El. apply Ht.
Qed.

Lemma tidy_send sid fails m : tidy m -> tidy (send sid fails m).1.
Proof.
  intros Ht sid' l.
  destruct (send_effect sid fails m) as (_ & Hs & Hn & Ho).
  destruct (decide (sid' = sid)) as [->|Hne].
  - destruct (m !! sid) as [l0|] eqn:El.
    + rewrite (Hs l0 eq_refl (Ht _ _ El)). by intros [-> ?]%entry_Some.
    + rewrite Hn by done. rewrite El. done.
  - rewrite Ho by done. apply Ht.
Qed.

Lemma tidy_broadcast_loop fails keys : forall m,
  tidy m -> tidy (broadcast_loop fails keys m).
Proof.
  induction keys as [|k keys IH]; intros m Ht; [done|].
  cbn [broadcast_loop]. by apply IH, tidy_send.
Qed.

(** X12. The pool never lists a session with an empty list of sockets:
    that holds of the empty pool and every operation keeps it. *)
Theorem pool_stays_tidy (session_id : string) (w : ws) (fails : ws -> bool)
    (m : connections) :
  tidy m ->
  tidy (connect session_id w m)
  /\ tidy (disconnect session_id w m)
  /\ tidy (send session_id fails m).1
  /\ tidy (broadcast fails m).
Proof.
  intros Ht. split; [by apply tidy_connect|].
  split; [by apply tidy_disconnect|].
  split; [by apply tidy_send|]. by apply tidy_broadcast_loop.
Qed.

Lemma pool_stays_tidy_witness :
  tidy ∅
  /\ tidy (connect "s" 1 ∅)
  /\ tidy (disconnect "s" 1 ∅)
  /\ tidy (send "s" (fun _ => true) ∅).1
  /\ tidy (broadcast (fun _ => true) ∅).
Proof.
  assert (H : tidy ∅) by (intros sid l Hl; by rewrite lookup_empty in Hl).
  split; [exact H|]. exact (pool_stays_tidy "s" 1 (fun _ => true) ∅ H).
Defined.

(** X13. Round trip: in a tidy pool, connecting a socket that is not
    yet listed for the session and disconnecting it again gives the
    pool back; and disconnecting a socket that is not listed changes
    nothing. *)
Theorem connect_disconnect_round_trip (session_id : string) (w : ws)
    (m : connections) :
  tidy m ->
  w ∉ default [] (m !! session_id) ->
  disconnect session_id w (connect session_id w m) = m
  /\ disconnect session_id w m = m.
Proof.
  intros Ht Hn. split.
  - apply map_eq. intros sid'.
    assert (Hc : connect session_id w m !! session_id
                 = Some (default [] (m !! session_id) ++ [w]))
      by (unfold connect; by rewrite lookup_insert_eq).
    destruct (disconnect_lookup _ w _ _ Hc) as (Hd & Ho).
    destruct (decide (sid' = session_id)) as [->|Hne].
    + rewrite Hd, remove_first_middle, app_nil_r by done.
      destruct (m !! session_id) as [l|] eqn:El; cbn [default]; [|done].
      pose proof (Ht _ _ El). by destruct l.
    + rewrite Ho by done. unfold connect. by rewrite lookup_insert_ne.
  - unfold disconnect. destruct (m !! session_id) as [l|] eqn:El; [|done].
    cbn [default] in Hn. rewrite bool_decide_eq_false_2 by done.
    pose proof (Ht _ _ El). destruct l; [done|]. by apply insert_id.
Qed.

Lemma connect_disconnect_round_trip_witness :
  tidy (connect "s" 1 ∅)
  /\ (2 ∉ default [] (connect "s" 1 ∅ !! "s"))
  /\ disconnect "s" 2 (connect "s" 2 (connect "s" 1 ∅)) = connect "s" 1 ∅
  /\ disconnect "s" 2 (connect "s" 1 ∅) = connect "s" 1 ∅.
Proof.
  assert (H : tidy (connect "s" 1 ∅)).
  { apply tidy_connect. intros sid l Hl. by rewrite lookup_empty in Hl. }
  assert (Hn : 2 ∉ default [] (connect "s" 1 (∅ : connections) !! "s")).
  { unfold connect. rewrite lookup_insert_eq. cbn. by intros [=]%list_elem_of_singleton. }
  split; [exact H|]. split; [exact Hn|].
  exact (connect_disconnect_round_trip "s" 2 _ H Hn).
Defined.

Lemma broadcast_loop_lookup fails keys : forall m,
  NoDup keys -> tidy m ->
  forall sid,
    broadcast_loop fails keys m !! sid
    = if bool_decide (sid ∈ keys)
      then m !! sid ≫= (fun l => entry (alive fails l))
      else m !! sid.
Proof.
  induction keys as [|k keys IH]; intros m Hnd Ht sid; [done|].
  cbn [broadcast_loop]. apply NoDup_cons in Hnd as [Hk Hnd].
  rewrite IH by (done || by apply tidy_send).
  destruct (send_effect k fails m) as (_ & Hs & Hn & Ho).
  destruct (decide (sid = k)) as [->|Hne].
  - rewrite (bool_decide_eq_false_2 (k ∈ keys)) by done.
    rewrite (bool_decide_eq_true_2 (k ∈ k :: keys)) by left.
    destruct (m !! k) as [l|] eqn:El.
    + by rewrite (Hs l eq_refl (Ht _ _ El)).
    + by rewrite Hn, El.
  - rewrite Ho by done.
    destruct (decide (sid ∈ keys)) as [Hin|Hin].
    + rewrite !bool_decide_eq_true_2; [done|by right|done].
    + rewrite !bool_decide_eq_false_2; [done| |done].
      by intros [?|?]%elem_of_cons.
Qed.

(** X14. After a [broadcast] over a tidy pool every session keeps
    exactly its sockets that did not fail, in their order, and a session
    left with none has no entry any more. *)
Theorem broadcast_drops_failing_sockets (fails : ws -> bool)
    (m : connections) (session_id : string) :
  tidy m ->
  broadcast fails m !! session_id
  = m !! session_id ≫= (fun l => entry (alive fails l)).
Proof.
  intros Ht. unfold broadcast.
  rewrite broadcast_loop_lookup by (done || apply NoDup_fst_map_to_list).
  case_bool_decide as Hin; [done|].
  destruct (m !! session_id) as [l|] eqn:El; [|done].
  destruct Hin. apply list_elem_of_fmap. exists (session_id, l).
  split; [done|]. by apply elem_of_map_to_list.
Qed.

Lemma broadcast_drops_failing_sockets_witness :
  tidy (connect "s" 2 (connect "s" 1 ∅))
  /\ broadcast (fun w => w =? 1) (connect "s" 2 (connect "s" 1 ∅)) !! "s"
     = Some [2].
Proof.
  assert (H : tidy (connect "s" 2 (connect "s" 1 ∅))).
  { apply tidy_connect, tidy_connect.
    intros sid l Hl. by rewrite lookup_empty in Hl. }
  split; [exact H|].
  exact (eq_trans
           (broadcast_drops_failing_sockets (fun w => w =? 1) _ "s" H)
           eq_refl).
Defined.

End ManagerProps.


(* ===================================================================== *)
(** ** Answers, turns and the message loop                                *)
(* ===================================================================== *)

Module HandlerProps.
Import Parser Session Handlers Endpoint Obs Views Samples.

(** X15. An answer that comes before the turn loop waits for it is not
    lost: for a request registered with an empty queue,
    [resolve_interaction] succeeds, the wait that follows returns the
    answer at once, whatever else would arrive during the wait, and
    leaves the registry as it was. *)
Theorem early_answer_reaches_waiter (request_id : uuid) (q : qref)
    (value : str) (arriving : option str) (w : world) :
  pending_async w !! request_id = Some q ->
  heap w !! q = Some (new_queue 1) ->
  exists w1,
    resolve_interaction request_id value w = Ok w1
    /\ await_answer q arriving w1 = (value, w).
Proof.
  intros Hp Hh. unfold resolve_interaction. rewrite Hp, Hh. cbn.
  eexists. split; [reflexivity|].
  unfold await_answer. cbn. rewrite lookup_insert_eq. cbn.
  rewrite insert_insert_eq.
  change {| items := []; maxsize := 1 |} with (new_queue 1).
  rewrite insert_id by done. by destruct w.
Qed.

Lemma early_answer_reaches_waiter_witness :
  exists w1,
    resolve_interaction 0 (lit "B") (register_interaction 0 empty_world).2
    = Ok w1
    /\ await_answer 0 None w1
       = (lit "B", (register_interaction 0 empty_world).2).
Proof.
  apply (early_answer_reaches_waiter 0 0 (lit "B") None
           (register_interaction 0 empty_world).2); reflexivity.
Defined.




Lemma ws_step_effect c running i c' :
  ws_step c running i = Ok c' ->
  outbox c' = outbox c ++ option_list (reply i)
  /\ created c' = created c
                  ++ option_list ((fun t => (next_task c, t)) <$> started i)
  /\ next_task c' = next_task c + length (option_list (started i)).
Proof.
  destruct i as [[| |raw|request_id value|]|]; cbn [ws_step reply started].
  - intros [= <-]. cbn. by rewrite app_nil_r, Nat.add_0_r.
  - destruct (current_stream_task c); [destruct running|]; intros [= <-];
      cbn; by rewrite !app_nil_r, Nat.add_0_r.
  - destruct (nonempty (strip raw)); intros [= <-]; cbn.
    + rewrite app_nil_r. repeat split; lia.
    + by rewrite !app_nil_r, Nat.add_0_r.
  - destruct (resolve_interaction _ _ _); [|done]. intros [= <-]. cbn.
    by rewrite !app_nil_r, Nat.add_0_r.
  - intros [= <-]. cbn. by rewrite !app_nil_r, Nat.add_0_r.
  - intros [= <-]. cbn. by rewrite app_nil_r, Nat.add_0_r.
Qed.

(** X17. Over a whole run of the message loop that no exception ends:
    the loop itself sends one pong per ping and one keepalive per
    timeout, in order, and nothing else; every user message that is not
    blank starts exactly one stream, with its content stripped, in the
    order received; and the tasks get consecutive fresh numbers. *)
Theorem loop_replies_and_starts (c : conn) (inputs : list (bool * incoming))
    (c' : conn) :
  ws_loop c inputs = (c', None) ->
  outbox c' = outbox c ++ omap reply inputs.*2
  /\ (created c').*2 = (created c).*2 ++ omap started inputs.*2
  /\ (created c').*1
     = (created c).*1
       ++ seq (next_task c) (length (omap started inputs.*2)).
Proof.
  revert c. induction inputs as [|[running i] inputs IH]; intros c.
  - intros [= <-]. cbn. by rewrite !app_nil_r.
  - cbn [ws_loop]. destruct (ws_step c running i) as [c1|e] eqn:Es; [|done].
    intros (Ho & Hc2 & Hc1)%IH.
    destruct (ws_step_effect _ _ _ _ Es) as (Eo & Ec & En).
    rewrite Ho, Hc2, Hc1, Eo, Ec, En. cbn [fmap list_fmap omap list_omap snd].
    rewrite !fmap_app, <- !app_assoc.
    destruct (reply i), (started i); cbn;
      rewrite ?Nat.add_0_r, ?Nat.add_1_r; done.
Qed.

Lemma loop_replies_and_starts_witness :
  exists c',
    ws_loop
      {| current_stream_task := None; stop_event := false; next_task := 0;
         created := []; cancelled := []; outbox := [];
         registry := empty_world |}
      [(false, Received ping);
       (false, Received (user_message (lit "  hello ")));
       (true, TimedOut);
       (true, Received (user_message (lit "   ")));
       (true, Received (user_message (lit "again")))]
    = (c', None)
    /\ outbox c' = [WsSystem (lit "pong"); WsSystem (lit "keepalive")]
    /\ (created c').*2 = [lit "hello"; lit "again"]
    /\ (created c').*1 = [0; 1].
Proof.
  eexists. split; [vm_compute; reflexivity|].
  exact (loop_replies_and_starts
           {| current_stream_task := None; stop_event := false;
              next_task := 0; created := []; cancelled := []; outbox := [];
              registry := empty_world |}
           [(false, Received ping);
            (false, Received (user_message (lit "  hello ")));
            (true, TimedOut);
            (true, Received (user_message (lit "   ")));
            (true, Received (user_message (lit "again")))]
           _ eq_refl).
Defined.

End HandlerProps.


(* ===================================================================== *)
(** ** One call of [send]                                                 *)
(* ===================================================================== *)

Module SendProps.
Import Session Provider SendViews Obs Samples.

Lemma send_all_app s a evs1 evs2 raised :
  send_all s a (evs1 ++ evs2) raised
  = let '(s1, a1, o1) := send_all s a evs1 None in
    let '(s2, a2, o2) := send_all s1 a1 evs2 raised in
    (s2, a2, o1 ++ o2).
Proof.
  revert s a. induction evs1 as [|e evs1 IH]; intros s a; cbn [send_all app].
  - by destruct (send_all s a evs2 raised) as [[s2 a2] o2].
  - destruct (send_step s a e) as [[s1 a1] y]. rewrite IH.
    destruct (send_all s1 a1 evs1 None) as [[s2 a2] o1].
    destruct (send_all s2 a2 evs2 raised) as [[s3 a3] o2]. by destruct y.
Qed.

Lemma send_all_events s a evs raised :
  (send_all s a evs raised).2
  = filter (fun e => internal e = false) evs ++ error_tail raised.
Proof.
  revert s a. induction evs as [|e evs IH]; intros s a; cbn [send_all].
  - by destruct raised.
  - destruct (send_step s a e) as [[s1 a1] y] eqn:Es. specialize (IH s1 a1).
    destruct (send_all s1 a1 evs raised) as [[s2 a2] out]. cbn [snd] in *.
    rewrite filter_cons.
    assert (Hy : y = match e with SessionIdEvent _ => None | _ => Some e end).
    { apply (f_equal snd) in Es. by destruct e. }
    rewrite Hy, IH. by destruct e.
Qed.

(** X18. [send] forwards every event of the provider except the
    [SessionIdEvent]s, unchanged and in order, and ends with one
    [ErrorEvent] carrying the message when the provider raised. *)
Theorem send_forwards_provider_events (message : str) (sc : script)
    (s : session) :
  (send message sc s).2
  = filter (fun e => internal e = false) (yields sc)
    ++ error_tail (raises sc).
Proof. apply send_all_events. Qed.

Lemma persist_messages a s :
  messages (state (persist a s)) = messages (state s) ++ [assistant_message a]
  /\ sid (state (persist a s)) = sid (state s).
Proof. done. Qed.

Lemma send_step_history s a e :
  sid (state (send_step s a e).1.1) = sid (state s)
  /\ exists tail,
       messages (state (send_step s a e).1.1) = messages (state s) ++ tail
       /\ Forall (fun m => is_assistant m = true) tail
       /\ length tail = if is_done e then 1 else 0.
Proof.
  destruct e; cbn; (split; [done|]);
    try (exists []; by rewrite app_nil_r).
  exists [assistant_message a]. repeat split. by repeat constructor.
Qed.

Lemma send_all_history s a evs raised :
  sid (state (send_all s a evs raised).1.1) = sid (state s)
  /\ exists tail,
       messages (state (send_all s a evs raised).1.1)
       = messages (state s) ++ tail
       /\ Forall (fun m => is_assistant m = true) tail
       /\ length tail
          = length (filter (fun e => is_done e = true) evs)
            + saved_on_error raised (send_all s a evs raised).1.2.
Proof.
  revert s a. induction evs as [|e evs IH]; intros s a; cbn [send_all].
  - destruct raised as [err|]; cbn.
    + destruct (nonempty (assistant_content a)); (split; [done|]).
      * exists [assistant_message a]. repeat split. by repeat constructor.
      * exists []. by rewrite app_nil_r.
    + split; [done|]. exists []. by rewrite app_nil_r.
  - destruct (send_step_history s a e) as (Hsid & t1 & Hm & Ha & Hlen).
    destruct (send_step s a e) as [[s1 a1] y]. cbn [fst snd] in *.
    destruct (IH s1 a1) as (Hsid' & t2 & Hm' & Ha' & Hlen').
    destruct (send_all s1 a1 evs raised) as [[s2 a2] out]. cbn [fst snd] in *.
    split; [congruence|]. exists (t1 ++ t2).
    rewrite Hm', Hm, <- app_assoc. split; [done|].
    split; [by apply Forall_app|].
    rewrite length_app, Hlen, Hlen', filter_cons.
    destruct (is_done e); [rewrite decide_True by done|
                           rewrite decide_False by done]; cbn; lia.
Qed.

(** X19. A call of [send] only appends to the history: the messages
    that were there stay, the user message comes next, and after it only
    assistant messages, one for each [DoneEvent] of the provider and one
    more when the provider raised after some text.  The session keeps
    its id. *)
Theorem history_only_grows (message : str) (sc : script) (s : session) :
  sid (state (send message sc s).1.1) = sid (state s)
  /\ exists tail,
       messages (state (send message sc s).1.1)
       = messages (state s) ++ user_message message :: tail
       /\ Forall (fun m => is_assistant m = true) tail
       /\ length tail
          = length (filter (fun e => is_done e = true) (yields sc))
            + saved_on_error (raises sc) (send message sc s).1.2.
Proof.
  unfold send.
  destruct (send_all_history (send_begin message s) empty_accum
              (yields sc) (raises sc)) as (Hsid & tail & Hm & Ha & Hlen).
  split; [exact Hsid|]. exists tail. rewrite Hm. cbn.
  rewrite <- app_assoc. by repeat split.
Qed.

Lemma send_step_store s a e k :
  k <> sid (state s) ->
  _store (send_step s a e).1.1 !! k = _store s !! k.
Proof.
  intros Hk. destruct e; cbn; try done. unfold save. cbn.
  by rewrite lookup_insert_ne.
Qed.

Lemma send_all_store s a evs raised k :
  k <> sid (state s) ->
  _store (send_all s a evs raised).1.1 !! k = _store s !! k.
Proof.
  revert s a. induction evs as [|e evs IH]; intros s a Hk; cbn [send_all].
  - destruct raised as [err|]; [|done]. cbn.
    destruct (nonempty (assistant_content a)); [|done]. cbn. unfold save. cbn.
    by rewrite lookup_insert_ne.
  - pose proof (send_step_store s a e k Hk) as H1.
    destruct (send_step_history s a e) as (Hsid & _).
    destruct (send_step s a e) as [[s1 a1] y]. cbn [fst snd] in *.
    assert (Hk1 : k <> sid (state s1)) by congruence.
    specialize (IH s1 a1 Hk1).
    destruct (send_all s1 a1 evs raised) as [[s2 a2] out]. cbn [fst snd] in *.
    congruence.
Qed.

Lemma send_all_announced s a evs raised :
  cli_session_id (state (send_all s a evs raised).1.1)
  = last_announced evs (cli_session_id (state s)).
Proof.
  revert s a. induction evs as [|e evs IH]; intros s a; cbn [send_all].
  - destruct raised as [err|]; [|done]. cbn.
    by destruct (nonempty (assistant_content a)).
  - assert (H1 : cli_session_id (state (send_step s a e).1.1)
                 = match e with
                   | SessionIdEvent c => Some c
                   | _ => cli_session_id (state s)
                   end) by (by destruct e).
    destruct (send_step s a e) as [[s1 a1] y]. cbn [fst snd] in *.
    specialize (IH s1 a1).
    destruct (send_all s1 a1 evs raised) as [[s2 a2] out]. cbn [fst snd] in *.
    rewrite IH, H1. unfold last_announced. cbn [foldl]. by destruct e.
Qed.

(** X20. A call whose provider stream ends with its [DoneEvent] leaves
    the store in step with the session: the state saved under the id of
    the session is the state in memory, which holds the session id the
    provider announced last; and whatever the stream, the states saved
    under other ids are untouched. *)
Theorem completed_call_is_saved (message : str) (pre : list Event)
    (s : session) :
  let r := send message {| yields := pre ++ [DoneEvent]; raises := None |} s in
  _store r.1.1 !! sid (state s) = Some (state r.1.1)
  /\ cli_session_id (state r.1.1)
     = last_announced pre (cli_session_id (state s))
  /\ forall k, k <> sid (state s) -> _store r.1.1 !! k = _store s !! k.
Proof.
  cbn zeta. split; [|split].
  - unfold send. cbn [yields raises]. rewrite send_all_app.
    destruct (send_all_history (send_begin message s) empty_accum pre None)
      as (Hsid & _).
    destruct (send_all (send_begin message s) empty_accum pre None)
      as [[s1 a1] o1]. cbn [fst snd] in *. cbn. unfold save. cbn.
    cbn in Hsid. rewrite Hsid. by rewrite lookup_insert_eq.
  - unfold send. rewrite send_all_announced. cbn [yields].
    unfold last_announced. by rewrite foldl_app.
  - intros k Hk. unfold send. by rewrite send_all_store.
Qed.

Lemma text_only_content s a responses :
  _had_tool_since_text a = false ->
  send_all s a (TextChunkEvent <$> responses) None
  = (s,
     {| assistant_content := assistant_content a ++ concat responses;
        assistant_tool_calls := assistant_tool_calls a;
        in_flight_tools := in_flight_tools a;
        _had_tool_since_text := false |},
     TextChunkEvent <$> responses).
Proof.
  revert a. induction responses as [|r rs IH]; intros a Ha.
  - cbn. rewrite app_nil_r. destruct a. cbn in *. by subst.
  - cbn [fmap list_fmap send_all send_step]. rewrite Ha. cbn [andb].
    change (list_fmap _ _ TextChunkEvent rs) with (TextChunkEvent <$> rs).
    rewrite IH by done. cbn. by rewrite <- app_assoc.
Qed.

(** X21. A turn with the scripted provider: [send] yields one text
    chunk per response and the done event, appends the user message and
    one assistant message whose content is the responses put together,
    with no tool call, and saves that state. *)
Theorem mock_turn (message : str) (responses : list str) (s : session) :
  let r := send message (mock_run responses) s in
  r.2 = (TextChunkEvent <$> responses) ++ [DoneEvent]
  /\ messages (state r.1.1)
     = messages (state s)
       ++ [user_message message;
           {| msg_role := Assistant; msg_content := concat responses;
              msg_tool_calls := [] |}]
  /\ _store r.1.1 !! sid (state s) = Some (state r.1.1).
Proof.
  cbn zeta. unfold send, mock_run. cbn [yields raises].
  rewrite send_all_app, text_only_content by done. cbn.
  rewrite <- app_assoc. repeat split. unfold save. cbn.
  by rewrite lookup_insert_eq.
Qed.

End SendProps.


(* ===================================================================== *)
(** ** The events the translator of the CLI yields                        *)
(* ===================================================================== *)

Module CliStream.
Import ClaudeCli SendViews CliViews Samples.

Lemma started_calls_app a b :
  started_calls (a ++ b) = started_calls a ++ started_calls b.
Proof. apply omap_app. Qed.

Lemma closed_calls_app a b :
  closed_calls (a ++ b) = closed_calls a ++ closed_calls b.
Proof. apply omap_app. Qed.

Lemma paired_snoc pre e :
  paired pre ->
  (forall i t o er inp, e = ToolDoneEvent i t o er inp ->
     (i, t) ∈ started_calls pre) ->
  paired (pre ++ [e]).
Proof.
  intros Hp He pre' i t o er inp post Heq.
  destruct post as [|x post _] using rev_ind.
  - apply app_inj_tail in Heq as [-> ->]. by eapply He.
  - change (pre' ++ ToolDoneEvent i t o er inp :: post ++ [x])
      with (pre' ++ (ToolDoneEvent i t o er inp :: post) ++ [x]) in Heq.
    rewrite app_assoc in Heq. apply app_inj_tail in Heq as [-> _].
    by eapply Hp.
Qed.

Lemma closed_in_started pre i :
  paired pre -> i ∈ closed_calls pre -> i ∈ (started_calls pre).*1.
Proof.
  intros Hp (e & He & Hi)%list_elem_of_omap.
  destruct e; try done. injection Hi as ->.
  apply list_elem_of_split in He as (l1 & l2 & ->).
  specialize (Hp _ _ _ _ _ _ _ eq_refl).
  rewrite started_calls_app, fmap_app. apply elem_of_app. left.
  apply list_elem_of_fmap. by eexists (_, _).
Qed.

Lemma tools_remove_sublist k t : sublist (tools_remove k t) t.
Proof.
  induction t as [|[k' e] t IH]; cbn [tools_remove]; [constructor|].
  destruct (key_eqb k' k); by constructor.
Qed.

Lemma tools_remove_elem k t x : x ∈ tools_remove k t -> x ∈ t.
Proof. intros H. eapply elem_of_sublist; [done|apply tools_remove_sublist]. Qed.

Lemma rids_remove_NoDup k t : NoDup (rids t) -> NoDup (rids (tools_remove k t)).
Proof.
  intros H. eapply sublist_NoDup; [done|].
  unfold rids. apply fmap_sublist, tools_remove_sublist.
Qed.

Lemma rids_remove_elem k t r : r ∈ rids (tools_remove k t) -> r ∈ rids t.
Proof.
  intros H. eapply elem_of_sublist; [done|].
  unfold rids. apply fmap_sublist, tools_remove_sublist.
Qed.

Lemma tools_get_elem k t e : tools_get k t = Some e -> exists k', (k', e) ∈ t.
Proof.
  induction t as [|[k' e'] t IH]; cbn [tools_get]; [done|].
  destruct (key_eqb k' k).
  - intros [= ->]. exists k'. by left.
  - intros (k'' & Hin)%IH. exists k''. by right.
Qed.

Lemma tools_get_removed k t e :
  tools_get k t = Some e -> NoDup (rids t) ->
  e.1.1 ∉ rids (tools_remove k t).
Proof.
  induction t as [|[k' e'] t IH]; cbn [tools_get tools_remove]; [done|].
  intros Hg Hnd. unfold rids in Hnd. rewrite fmap_cons in Hnd.
  apply NoDup_cons in Hnd as [Hhd Hnd]. cbn in Hhd.
  destruct (key_eqb k' k).
  - injection Hg as ->. intros Hin%rids_remove_elem. done.
  - unfold rids. rewrite fmap_cons. apply not_elem_of_cons. split.
    + cbn. intros Heq. apply Hhd. rewrite <- Heq.
      destruct (tools_get_elem _ _ _ Hg) as (k'' & Hin).
      apply list_elem_of_fmap. by exists (k'', e).
    + by apply IH.
Qed.

Lemma inv_init : cli_inv [] 0 [].
Proof.
  split; cbn; try by constructor.
  - intros k rid name inp Hin. by apply elem_of_nil in Hin.
  - intros rid Hin. by apply elem_of_nil in Hin.
  - intros pre i t o e inp post Heq. by destruct pre.
Qed.

Lemma inv_fresh_mono t fr fr' pre :
  cli_inv t fr pre -> fr <= fr' -> cli_inv t fr' pre.
Proof.
  intros [] Hle. split; try done.
  intros rid Hin. specialize (inv_fresh0 rid Hin). lia.
Qed.

Lemma inv_quiet_event t fr pre e :
  cli_inv t fr pre ->
  started_calls [e] = [] -> closed_calls [e] = [] -> is_error e = false ->
  cli_inv t fr (pre ++ [e]).
Proof.
  intros [] Hs Hc He.
  split; rewrite ?started_calls_app, ?closed_calls_app, ?Hs, ?Hc, ?app_nil_r;
    try done.
  - apply paired_snoc; [done|]. intros i tl o er inp ->. done.
  - apply Forall_app. split; [done|]. by constructor.
Qed.

Lemma inv_start t fr pre k nm inp :
  cli_inv t fr pre ->
  cli_inv (tools_set k (fr, JStr nm, None) t) (S fr)
          (pre ++ [ToolStartEvent fr nm inp]).
Proof.
  intros [].
  assert (Hfr : fr ∉ (started_calls pre).*1).
  { intros Hin%inv_fresh0. lia. }
  split; rewrite ?started_calls_app, ?closed_calls_app; cbn;
    rewrite ?app_nil_r; try done.
  - change (NoDup (fr :: rids (tools_remove k t))). apply NoDup_cons. split.
    + intros Hin%rids_remove_elem. apply Hfr. unfold rids in Hin.
      apply list_elem_of_fmap in Hin as ([k' [[rid name] inp']] & -> & Hin).
      destruct (inv_pending0 _ _ _ _ Hin) as (nm' & _ & Hs & _).
      apply list_elem_of_fmap. by exists (rid, nm').
    + by apply rids_remove_NoDup.
  - unfold tools_set. intros k' rid name inp' [Heq|Hin]%elem_of_cons.
    + injection Heq as -> -> -> ->. exists nm. split; [done|]. split.
      * apply elem_of_app. right. by left.
      * intros Hin. apply Hfr. by apply closed_in_started.
    + apply tools_remove_elem in Hin.
      destruct (inv_pending0 _ _ _ _ Hin) as (nm' & -> & Hs & Hc).
      exists nm'. split; [done|]. split; [|done].
      apply elem_of_app. by left.
  - intros rid. rewrite fmap_app. cbn.
    intros [Hin%inv_fresh0|Hin%list_elem_of_singleton]%elem_of_app; lia.
  - rewrite fmap_app. cbn. apply NoDup_app. split; [done|]. split.
    + intros x Hx Hin%list_elem_of_singleton. by subst.
    + apply NoDup_singleton.
  - apply paired_snoc; [done|]. intros i tl o er inp' Heq. done.
  - apply Forall_app. split; [done|]. by constructor.
Qed.

Lemma inv_record t fr pre k rid name inp0 inp :
  cli_inv t fr pre ->
  tools_get k t = Some (rid, name, inp0) ->
  cli_inv (tools_set k (rid, name, Some inp) t) fr pre.
Proof.
  intros [] Hg. split; try done.
  - change (NoDup (rid :: rids (tools_remove k t))). apply NoDup_cons. split.
    + by apply (tools_get_removed _ _ _ Hg).
    + by apply rids_remove_NoDup.
  - unfold tools_set. intros k' rid' name' inp' [Heq|Hin]%elem_of_cons.
    + injection Heq as -> -> -> ->.
      destruct (tools_get_elem _ _ _ Hg) as (k'' & Hin).
      by apply (inv_pending0 _ _ _ _ Hin).
    + apply tools_remove_elem in Hin. by apply (inv_pending0 _ _ _ _ Hin).
Qed.

Lemma inv_done t fr pre k rid nm inp out err d :
  cli_inv t fr pre ->
  tools_get k t = Some (rid, JStr nm, inp) ->
  cli_inv (tools_remove k t) fr (pre ++ [ToolDoneEvent rid nm out err d]).
Proof.
  intros [] Hg.
  destruct (tools_get_elem _ _ _ Hg) as (k0 & Hin0).
  destruct (inv_pending0 _ _ _ _ Hin0) as (nm0 & [= <-] & Hs0 & Hc0).
  split; rewrite ?started_calls_app, ?closed_calls_app; cbn;
    rewrite ?app_nil_r; try done.
  - by apply rids_remove_NoDup.
  - intros k' rid' name inp' Hin.
    assert (Hne : rid' <> rid).
    { intros ->. apply (tools_get_removed _ _ _ Hg inv_rids0). cbn.
      apply list_elem_of_fmap. by exists (k', (rid, name, inp')). }
    apply tools_remove_elem in Hin.
    destruct (inv_pending0 _ _ _ _ Hin) as (nm' & -> & Hs & Hc).
    exists nm'. split; [done|]. split; [done|].
    intros [?|?%list_elem_of_singleton]%elem_of_app; done.
  - apply NoDup_app. split; [done|]. split.
    + intros x Hx Hin%list_elem_of_singleton. by subst.
    + apply NoDup_singleton.
  - apply paired_snoc; [done|]. by intros i tl o er inp' [= <- <- _ _ _].
  - apply Forall_app. split; [done|]. by constructor.
Qed.

(** Case analysis on the calls the body of the loop makes, keeping what
    each call found. *)
Ltac cases :=
  repeat first
    [ progress cbn [bind lift]
    | match goal with
      | |- context [ClaudeCli.get ?k ?d ?j] => destruct (ClaudeCli.get k d j)
      | |- context [is_str ?k ?j] => destruct (is_str k j)
      | |- context [is_dict ?j] => destruct (is_dict j)
      | |- context [as_str ?j] => destruct j; cbn [as_str]
      | |- context [iterate ?j] => destruct (iterate j)
      | |- context [hashable ?j] => destruct (hashable j)
      | |- context [result_text_of ?f ?j] => destruct (result_text_of f j)
      | |- context [tools_get ?k ?t] =>
          let E := fresh "Eget" in
          destruct (tools_get k t) as [[[? ?] ?]|] eqn:E
      | |- context [truthy ?j] => destruct (truthy j)
      | |- context [bool_decide ?P] => destruct (bool_decide P)
      | |- context [session_id_emitted ?s] => destruct (session_id_emitted s)
      | |- context [andb _ _] => progress cbn [andb negb]
      end ].

Lemma on_stream_event_inv event st pre :
  cli_inv (pending_tools st) (fresh st) pre ->
  match on_stream_event event st with
  | Ok (evs, st') => cli_inv (pending_tools st') (fresh st') (pre ++ evs)
  | Raise _ => True
  end.
Proof.
  intros Hinv. unfold on_stream_event.
  cases; cbn; rewrite ?app_nil_r; try done;
    first [ by apply inv_start
          | by apply inv_quiet_event
          | eapply inv_fresh_mono; [done|lia] ].
Qed.

Lemma record_inputs_inv blocks : forall t fr pre,
  cli_inv t fr pre ->
  match record_inputs blocks t with
  | Ok t' => cli_inv t' fr pre
  | Raise _ => True
  end.
Proof.
  induction blocks as [|b blocks IH]; intros t fr pre Hinv;
    cbn [record_inputs]; [done|].
  cases; try done; try by apply IH.
  apply IH. by eapply inv_record.
Qed.

Lemma close_tool_block_inv py_str block t fr pre :
  cli_inv t fr pre ->
  match close_tool_block py_str block t with
  | Ok (evs, t') => cli_inv t' fr (pre ++ evs)
  | Raise _ => True
  end.
Proof.
  intros Hinv. unfold close_tool_block.
  cases; cbn; rewrite ?app_nil_r; try done; by eapply inv_done.
Qed.

Lemma close_tools_inv py_str blocks : forall t fr pre,
  cli_inv t fr pre ->
  exists t', cli_inv t' fr (pre ++ (close_tools py_str blocks t).1)
             /\ forall t'', (close_tools py_str blocks t).2 = Ok t'' -> t'' = t'.
Proof.
  induction blocks as [|b blocks IH]; intros t fr pre Hinv;
    cbn [close_tools].
  - exists t. cbn. rewrite app_nil_r. split; [done|]. by intros t'' [= <-].
  - pose proof (close_tool_block_inv py_str b t fr pre Hinv) as Hb.
    destruct (close_tool_block py_str b t) as [[evs t1]|e].
    + destruct (IH t1 fr (pre ++ evs) Hb) as (t' & Hinv' & Heq).
      destruct (close_tools py_str blocks t1) as [evs' r]. cbn [fst snd] in *.
      exists t'. by rewrite app_assoc.
    + exists t. cbn. rewrite app_nil_r. split; [done|]. by intros t'' [=].
Qed.

Lemma on_line_inv py_str event st pre :
  cli_inv (pending_tools st) (fresh st) pre ->
  match on_line py_str event st with
  | Continue evs st' => cli_inv (pending_tools st') (fresh st') (pre ++ evs)
  | Failed evs e => exists t fr, cli_inv t fr (pre ++ evs)
  end.
Proof.
  intros Hinv. unfold on_line.
  destruct (ClaudeCli.get "type" JNull event) as [event_type|e];
    [|exists (pending_tools st), (fresh st); by rewrite app_nil_r].
  destruct (is_str "system" event_type).
  { cases; cbn; rewrite ?app_nil_r; try done;
      try (by apply inv_quiet_event); by eauto. }
  destruct (is_str "stream_event" event_type).
  { pose proof (on_stream_event_inv event st pre Hinv) as H.
    destruct (on_stream_event event st) as [[evs st']|e]; cbn; [done|].
    rewrite app_nil_r. by eauto. }
  destruct (is_str "assistant" event_type).
  { destruct (ClaudeCli.get "message" (JObj []) event) as [msg|e]; cbn;
      [|rewrite app_nil_r; by eauto].
    destruct (ClaudeCli.get "content" (JArr []) msg) as [content|e]; cbn;
      [|rewrite app_nil_r; by eauto].
    destruct (iterate content) as [blocks|e]; cbn;
      [|rewrite app_nil_r; by eauto].
    pose proof (record_inputs_inv blocks _ _ _ Hinv) as H.
    destruct (record_inputs blocks (pending_tools st)) as [t|e]; cbn;
      rewrite app_nil_r; by eauto. }
  destruct (is_str "user" event_type).
  { destruct (ClaudeCli.get "message" (JObj []) event) as [msg|e]; cbn;
      [|rewrite app_nil_r; by eauto].
    destruct (ClaudeCli.get "content" (JArr []) msg) as [content|e]; cbn;
      [|rewrite app_nil_r; by eauto].
    destruct (iterate content) as [blocks|e]; cbn;
      [|rewrite app_nil_r; by eauto].
    destruct (close_tools_inv py_str blocks _ _ _ Hinv) as (t' & Hinv' & Heq).
    destruct (close_tools py_str blocks (pending_tools st)) as [evs [t|e]];
      cbn [fst snd] in *; [|by eauto].
    by rewrite (Heq t eq_refl). }
  destruct (is_str "result" event_type); [|cbn; by rewrite app_nil_r].
  assert (Hd : forall c, cli_inv (pending_tools st) (fresh st)
                           (pre ++ [SessionIdEvent c; DoneEvent])).
  { intros c. change (pre ++ [SessionIdEvent c; DoneEvent])
      with (pre ++ [SessionIdEvent c] ++ [DoneEvent]).
    rewrite app_assoc. by repeat apply inv_quiet_event. }
  cases; cbn; rewrite ?app_nil_r; try done;
    try (by apply inv_quiet_event); by eauto.
Qed.

Lemma translate_shape py_str lines : forall st pre,
  cli_inv (pending_tools st) (fresh st) pre ->
  exists body tail t fr,
    pre ++ translate py_str lines st = body ++ tail
    /\ cli_inv t fr body
    /\ (tail = [] \/ exists m, tail = [ErrorEvent m]).
Proof.
  induction lines as [|[event|] lines IH]; intros st pre Hinv;
    cbn [translate].
  - exists pre, [], (pending_tools st), (fresh st). by eauto.
  - pose proof (on_line_inv py_str event st pre Hinv) as H.
    destruct (on_line py_str event st) as [evs st'|evs e].
    + rewrite app_assoc. by apply IH.
    + destruct H as (t & fr & H).
      exists (pre ++ evs), [ErrorEvent (exn_message e)], t, fr.
      rewrite app_assoc. by eauto.
  - by apply IH.
Qed.

Lemma run_shape py_str lines :
  exists body tail t fr,
    run py_str lines = body ++ tail
    /\ cli_inv t fr body
    /\ (tail = [] \/ exists m, tail = [ErrorEvent m]).
Proof.
  destruct (translate_shape py_str lines init_state [] inv_init)
    as (body & tail & t & fr & H). by exists body, tail, t, fr.
Qed.

Lemma run_calls py_str lines :
  exists body t fr,
    cli_inv t fr body
    /\ started_calls (run py_str lines) = started_calls body
    /\ closed_calls (run py_str lines) = closed_calls body
    /\ (run py_str lines = body \/ exists m, run py_str lines = body ++ [ErrorEvent m]).
Proof.
  destruct (run_shape py_str lines) as (body & tail & t & fr & -> & Hinv & Ht).
  exists body, t, fr. split; [done|].
  rewrite started_calls_app, closed_calls_app.
  destruct Ht as [->|[m ->]]; cbn; rewrite ?app_nil_r; by eauto.
Qed.

(** X22. Whatever the lines of the process, the translator numbers its
    tool calls apart: no two [ToolStartEvent]s carry the same call id,
    and no call is closed twice. *)
Theorem tool_calls_start_and_close_once (py_str : json -> str)
    (lines : list (option json)) :
  NoDup (started_calls (run py_str lines)).*1
  /\ NoDup (closed_calls (run py_str lines)).
Proof.
  destruct (run_calls py_str lines) as (body & t & fr & [] & -> & -> & _).
  by split.
Qed.

(** X23. Whatever the lines of the process, every [ToolDoneEvent] the
    translator yields comes after a [ToolStartEvent] with the same call
    id and the same tool: a result for a tool call that was never opened
    yields nothing. *)
Theorem tool_done_follows_its_start (py_str : json -> str)
    (lines : list (option json)) :
  paired (run py_str lines).
Proof.
  destruct (run_calls py_str lines) as (body & t & fr & [] & _ & _ & Hr).
  destruct Hr as [->|[m ->]]; [done|].
  apply paired_snoc; [done|]. by intros i tl o er inp [=].
Qed.

(** X24. An [ErrorEvent] is the last thing the translator yields: the
    events before it hold no error, and nothing comes after it. *)
Theorem error_event_is_last (py_str : json -> str)
    (lines : list (option json)) :
  exists body,
    Forall (fun e => is_error e = false) body
    /\ (run py_str lines = body
        \/ exists m, run py_str lines = body ++ [ErrorEvent m]).
Proof.
  destruct (run_calls py_str lines) as (body & t & fr & [] & _ & _ & Hr).
  by exists body.
Qed.

End CliStream.


(* ===================================================================== *)
(** ** The tool calls [send] records                                      *)
(* ===================================================================== *)

Module ToolCallProps.
Import Session SendViews Obs Samples.

Lemma started_app a b :
  started_calls (a ++ b) = started_calls a ++ started_calls b.
Proof. apply omap_app. Qed.

Lemma closed_app a b :
  closed_calls (a ++ b) = closed_calls a ++ closed_calls b.
Proof. apply omap_app. Qed.

Lemma paired_prefix a b : paired (a ++ b) -> paired a.
Proof.
  intros Hp pre i t o e inp post ->. eapply (Hp pre).
  by rewrite <- app_assoc.
Qed.

Lemma closed_was_started evs i :
  paired evs -> i ∈ closed_calls evs -> i ∈ (started_calls evs).*1.
Proof.
  intros Hp (e & He & Hi)%list_elem_of_omap.
  destruct e; try done. injection Hi as ->.
  apply list_elem_of_split in He as (l1 & l2 & ->).
  specialize (Hp _ _ _ _ _ _ _ eq_refl).
  rewrite started_app, fmap_app. apply elem_of_app. left.
  apply list_elem_of_fmap. by eexists (_, _).
Qed.

Lemma ids_of_calls calls evs :
  call_key <$> calls = started_calls evs ->
  tc_id <$> calls = (started_calls evs).*1.
Proof. intros <-. by rewrite <- list_fmap_compose. Qed.

Lemma same_id_same_index calls evs i j tci tcj :
  call_key <$> calls = started_calls evs ->
  NoDup (started_calls evs).*1 ->
  calls !! i = Some tci -> calls !! j = Some tcj ->
  tc_id tci = tc_id tcj -> i = j.
Proof.
  intros Hc%ids_of_calls Hnd Hi Hj Heq. rewrite <- Hc in Hnd.
  apply (NoDup_lookup _ i j (tc_id tci) Hnd);
    rewrite list_lookup_fmap; [by rewrite Hi|by rewrite Hj, Heq].
Qed.

Lemma id_of_call_started calls evs tc :
  call_key <$> calls = started_calls evs ->
  tc ∈ calls -> tc_id tc ∈ (started_calls evs).*1.
Proof.
  intros Hc%ids_of_calls Hin. rewrite <- Hc.
  apply list_elem_of_fmap. by exists tc.
Qed.

Lemma accum_inv_empty : accum_inv empty_accum [].
Proof.
  split; cbn; [done| |].
  - intros id i. rewrite lookup_empty. split; [done|].
    by intros (tc & ? & _).
  - intros tc Hin. by apply elem_of_nil in Hin.
Qed.

Lemma accum_inv_quiet a a' evs e :
  accum_inv a evs ->
  assistant_tool_calls a' = assistant_tool_calls a ->
  in_flight_tools a' = in_flight_tools a ->
  started_calls [e] = [] -> closed_calls [e] = [] ->
  accum_inv a' (evs ++ [e]).
Proof.
  intros [] Hc Hf Hs Hd.
  split; rewrite ?started_app, ?closed_app, ?Hs, ?Hd, ?app_nil_r, ?Hc, ?Hf;
    done.
Qed.

Lemma accum_inv_start a evs id tool input :
  accum_inv a evs ->
  NoDup (started_calls (evs ++ [ToolStartEvent id tool input])).*1 ->
  paired evs ->
  accum_inv (send_step fresh_session a (ToolStartEvent id tool input)).1.2
            (evs ++ [ToolStartEvent id tool input]).
Proof.
  intros [] Hnd Hp. rewrite started_app, fmap_app in Hnd. cbn in Hnd.
  apply NoDup_app in Hnd as (Hnd & Hfresh & _).
  assert (Hid : id ∉ (started_calls evs).*1).
  { intros Hin. apply (Hfresh id Hin). by left. }
  assert (Hno : forall tc, tc ∈ assistant_tool_calls a -> tc_id tc <> id).
  { intros tc Hin <-. apply Hid. by eapply id_of_call_started. }
  split; cbn; rewrite ?started_app, ?closed_app; cbn; rewrite ?app_nil_r.
  - by rewrite fmap_app, acc_calls0.
  - intros id' i. destruct (decide (id' = id)) as [->|Hne].
    + rewrite lookup_insert_eq. split.
      * intros [= <-]. eexists. split; [by apply list_lookup_middle|done].
      * intros (tc & [[Hlt Hl]|[-> <-]]%lookup_snoc_Some & Htc & _); [|done].
        destruct (Hno tc); [by eapply list_elem_of_lookup_2|done].
    + rewrite lookup_insert_ne by done. rewrite acc_flight0. split.
      * intros (tc & Hl & Htc). exists tc. split; [|done].
        by apply lookup_app_l_Some.
      * intros (tc & [[Hlt Hl]|[-> <-]]%lookup_snoc_Some & Htc & Hc).
        -- by exists tc.
        -- cbn in Htc. by subst.
  - intros tc [Hin|Hin%list_elem_of_singleton]%elem_of_app.
    + by apply acc_done0.
    + subst tc. cbn. symmetry. apply bool_decide_eq_false_2.
      intros Hin. apply Hid. by apply closed_was_started.
Qed.

Lemma accum_inv_done a evs id tool output error input :
  accum_inv a evs ->
  NoDup (started_calls evs).*1 ->
  paired (evs ++ [ToolDoneEvent id tool output error input]) ->
  accum_inv
    (send_step fresh_session a (ToolDoneEvent id tool output error input)).1.2
    (evs ++ [ToolDoneEvent id tool output error input]).
Proof.
  intros [] Hnd Hp.
  assert (Hmem : forall x, x ∈ closed_calls evs ++ [id]
                           <-> x = id \/ x ∈ closed_calls evs).
  { intros x. rewrite elem_of_app, list_elem_of_singleton. tauto. }
  cbn [send_step fst snd].
  destruct (in_flight_tools a !! id) as [i|] eqn:Ei.
  - destruct (proj1 (acc_flight0 id i) Ei) as (tc & Hl & Htc & Hc).
    split; cbn; rewrite ?started_app, ?closed_app; cbn; rewrite ?app_nil_r.
    + rewrite <- acc_calls0.
      rewrite (list_fmap_alter call_key _ (fun x => x));
        [by rewrite list_alter_id|].
      by apply Forall_forall.
    + intros id' i'. destruct (decide (id' = id)) as [->|Hne].
      * rewrite lookup_delete_eq. split; [done|].
        intros (tc' & Hl' & Htc' & Hc'). rewrite list_lookup_alter in Hl'.
        destruct (decide (i = i')) as [<-|Hi].
        -- rewrite Hl in Hl'. injection Hl' as <-. done.
        -- destruct Hi.
           eapply (same_id_same_index _ _ _ _ _ _ acc_calls0 Hnd Hl Hl').
           congruence.
      * rewrite lookup_delete_ne by done. rewrite acc_flight0.
        rewrite list_lookup_alter.
        destruct (decide (i = i')) as [<-|Hi]; [|done].
        rewrite Hl. cbn. split.
        -- intros (tc' & [= <-] & Htc' & _). congruence.
        -- intros (tc' & [= <-] & Htc' & _). cbn in Htc'. congruence.
    + intros tc' (i' & Hl')%list_elem_of_lookup.
      rewrite list_lookup_alter in Hl'.
      destruct (decide (i = i')) as [<-|Hi].
      * rewrite Hl in Hl'. injection Hl' as <-. cbn. symmetry.
        apply bool_decide_eq_true_2. apply Hmem. by left.
      * rewrite (acc_done0 tc') by (by eapply list_elem_of_lookup_2).
        apply bool_decide_ext. rewrite Hmem. split; [by right|].
        intros [Heq|?]; [|done]. destruct Hi.
        eapply (same_id_same_index _ _ _ _ _ _ acc_calls0 Hnd Hl Hl').
        congruence.
  - split; cbn; rewrite ?started_app, ?closed_app; cbn; rewrite ?app_nil_r;
      try done.
    intros tc (i & Hl)%list_elem_of_lookup.
    destruct (decide (tc_id tc = id)) as [Heq|Hne].
    + destruct (tc_completed tc) eqn:Hc.
      * symmetry. apply bool_decide_eq_true_2. apply Hmem. by left.
      * assert (Hf : in_flight_tools a !! id = Some i).
        { apply acc_flight0. by exists tc. }
        congruence.
    + rewrite (acc_done0 tc) by (by eapply list_elem_of_lookup_2).
      apply bool_decide_ext. rewrite Hmem. split; [by right|].
      by intros [?|?].
Qed.

Lemma send_step_accum s a e : (send_step s a e).1.2 = (send_step fresh_session a e).1.2.
Proof. by destruct e. Qed.

Lemma accum_inv_step s a evs e :
  accum_inv a evs ->
  NoDup (started_calls (evs ++ [e])).*1 ->
  paired (evs ++ [e]) ->
  accum_inv (send_step s a e).1.2 (evs ++ [e]).
Proof.
  intros Hinv Hnd Hp. rewrite send_step_accum.
  destruct e; try (by eapply accum_inv_quiet).
  - apply accum_inv_start; [done|done|by eapply paired_prefix].
  - apply accum_inv_done; [done| |done].
    rewrite started_app in Hnd. cbn in Hnd. by rewrite app_nil_r in Hnd.
Qed.

Lemma send_all_snoc s a evs e :
  (send_all s a (evs ++ [e]) None).1.2
  = (send_step (send_all s a evs None).1.1 (send_all s a evs None).1.2 e).1.2.
Proof.
  rewrite SendProps.send_all_app.
  destruct (send_all s a evs None) as [[s1 a1] o1]. cbn [send_all fst snd].
  by destruct (send_step s1 a1 e) as [[s2 a2] y].
Qed.

Lemma send_all_accum_inv s evs :
  NoDup (started_calls evs).*1 -> paired evs ->
  accum_inv (send_all s empty_accum evs None).1.2 evs.
Proof.
  induction evs as [|e evs IH] using rev_ind; intros Hnd Hp.
  - apply accum_inv_empty.
  - rewrite send_all_snoc. apply accum_inv_step; [|done|done].
    apply IH; [|by eapply paired_prefix].
    rewrite started_app, fmap_app in Hnd. by apply NoDup_app in Hnd as [? _].
Qed.

(** X25. When the tool calls of the provider stream are well formed
    (call ids pairwise distinct, every [ToolDoneEvent] after the
    [ToolStartEvent] of its call) and the stream ends with its
    [DoneEvent], the assistant message [send] appends last lists one tool
    call per [ToolStartEvent], in order, with its id and tool, and a tool
    call is marked completed exactly when the stream closed it. *)
Theorem closed_calls_are_completed (message : str) (pre : list Event)
    (s : session) :
  NoDup (started_calls pre).*1 ->
  paired pre ->
  exists m,
    last (messages (state
            (send message {| yields := pre ++ [DoneEvent]; raises := None |}
                  s).1.1)) = Some m
    /\ msg_role m = Assistant
    /\ call_key <$> msg_tool_calls m = started_calls pre
    /\ forall tc, tc ∈ msg_tool_calls m ->
         tc_completed tc = bool_decide (tc_id tc ∈ closed_calls pre).
Proof.
  intros Hnd Hp. unfold send. cbn [yields raises].
  rewrite SendProps.send_all_app.
  pose proof (send_all_accum_inv (send_begin message s) pre Hnd Hp) as [].
  destruct (send_all (send_begin message s) empty_accum pre None)
    as [[s1 a1] o1]. cbn [fst snd] in *.
  exists (assistant_message a1). cbn. rewrite last_snoc. by repeat split.
Qed.

Lemma closed_calls_are_completed_witness :
  NoDup (started_calls
           (ClaudeCli.run (fun _ => []) tool_call_lines)).*1
  /\ paired (ClaudeCli.run (fun _ => []) tool_call_lines)
  /\ exists m,
       last (messages (state
               (send (lit "list the files")
                  {| yields := ClaudeCli.run (fun _ => []) tool_call_lines
                               ++ [DoneEvent];
                     raises := None |} fresh_session).1.1)) = Some m
       /\ msg_role m = Assistant
       /\ call_key <$> msg_tool_calls m
          = started_calls (ClaudeCli.run (fun _ => []) tool_call_lines)
       /\ forall tc, tc ∈ msg_tool_calls m ->
            tc_completed tc
            = bool_decide
                (tc_id tc
                 ∈ closed_calls (ClaudeCli.run (fun _ => []) tool_call_lines)).
Proof.
  assert (Hnd : NoDup (started_calls
                         (ClaudeCli.run (fun _ => []) tool_call_lines)).*1).
  { vm_compute. apply NoDup_singleton. }
  assert (Hp : paired (ClaudeCli.run (fun _ => []) tool_call_lines)).
  { intros pre i t o e inp post Heq. vm_compute in Heq.
    destruct pre as [|x [|y pre]]; cbn in Heq.
    - discriminate Heq.
    - injection Heq as <- <- <- _ _ _ _. cbn. by left.
    - injection Heq as _ _ Heq. by destruct pre. }
  split; [exact Hnd|]. split; [exact Hp|].
  exact (closed_calls_are_completed (lit "list the files") _ fresh_session
           Hnd Hp).
Defined.

End ToolCallProps.


(* ===================================================================== *)
(** ** The title of a conversation                                        *)
(* ===================================================================== *)

Module TitleProps.
Import Title Views.

Lemma split_head sep s :
  exists w ws rest,
    split sep s = w :: ws /\ s = w ++ rest /\ ~ In sep w
    /\ (rest = [] \/ head rest = Some sep).
Proof.
  induction s as [|c s (w & ws & rest & Hs & Heq & Hn & Hr)]; cbn [split].
  - exists [], [], []. repeat split; auto.
  - destruct (chr_eqb c sep) eqn:Ec.
    + apply Ascii.eqb_eq in Ec. subst c.
      exists [], (split sep s), (sep :: s). repeat split; auto.
    + rewrite Hs. exists (c :: w), ws, rest. subst s.
      repeat split; auto. intros [->|Hin]; [|done].
      unfold chr_eqb in Ec. by rewrite Ascii.eqb_refl in Ec.
Qed.

Lemma first_line_spec text :
  exists rest,
    strip text = first_line text ++ rest
    /\ ~ In newline (first_line text)
    /\ (rest = [] \/ head rest = Some newline)
    /\ (strip text <> [] -> first_line text <> []).
Proof.
  unfold first_line.
  destruct (split_head newline (strip text))
    as (w & ws & rest & Hs & Heq & Hn & Hr).
  rewrite Hs. cbn. exists rest. repeat split; try done.
  intros Hne ->. cbn in Heq.
  destruct Hr as [->|Hr]; [done|].
  pose proof (ParserExtra.strip_trimmed text) as Ht. rewrite Heq in Ht.
  destruct rest as [|c rest]; [done|]. injection Hr as ->.
  by specialize (Ht newline (or_introl eq_refl)).
Qed.

(** X26. The title made from a first message.  A blank message gives
    the default title.  Otherwise the title is the first line of the
    stripped message when that line has at most [max_len] characters,
    and else its first [max_len - 1] characters and the ellipsis; for
    [max_len] at least 1 it is never empty, never longer than [max_len]
    and, the ellipsis apart, holds no line break. *)
Theorem auto_title_fits (ellipsis : ascii) (text : str) (max_len : nat) :
  (strip text = [] ->
   _auto_title ellipsis text max_len = lit "New conversation")
  /\ (strip text <> [] -> 1 <= max_len ->
      exists line rest,
        strip text = line ++ rest
        /\ line <> [] /\ ~ In newline line
        /\ (rest = [] \/ head rest = Some newline)
        /\ _auto_title ellipsis text max_len
           = (if length line <=? max_len then line
              else take (max_len - 1) line ++ [ellipsis])
        /\ _auto_title ellipsis text max_len <> []
        /\ length (_auto_title ellipsis text max_len) <= max_len).
Proof.
  destruct (first_line_spec text) as (rest & Heq & Hn & Hr & Hne).
  unfold _auto_title. split.
  - intros Hs. rewrite Hs in Heq. symmetry in Heq.
    apply app_eq_nil in Heq as [-> _]. cbn.
    by destruct max_len.
  - intros Hs Hm. specialize (Hne Hs).
    exists (first_line text), rest. repeat split; try done.
    + destruct (Nat.ltb_spec max_len (length (first_line text))) as [Hlt|Hge].
      * rewrite (proj2 (Nat.leb_gt _ _)) by done.
        rewrite (proj2 (Nat.eqb_neq _ _)) by lia.
        by destruct (take _ _).
      * rewrite (proj2 (Nat.leb_le _ _)) by done.
        by destruct (first_line text).
    + destruct (max_len <? length (first_line text)).
      * rewrite (proj2 (Nat.eqb_neq _ _)) by lia. by destruct (take _ _).
      * by destruct (first_line text).
    + destruct (Nat.ltb_spec max_len (length (first_line text))) as [Hlt|Hge].
      * rewrite (proj2 (Nat.eqb_neq _ _)) by lia.
        assert (Hl : length (take (max_len - 1) (first_line text) ++ [ellipsis])
                     <= max_len).
        { rewrite length_app, length_take. cbn. lia. }
        by destruct (take _ _).
      * by destruct (first_line text).
Qed.

End TitleProps.


(* ===================================================================== *)
(** ** The history a logical turn leaves                                  *)
(* ===================================================================== *)

Module TurnHistory.
Import Parser Session Handlers Obs Views SendViews TurnViews Samples.

Lemma send_step_accumulate s a e : (send_step s a e).1.2 = accumulate a e.
Proof. by destruct e. Qed.

Lemma send_step_keeps s a e :
  is_done e = false ->
  messages (state (send_step s a e).1.1) = messages (state s)
  /\ sid (state (send_step s a e).1.1) = sid (state s)
  /\ _store (send_step s a e).1.1 = _store s.
Proof. by destruct e. Qed.

(** One provider call that reaches its [DoneEvent]: the assistant
    message of the call is appended and the state saved; the entries the
    parser adds to the pending list are registered with empty queues. *)
Lemma drive_call evs : forall s a p raised l,
  Exists (fun e => is_done e = true) evs ->
  registered (wld p) l ->
  messages (state (drive s a p evs raised).1.1)
  = messages (state s) ++ [assistant_message (accum_until_done a evs)]
  /\ sid (state (drive s a p evs raised).1.1) = sid (state s)
  /\ _store (drive s a p evs raised).1.1 !! sid (state s)
     = Some (state (drive s a p evs raised).1.1)
  /\ exists l', pending (drive s a p evs raised).1.2 = pending p ++ l'
                /\ registered (wld (drive s a p evs raised).1.2) (l ++ l').
Proof.
  induction evs as [|e evs IH]; intros s a p raised l Hex Hreg.
  - by apply Exists_nil in Hex.
  - cbn [drive accum_until_done]. destruct (is_done e) eqn:Hd.
    + destruct e; try discriminate Hd. cbn [send_step].
      pose proof (ParserFacts.parser_step_returned p DoneEvent) as Hr.
      destruct (ParserExtra.parser_step_registered p DoneEvent l Hreg)
        as (l' & Hl' & Hreg').
      destruct (parser_step p DoneEvent) as [[out p1] returned].
      cbn [fst snd] in *. subst returned. cbn [is_done fst snd].
      repeat split; try done.
      * cbn. unfold save. cbn. by rewrite lookup_insert_eq.
      * by exists l'.
    + apply Exists_cons in Hex as [He|Hex]; [congruence|].
      destruct (send_step_keeps s a e Hd) as (Hm & Hsid & Hst).
      pose proof (send_step_accumulate s a e) as Ha.
      pose proof (TurnProps.send_step_yields s a e) as Hy.
      destruct (send_step s a e) as [[s1 a1] y]. cbn [fst snd] in *.
      subst a1. destruct y as [ev|].
      * assert (ev = e) as -> by (destruct e; congruence).
        pose proof (ParserFacts.parser_step_returned p e) as Hr.
        destruct (ParserExtra.parser_step_registered p e l Hreg)
          as (l1 & Hl1 & Hreg1).
        destruct (parser_step p e) as [[out p1] returned].
        cbn [fst snd] in *. rewrite Hd in Hr. subst returned.
        destruct (IH s1 (accumulate a e) p1 raised (l ++ l1) Hex Hreg1)
          as (H1 & H2 & H3 & l2 & Hl2 & Hreg2).
        destruct (drive s1 (accumulate a e) p1 evs raised) as [[s2 p2] out'].
        cbn [fst snd] in *.
        rewrite H1, H2, Hm, Hsid. rewrite Hsid in H3.
        repeat split; try done.
        exists (l1 ++ l2). rewrite Hl2, Hl1, <- app_assoc. split; [done|].
        by rewrite app_assoc.
      * destruct (IH s1 (accumulate a e) p raised l Hex Hreg)
          as (H1 & H2 & H3 & l2 & Hl2 & Hreg2).
        destruct (drive s1 (accumulate a e) p evs raised) as [[s2 p2] out'].
        cbn [fst snd] in *.
        rewrite H1, H2, Hm, Hsid. rewrite Hsid in H3.
        repeat split; try done. by exists l2.
Qed.

Lemma turn_inputs_step message answers k :
  turn_inputs message answers (S k)
  = message
    :: turn_inputs (default (lit "(no response)") (mjoin (head answers)))
                   (tail answers) k.
Proof.
  unfold turn_inputs. f_equal. cbn [seq fmap list_fmap]. f_equal.
  - by rewrite head_lookup.
  - rewrite <- fmap_S_seq, <- list_fmap_compose. apply list_fmap_ext.
    intros i x _. cbn. by rewrite lookup_tail.
Qed.

(** C1 (amended). Every call of [session.send] the turn loop makes,
    its provider stream reaching its [DoneEvent], appends after the user
    message it was called with one assistant message of its own, holding
    the content and tool calls accumulated in that call only, and saves
    the state.  A logical turn in which [k] interaction pauses occur
    makes [k + 1] calls and appends [k + 1] user messages (the message of
    the user, then the [k] answers, the placeholder standing for an
    answer that does not come in time), each followed by the assistant
    message of its call: [k + 1] assistant messages in all.  The state
    saved under the id of the session when the turn ends is the state in
    memory, with all these messages. *)
Theorem each_call_persists_its_own_message (scripts : list script)
    (answers : list (option str)) (s : session) (w : world) (message : str)
    (sent : list ws_msg) (calls : nat) (r : turn_result) :
  Forall reaches_done scripts ->
  turn_loop scripts answers s w message sent calls = Some r ->
  exists k,
    tr_calls r = calls + S k
    /\ k < length scripts
    /\ messages (state (tr_session r))
       = messages (state s)
         ++ turn_history (turn_inputs message answers k) scripts
    /\ count_assistant (messages (state (tr_session r)))
       = count_assistant (messages (state s)) + S k
    /\ _store (tr_session r) !! sid (state s) = Some (state (tr_session r)).
Proof.
  intros Hall Hrun.
  destruct (TurnProps.calls_and_assistant_messages _ _ _ _ _ _ _ _ Hall Hrun)
    as (k & Hcalls & Hcount).
  exists k. split; [done|].
  enough (k < length scripts
          /\ messages (state (tr_session r))
             = messages (state s)
               ++ turn_history (turn_inputs message answers k) scripts
          /\ _store (tr_session r) !! sid (state s)
             = Some (state (tr_session r))) as (? & ? & ?) by done.
  clear Hcount. revert answers s w message sent calls k r Hall Hrun Hcalls.
  induction scripts as [|sc scripts IH];
    intros answers s w message sent calls k r Hall Hrun Hcalls; [done|].
  apply Forall_cons in Hall as [Hsc Hall]. cbn [turn_loop] in Hrun.
  destruct (drive_call (yields sc) (send_begin message s) empty_accum
              {| buf := []; pending := []; wld := w |} (raises sc) []
              Hsc) as (Hm & Hsid & Hst & l' & Hl' & Hreg').
  { intros r0 q0 Hin. by apply elem_of_nil in Hin. }
  destruct (drive _ _ _ (yields sc) (raises sc)) as [[s' p] out].
  cbn [fst snd pending app] in *.
  change (messages (state (send_begin message s)))
    with (messages (state s) ++ [user_message message]) in Hm.
  change (sid (state (send_begin message s))) with (sid (state s)) in *.
  destruct (pending p) as [|[req_id q] rest] eqn:Ep.
  - injection Hrun as <-. cbn [tr_calls tr_session] in *.
    assert (k = 0) as -> by lia. cbn [length]. split; [lia|].
    split; [|done]. rewrite Hm. unfold turn_history, turn_inputs. cbn.
    by rewrite <- app_assoc.
  - assert (Hq : heap (wld p) !! q = Some (new_queue 1)).
    { subst l'. apply (Hreg' req_id q). by left. }
    unfold await_answer in Hrun. rewrite Hq in Hrun. cbn in Hrun.
    destruct k as [|k].
    { destruct (TurnProps.calls_and_assistant_messages _ _ _ _ _ _ _ _
                  Hall Hrun) as (k' & Hk' & _). lia. }
    destruct (IH _ _ _ _ _ _ k _ Hall Hrun) as (Hlt & Hmsgs & Hstore);
      [lia|].
    cbn [length]. split; [lia|]. rewrite Hsid in Hstore. split; [|done].
    rewrite Hmsgs, Hm, turn_inputs_step. unfold turn_history. cbn.
    by rewrite <- !app_assoc.
Qed.

(** C1 (amended), at a turn with one pause: two calls; the history is
    the message of the user, the assistant message of the first call,
    the answer, the assistant message of the second call; the state
    saved is the state in memory. *)
Lemma each_call_persists_its_own_message_witness :
  Forall reaches_done ask_then_reply
  /\ turn_loop ask_then_reply [Some (lit "B")] fresh_session empty_world
       (lit "hi") [] 0 = Some ask_then_reply_result
  /\ turn_history (turn_inputs (lit "hi") [Some (lit "B")] 1) ask_then_reply
     = [{| msg_role := User; msg_content := lit "hi"; msg_tool_calls := [] |};
        {| msg_role := Assistant;
           msg_content := lit "Sure. <ask>Which?</ask>";
           msg_tool_calls := [] |};
        {| msg_role := User; msg_content := lit "B"; msg_tool_calls := [] |};
        {| msg_role := Assistant; msg_content := lit "ok";
           msg_tool_calls := [] |}]
  /\ exists k,
       tr_calls ask_then_reply_result = 0 + S k
       /\ k < length ask_then_reply
       /\ messages (state (tr_session ask_then_reply_result))
          = messages (state fresh_session)
            ++ turn_history (turn_inputs (lit "hi") [Some (lit "B")] k)
                 ask_then_reply
       /\ count_assistant (messages (state (tr_session ask_then_reply_result)))
          = count_assistant (messages (state fresh_session)) + S k
       /\ _store (tr_session ask_then_reply_result) !! sid (state fresh_session)
          = Some (state (tr_session ask_then_reply_result)).
Proof.
  assert (H : Forall reaches_done ask_then_reply).
  { repeat constructor; unfold reaches_done; simpl;
      apply Exists_cons; right; by constructor. }
  assert (Hrun : turn_loop ask_then_reply [Some (lit "B")] fresh_session
                   empty_world (lit "hi") [] 0 = Some ask_then_reply_result).
  { vm_compute. reflexivity. }
  split; [exact H|]. split; [exact Hrun|].
  split; [vm_compute; reflexivity|].
  exact (each_call_persists_its_own_message ask_then_reply [Some (lit "B")]
           fresh_session empty_world (lit "hi") [] 0 ask_then_reply_result
           H Hrun).
Defined.

End TurnHistory.
